(** * Chunked multipart upload: the browser's Upload component and the
      server's file controller.

    The development embeds the two halves of the upload protocol:

    - [Upload]: the React component (CHUNK_SIZE, MAX_RETRY, delay,
      the progress effect, handleFileChange, uploadChunkWithFetch,
      uploadChunks, handleUpload and the disabled attribute of the controls);
    - [FileController]: the Express handlers createMultipartUpload and
      completeMultipartUpload over the S3 client and the Mongoose model.

    Asynchronous functions are written in a state-and-exception monad: an
    [await] is a bind, a rejected promise is a [Throw], and [try]/[catch] is
    [try_catch].  Everything outside the component (the network, S3, the
    metadata store, the clock) is an environment record the code queries.

    JavaScript Numbers that hold byte counts and indices are integers in [Z]
    (they stay below 2^53, where a double holds every integer).  The progress
    computation divides and multiplies doubles: its quotient and its product
    are rounded to the nearest double, ties to even, by [binary64], and
    Math.round is taken of the rounded product. *)

From Stdlib Require Import ZArith QArith Qround List String Ascii Bool Lia Lqa.
From Stdlib Require Import Sorted Permutation Qabs Qpower.
From Stdlib Require Import DecimalString.
From Stdlib Require DecimalFacts DecimalPos DecimalZ.
From Stdlib Require Floats.SpecFloat.
From Equations Require Import Equations.
Import ListNotations.

Local Open Scope string_scope.
Local Open Scope Z_scope.

(** ** Completions and the state-and-exception monad *)

(** A value thrown by JavaScript code: [new Error(msg)] or a TypeError raised
    by the runtime (a property read on [null]/[undefined], a rejected
    [fetch]). *)
Inductive JsError : Type :=
| Error (message : string)
| TypeError (message : string).

Definition error_message (e : JsError) : string :=
  match e with Error m => m | TypeError m => m end.

Inductive Completion (A : Type) : Type :=
| Normal (a : A)
| Throw (e : JsError).
Arguments Normal {A} a.
Arguments Throw {A} e.

Definition M (S A : Type) : Type := S -> Completion A * S.

Definition ret {S A} (a : A) : M S A := fun s => (Normal a, s).

Definition bind {S A B} (m : M S A) (k : A -> M S B) : M S B :=
  fun s => match m s with
           | (Normal a, s') => k a s'
           | (Throw e, s') => (Throw e, s')
           end.

Definition throw {S A} (e : JsError) : M S A := fun s => (Throw e, s).

Definition try_catch {S A} (body : M S A) (handler : JsError -> M S A) : M S A :=
  fun s => match body s with
           | (Normal a, s') => (Normal a, s')
           | (Throw e, s') => handler e s'
           end.

Definition gets {S A} (f : S -> A) : M S A := fun s => (Normal (f s), s).
Definition modify {S} (f : S -> S) : M S unit := fun s => (Normal tt, f s).

Declare Scope js_scope.
Delimit Scope js_scope with js.
Notation "x <- m ;; k" := (bind m (fun x => k))
  (at level 61, m at next level, right associativity) : js_scope.
Notation "m ;; k" := (bind m (fun _ => k))
  (at level 61, right associativity) : js_scope.

(** [for (let i = from; i < from + n; i++) body(i)] *)
Fixpoint for_loop {St} (n : nat) (i : Z) (body : Z -> M St unit) : M St unit :=
  match n with
  | O => ret tt
  | S n' => bind (body i) (fun _ => for_loop n' (i + 1) body)
  end.

(** ** Numbers *)

(** The value of a double is a rational.  [binary64 q] is the double nearest
    to the real number [q], ties going to the even significand: the result
    of an IEEE 754 operation whose exact result is [q].  A positive [q] lies
    in one binade, 2^p <= q < 2^(p+1); there the doubles are the multiples of
    2^(p-52), and [q] goes to the nearest multiple.  The exponent is not
    bounded: no quantity of this program comes near the subnormal or the
    overflow range. *)
Definition two_to (e : Z) : Q := Qpower 2 e.

Definition binade (q : Q) : Z :=
  let l := Z.log2 (Qnum q) - Z.log2 (Zpos (Qden q)) in
  if Qle_bool (two_to l) q then l else l - 1.

Definition round_half_even (x : Q) : Z :=
  let f := Qfloor x in
  match Qcompare (x - inject_Z f) (1 # 2) with
  | Lt => f
  | Gt => f + 1
  | Eq => if Z.even f then f else f + 1
  end.

Definition nearest (q : Q) : Q :=
  let ulp := two_to (binade q - 52) in
  (inject_Z (round_half_even (q / ulp)) * ulp)%Q.

Definition binary64 (q : Q) : Q :=
  match Qcompare q 0 with
  | Eq => 0%Q
  | Gt => nearest q
  | Lt => (- nearest (- q))%Q
  end.

(** [a / b] and [a * b] on doubles. *)
Definition Number_div (a b : Q) : Q := binary64 (a / b).
Definition Number_mul (a b : Q) : Q := binary64 (a * b).

(** [Math.ceil], and [Math.round], which rounds a double to the nearest
    integer, a tie going up. *)
Definition Math_ceil (q : Q) : Z := Qceiling q.
Definition Math_round (q : Q) : Z := Qfloor (q + (1 # 2)).

(** Number-to-string conversion of an integer, as [+] does with a string. *)
Definition Number_toString (n : Z) : string :=
  NilZero.string_of_int (Z.to_int n).

(** [s.replace] with the global pattern of the double-quote character and the
    empty replacement: every double quote is dropped. *)
Definition dquote : ascii := ascii_of_nat 34.

Fixpoint strip_quotes (s : string) : string :=
  match s with
  | EmptyString => EmptyString
  | String c rest =>
      if Ascii.eqb c dquote then strip_quotes rest
      else String c (strip_quotes rest)
  end.

(** ** The Upload component (browser side) *)

Module Upload.

Local Open Scope js_scope.

Definition CHUNK_SIZE : Z := 5 * 1024 * 1024.
Definition MAX_RETRY : Z := 5.

(** A [File] as the component uses it: its name, byte size and MIME type. *)
Record File : Type := { name : string; size : Z; type : string }.

(** A [Blob] cut from the selected file: the byte range [lo, hi). *)
Record Blob : Type := { lo : Z; hi : Z }.

Definition Blob_size (b : Blob) : Z := hi b - lo b.

(** [file.slice(start, end)]: both offsets are clamped to the file, a
    negative offset counts from the end, and an empty span is empty. *)
Definition clamp_offset (sz off : Z) : Z :=
  if off <? 0 then Z.max (sz + off) 0 else Z.min off sz.

Definition slice (f : File) (start end_ : Z) : Blob :=
  let relativeStart := clamp_offset (size f) start in
  let relativeEnd := clamp_offset (size f) end_ in
  let span := Z.max (relativeEnd - relativeStart) 0 in
  {| lo := relativeStart; hi := relativeStart + span |}.

(** One element of [parts]. *)
Record Part : Type := { PartNumber : Z; ETag : string }.

(** JSON bodies of the two API requests. *)
Record CreateRequest : Type :=
  { cr_fileName : string; cr_fileType : string; cr_chunkCount : Z }.

Record CompleteRequest : Type :=
  { cp_fileName : string; cp_uploadId : option string;
    cp_parts : list Part; cp_fileSize : Z }.

(** What the network gives back.  A chunk PUT either rejects (network error)
    or resolves to a response with its [ok] flag, [statusText] and the value
    of [headers.get('ETag')] ([None] is [null]).  The create request either
    fails ([fetch] rejects or the body is not JSON) or yields an object whose
    [uploadId] and [preSignedUrls] fields may be missing ([undefined]).  The
    complete request rejects or resolves; its response is never inspected.
    Every request is taken to settle: a request that is never answered
    leaves the run waiting at its [await], and no outcome stands for it. *)
Inductive PutOutcome : Type :=
| PutReject (e : JsError)
| PutResponse (ok : bool) (statusText : string) (etag : option string).

Inductive CreateOutcome : Type :=
| CreateReject (e : JsError)
| CreateJson (uploadId : option string) (preSignedUrls : option (list string)).

Inductive CompleteOutcome : Type :=
| CompleteReject (e : JsError)
| CompleteResponse (ok : bool).

(** The environment of one run: the clock, the API answers, and the answer
    to the n-th chunk PUT issued (counting from 0, retries included). *)
Record Env : Type :=
  { Date_now : Z;
    create_multipart : CreateRequest -> CreateOutcome;
    complete_multipart : CompleteRequest -> CompleteOutcome;
    put_chunk : nat -> option string -> Blob -> PutOutcome }.

(** What the run does to the outside, in order. *)
Inductive Event : Type :=
| EvCreateMultipart (body : CreateRequest)
| EvSetProgress (p : Z)
| EvPut (url : option string) (chunk : Blob)
| EvDelay (ms : Z)
| EvCompleteMultipart (body : CompleteRequest)
| EvUploadComplete.

(** The component's state ([file], [progress], [message], the value of the
    file input behind [fileInputRef]), the two locals of [uploadChunks] that
    the progress callback closes over ([parts], [totalUploadedBytes]), and
    the book-keeping of the environment. *)
Record State : Type :=
  { file : option File;
    progress : option Z;
    message : string;
    fileInput_value : string;
    parts : list Part;
    totalUploadedBytes : Z;
    puts_sent : nat;
    trace : list Event }.

Definition with_file (v : option File) (s : State) : State :=
  {| file := v; progress := progress s; message := message s;
     fileInput_value := fileInput_value s; parts := parts s;
     totalUploadedBytes := totalUploadedBytes s; puts_sent := puts_sent s;
     trace := trace s |}.

Definition with_progress (v : option Z) (s : State) : State :=
  {| file := file s; progress := v; message := message s;
     fileInput_value := fileInput_value s; parts := parts s;
     totalUploadedBytes := totalUploadedBytes s; puts_sent := puts_sent s;
     trace := trace s |}.

Definition with_message (v : string) (s : State) : State :=
  {| file := file s; progress := progress s; message := v;
     fileInput_value := fileInput_value s; parts := parts s;
     totalUploadedBytes := totalUploadedBytes s; puts_sent := puts_sent s;
     trace := trace s |}.

Definition with_fileInput_value (v : string) (s : State) : State :=
  {| file := file s; progress := progress s; message := message s;
     fileInput_value := v; parts := parts s;
     totalUploadedBytes := totalUploadedBytes s; puts_sent := puts_sent s;
     trace := trace s |}.

Definition with_parts (v : list Part) (s : State) : State :=
  {| file := file s; progress := progress s; message := message s;
     fileInput_value := fileInput_value s; parts := v;
     totalUploadedBytes := totalUploadedBytes s; puts_sent := puts_sent s;
     trace := trace s |}.

Definition with_totalUploadedBytes (v : Z) (s : State) : State :=
  {| file := file s; progress := progress s; message := message s;
     fileInput_value := fileInput_value s; parts := parts s;
     totalUploadedBytes := v; puts_sent := puts_sent s;
     trace := trace s |}.

Definition with_puts_sent (v : nat) (s : State) : State :=
  {| file := file s; progress := progress s; message := message s;
     fileInput_value := fileInput_value s; parts := parts s;
     totalUploadedBytes := totalUploadedBytes s; puts_sent := v;
     trace := trace s |}.

Definition emit (e : Event) (s : State) : State :=
  {| file := file s; progress := progress s; message := message s;
     fileInput_value := fileInput_value s; parts := parts s;
     totalUploadedBytes := totalUploadedBytes s; puts_sent := puts_sent s;
     trace := trace s ++ [e] |}.

(** The component as mounted: nothing selected, no progress, no message. *)
Definition mounted : State :=
  {| file := None; progress := None; message := "";
     fileInput_value := ""; parts := []; totalUploadedBytes := 0;
     puts_sent := 0%nat; trace := [] |}.

(** *** State setters and the progress effect *)

Definition setFile (v : option File) : M State unit := modify (with_file v).
Definition setMessage (v : string) : M State unit := modify (with_message v).

(** The effect registered on [progress]: once a render sees 100 it clears
    the file state and the file input. *)
Definition progress_effect (s : State) : State :=
  match progress s with
  | Some p => if p =? 100 then with_fileInput_value "" (with_file None s) else s
  | None => s
  end.

(** [setProgress(p)] from the upload flow: the state changes, the component
    renders, and the effect runs against the new value. *)
Definition setProgress (p : Z) : M State unit :=
  modify (fun s => progress_effect (with_progress (Some p) (emit (EvSetProgress p) s))).

(** [handleFileChange]: the chosen file is stored, progress and message are
    reset.  The browser has put the file's name in the input. *)
Definition handleFileChange (f : File) : M State unit :=
  modify (with_fileInput_value (name f)) ;;
  setFile (Some f) ;;
  modify (fun s => progress_effect (with_progress None s)) ;;
  setMessage "".

(** [disabled={progress !== null && progress !== 100}] on both controls. *)
Definition controls_disabled (s : State) : bool :=
  match progress s with
  | None => false
  | Some p => negb (p =? 100)
  end.

(** *** Network primitives *)

Definition delay (ms : Z) : M State unit := modify (emit (EvDelay ms)).

Definition fetch_put (env : Env) (url : option string) (chunk : Blob)
  : M State PutOutcome :=
  fun s => (Normal (put_chunk env (puts_sent s) url chunk),
            with_puts_sent (S (puts_sent s)) (emit (EvPut url chunk) s)).

(** The messages the component shows and the error of a refused chunk. *)
Definition success_message : string := "File uploaded successfully!".
Definition failure_message : string := "Failed to upload file".

Definition chunk_error (statusText : string) : JsError :=
  Error ("Failed to upload chunk: " ++ statusText)%string.

(** *** uploadChunkWithFetch *)

(** How many further attempts a call with this [retry] can still make; the
    recursion of [uploadChunkWithFetch] descends on it. *)
Definition attempts_left (retry : Z) : nat := Z.to_nat (MAX_RETRY - retry).

#[local] Opaque attempts_left.

Equations? uploadChunkWithFetch (env : Env) (url : option string) (chunk : Blob)
  (onProgress : option string -> M State unit) (retry : Z)
  : M State unit by wf (attempts_left retry) lt :=
  uploadChunkWithFetch env url chunk onProgress retry :=
    try_catch
      (response <- fetch_put env url chunk ;;
       match response with
       | PutReject e => throw e
       | PutResponse ok statusText etag =>
           (if negb ok
            then throw (chunk_error statusText)
            else ret tt) ;;
           onProgress etag
       end)
      (fun error =>
         match Z_lt_dec retry MAX_RETRY with
         | left _ =>
             delay (retry * 20 * 1000) ;;
             uploadChunkWithFetch env url chunk onProgress (retry + 1)
         | right _ => throw error
         end).
Proof.
  with_strategy transparent [attempts_left]
    (unfold attempts_left, MAX_RETRY in *; lia).
Qed.

(** *** uploadChunks *)

(** [Math.ceil(file.size / CHUNK_SIZE)].  The quotient is taken exactly: its
    rounding to a double does not change the ceiling of a size below 2^53
    ([ceil_double_quotient]). *)
Definition chunkCount (f : File) : Z :=
  Math_ceil (inject_Z (size f) / inject_Z CHUNK_SIZE).

(** The i-th chunk as the loop body cuts it. *)
Definition chunk_at (f : File) (i : Z) : Blob :=
  let start := i * CHUNK_SIZE in
  let end_ := Z.min (size f) (start + CHUNK_SIZE) in
  slice f start end_.

(** The callback passed as [onProgress] for chunk [i].  The object literal
    is evaluated before [push], so a [null] ETag raises at [etag.replace]
    with [parts] untouched.  The percentage is computed in doubles, as
    [(totalUploadedBytes / file.size) * 100]; the callback runs for a chunk
    of the file, so [file.size] is positive. *)
Definition onProgress (f : File) (i : Z) (chunk : Blob) (etag : option string)
  : M State unit :=
  match etag with
  | None => throw (TypeError "Cannot read properties of null (reading 'replace')")
  | Some tag =>
      modify (fun s => with_parts
                (parts s ++ [{| PartNumber := i + 1; ETag := strip_quotes tag |}]) s) ;;
      modify (fun s => with_totalUploadedBytes
                (totalUploadedBytes s + Blob_size chunk) s) ;;
      uploaded <- gets totalUploadedBytes ;;
      let percentCompleted :=
        Math_round
          (Number_mul (Number_div (inject_Z uploaded) (inject_Z (size f))) 100) in
      setProgress percentCompleted
  end.

(** [preSignedUrls[i]]: a TypeError when [preSignedUrls] is [undefined],
    [undefined] ([None]) past the end of the array. *)
Definition url_at (preSignedUrls : option (list string)) (i : Z)
  : M State (option string) :=
  match preSignedUrls with
  | None => throw (TypeError "Cannot read properties of undefined ")
  | Some urls => ret (nth_error urls (Z.to_nat i))
  end.

Definition fetch_create (env : Env) (body : CreateRequest)
  : M State (option string * option (list string)) :=
  fun s =>
    let s' := emit (EvCreateMultipart body) s in
    match create_multipart env body with
    | CreateReject e => (Throw e, s')
    | CreateJson uploadId preSignedUrls => (Normal (uploadId, preSignedUrls), s')
    end.

Definition fetch_complete (env : Env) (body : CompleteRequest) : M State bool :=
  fun s =>
    let s' := emit (EvCompleteMultipart body) s in
    match complete_multipart env body with
    | CompleteReject e => (Throw e, s')
    | CompleteResponse ok => (Normal ok, s')
    end.

Definition upload_body (env : Env) (f : File)
  (preSignedUrls : option (list string)) (i : Z) : M State unit :=
  let chunk := chunk_at f i in
  url <- url_at preSignedUrls i ;;
  uploadChunkWithFetch env url chunk (onProgress f i chunk) 1.

(** [Date.now() + "_" + file.name] *)
Definition fileName (env : Env) (f : File) : string :=
  (Number_toString (Date_now env) ++ "_" ++ name f)%string.

Definition create_request (env : Env) (f : File) : CreateRequest :=
  {| cr_fileName := fileName env f; cr_fileType := type f;
     cr_chunkCount := chunkCount f |}.

Definition complete_request (env : Env) (f : File) (uploadId : option string)
  (collected : list Part) : CompleteRequest :=
  {| cp_fileName := fileName env f; cp_uploadId := uploadId;
     cp_parts := collected; cp_fileSize := size f |}.

Definition uploadChunks (env : Env) (f : File) : M State unit :=
  session <- fetch_create env (create_request env f) ;;
  let '(uploadId, preSignedUrls) := session in
  modify (with_totalUploadedBytes 0) ;;
  modify (with_parts []) ;;
  setProgress 0 ;;
  for_loop (Z.to_nat (chunkCount f)) 0 (upload_body env f preSignedUrls) ;;
  collected <- gets parts ;;
  fetch_complete env (complete_request env f uploadId collected) ;;
  modify (emit EvUploadComplete) ;;
  setMessage success_message.

(** *** handleUpload *)

Definition handleUpload (env : Env) : M State unit :=
  selected <- gets file ;;
  match selected with
  | None => ret tt
  | Some f =>
      try_catch
        (setProgress 0 ;; uploadChunks env f)
        (fun error => setMessage failure_message)
  end.

(** A whole run: the user picks [f] in the freshly mounted component and
    presses Upload. *)
Definition beginUpload (env : Env) (f : File) : Completion unit * State :=
  (handleFileChange f ;; handleUpload env) mounted.

Definition final (env : Env) (f : File) : State := snd (beginUpload env f).

(** *** Reading a trace *)

Definition progress_values (tr : list Event) : list Z :=
  flat_map (fun e => match e with EvSetProgress p => [p] | _ => [] end) tr.

Definition complete_requests (tr : list Event) : list CompleteRequest :=
  flat_map (fun e => match e with EvCompleteMultipart b => [b] | _ => [] end) tr.

Definition create_requests (tr : list Event) : list CreateRequest :=
  flat_map (fun e => match e with EvCreateMultipart b => [b] | _ => [] end) tr.

Definition put_requests (tr : list Event) : list Blob :=
  flat_map (fun e => match e with EvPut _ c => [c] | _ => [] end) tr.

Definition delays (tr : list Event) : list Z :=
  flat_map (fun e => match e with EvDelay ms => [ms] | _ => [] end) tr.

(** [Math.round((totalUploadedBytes / file.size) * 100)] at a given count of
    uploaded bytes, and the progress value after [k] chunks of [f] have been
    stored. *)
Definition percent_of (f : File) (uploaded : Z) : Z :=
  Math_round (Number_mul (Number_div (inject_Z uploaded) (inject_Z (size f))) 100).

Definition percent_after (f : File) (k : nat) : Z :=
  percent_of f (Z.min (size f) (Z.of_nat k * CHUNK_SIZE)).

(** A chunk PUT counts as refused when [fetch] rejects or the response is
    not [ok]. *)
Definition refused (o : PutOutcome) : bool :=
  match o with
  | PutReject _ => true
  | PutResponse ok _ _ => negb ok
  end.

(** The error such an attempt raises inside the [try]. *)
Definition refusal_error (o : PutOutcome) : JsError :=
  match o with
  | PutReject e => e
  | PutResponse _ statusText _ => chunk_error statusText
  end.

End Upload.

(** ** The file controller (server side) *)

Module FileController.

Local Open Scope js_scope.

(** [60 * 60 * 24], passed as [Expires], which S3 reads in seconds. *)
Definition EXPIRATION_HOURS : Z := 60 * 60 * 24.

(** One element of [req.body.parts]. *)
Record Part : Type := { PartNumber : Z; ETag : string }.

(** Parameters of the S3 calls the controller makes. *)
Record CreateParams : Type :=
  { c_Bucket : string; c_Key : string; c_ContentType : string }.

Record UploadPartParams : Type :=
  { u_Bucket : string; u_Key : string; u_UploadId : string;
    u_Expires : Z; u_PartNumber : Z }.

Record CompleteParams : Type :=
  { m_Bucket : string; m_Key : string; m_UploadId : option string;
    m_Parts : list Part }.

Record GetObjectParams : Type :=
  { g_Bucket : string; g_Key : string; g_Expires : Z }.

(** A document of the [File] model; [uploadDate] defaults to [Date.now]. *)
Record FileDoc : Type :=
  { file_name : string; file_size : Z; s3Key : string; uploadDate : Z }.

(** The collaborators: the bucket name from the process environment, the
    S3 client (each call resolves with [inr] or rejects with [inl]), the
    metadata store's [save] ([None] when it succeeds) and the clock. *)
Record Env : Type :=
  { AWS_BUCKET_NAME : string;
    s3_createMultipartUpload : CreateParams -> JsError + string;
    s3_getSignedUrlPromise_uploadPart : UploadPartParams -> JsError + string;
    s3_completeMultipartUpload : CompleteParams -> JsError + unit;
    s3_getSignedUrl_getObject : GetObjectParams -> JsError + string;
    File_save : FileDoc -> option JsError;
    Date_now : Z }.

Inductive Body : Type :=
| CreatedBody (uploadId : string) (preSignedUrls : list string)
| CompletedBody (message downloadUrl : string)
| ErrorBody (error : string).

Record Response : Type := { status : Z; body : Body }.

(** The calls made on the S3 client, in order. *)
Inductive Call : Type :=
| CallCreateMultipartUpload (p : CreateParams)
| CallSignUploadPart (p : UploadPartParams)
| CallCompleteMultipartUpload (p : CompleteParams)
| CallSignGetObject (p : GetObjectParams)
| CallSave (d : FileDoc).

(** The server as a handler sees it: the stored documents, the response
    written on [res] (if any) and the log of calls. *)
Record Server : Type :=
  { documents : list FileDoc;
    response : option Response;
    calls : list Call }.

Definition log (c : Call) (s : Server) : Server :=
  {| documents := documents s; response := response s;
     calls := calls s ++ [c] |}.

Definition call {P A} (mk : P -> Call) (f : P -> JsError + A) (p : P)
  : M Server A :=
  fun s => match f p with
           | inl e => (Throw e, log (mk p) s)
           | inr a => (Normal a, log (mk p) s)
           end.

(** [res.json(b)] answers 200; [res.status(c).json(b)] answers [c]. *)
Definition res_status_json (c : Z) (b : Body) : M Server unit :=
  modify (fun s => {| documents := documents s;
                      response := Some {| status := c; body := b |};
                      calls := calls s |}).

Definition res_json (b : Body) : M Server unit := res_status_json 200 b.

(** [await newFile.save()] *)
Definition save (env : Env) (d : FileDoc) : M Server unit :=
  fun s => match File_save env d with
           | Some e => (Throw e, log (CallSave d) s)
           | None => (Normal tt,
                      {| documents := documents s ++ [d];
                         response := response s;
                         calls := calls s ++ [CallSave d] |})
           end.

Record CreateBody : Type :=
  { fileName : string; fileType : string; chunkCount : Z }.

(** The signing loop of [createMultipartUpload], from index [i] with [n]
    rounds left and the URLs collected so far. *)
Fixpoint sign_parts (env : Env) (Key UploadId : string) (n : nat) (i : Z)
  (urls : list string) : M Server (list string) :=
  match n with
  | O => ret urls
  | S n' =>
      signedUrl <- call CallSignUploadPart (s3_getSignedUrlPromise_uploadPart env)
        {| u_Bucket := AWS_BUCKET_NAME env; u_Key := Key;
           u_UploadId := UploadId; u_Expires := EXPIRATION_HOURS;
           u_PartNumber := i + 1 |} ;;
      sign_parts env Key UploadId n' (i + 1) (urls ++ [signedUrl])
  end.

(** [createMultipartUpload]: the S3 session is opened before the [try]. *)
Definition createMultipartUpload (env : Env) (req : CreateBody) : M Server unit :=
  UploadId <- call CallCreateMultipartUpload (s3_createMultipartUpload env)
    {| c_Bucket := AWS_BUCKET_NAME env; c_Key := fileName req;
       c_ContentType := fileType req |} ;;
  try_catch
    (urls <- sign_parts env (fileName req) UploadId
               (Z.to_nat (chunkCount req)) 0 [] ;;
     res_json (CreatedBody UploadId urls))
    (fun err => res_status_json 500 (ErrorBody (error_message err))).

Record CompleteBody : Type :=
  { c_fileName : string; c_uploadId : option string;
    c_parts : list Part; c_fileSize : Z }.

Definition completeMultipartUpload (env : Env) (req : CompleteBody)
  : M Server unit :=
  let params :=
    {| m_Bucket := AWS_BUCKET_NAME env; m_Key := c_fileName req;
       m_UploadId := c_uploadId req; m_Parts := c_parts req |} in
  try_catch
    (call CallCompleteMultipartUpload (s3_completeMultipartUpload env) params ;;
     downloadUrl <- call CallSignGetObject (s3_getSignedUrl_getObject env)
       {| g_Bucket := AWS_BUCKET_NAME env; g_Key := c_fileName req;
          g_Expires := EXPIRATION_HOURS |} ;;
     save env {| file_name := c_fileName req; file_size := c_fileSize req;
                 s3Key := c_fileName req; uploadDate := Date_now env |} ;;
     res_json (CompletedBody "File uploaded successfully!" downloadUrl))
    (fun err => res_status_json 500 (ErrorBody (error_message err))).

(** A server that has just received a request: nothing written on [res]. *)
Definition serving (docs : list FileDoc) : Server :=
  {| documents := docs; response := None; calls := [] |}.

End FileController.

(** ** The file listing (server side) *)

Module FileListing.

Local Open Scope js_scope.

Module FC := FileController.

(** One element of the array [getUploadedFiles] answers with: the stored
    document spread out, and its fresh [downloadUrl]. *)
Record Listed : Type := { doc : FC.FileDoc; downloadUrl : string }.

Inductive Reply : Type :=
| FilesReply (files : list Listed)
| ErrorReply (error : string).

Record Response : Type := { status : Z; body : Reply }.

(** The server as [getUploadedFiles] sees it. *)
Record Server : Type :=
  { documents : list FC.FileDoc;
    response : option Response;
    calls : list FC.Call }.

Definition serving (docs : list FC.FileDoc) : Server :=
  {| documents := docs; response := None; calls := [] |}.

Definition res_status_json (c : Z) (b : Reply) : M Server unit :=
  modify (fun s => {| documents := documents s;
                      response := Some {| status := c; body := b |};
                      calls := calls s |}).

Definition res_json (b : Reply) : M Server unit := res_status_json 200 b.

(** [.sort({ uploadDate: -1 })]: most recent first.  The order MongoDB gives
    to documents with equal dates is not specified; here a document is put
    after the ones that are at least as recent. *)
Fixpoint insert_by_date (d : FC.FileDoc) (l : list FC.FileDoc) : list FC.FileDoc :=
  match l with
  | [] => [d]
  | x :: rest =>
      if FC.uploadDate x <? FC.uploadDate d then d :: x :: rest
      else x :: insert_by_date d rest
  end.

Definition sort_by_date_desc (l : list FC.FileDoc) : list FC.FileDoc :=
  fold_left (fun acc d => insert_by_date d acc) l [].

(** [await File.find().sort({ uploadDate: -1 })]: the query fails with
    [find_error], or yields every stored document, sorted. *)
Definition File_find_sorted (find_error : option JsError)
  : M Server (list FC.FileDoc) :=
  fun s => match find_error with
           | Some e => (Throw e, s)
           | None => (Normal (sort_by_date_desc (documents s)), s)
           end.

(** [s3.getSignedUrl('getObject', ...)], which throws when signing fails. *)
Definition getSignedUrl_getObject (env : FC.Env) (p : FC.GetObjectParams)
  : M Server string :=
  fun s =>
    let s' := {| documents := documents s; response := response s;
                 calls := calls s ++ [FC.CallSignGetObject p] |} in
    match FC.s3_getSignedUrl_getObject env p with
    | inl e => (Throw e, s')
    | inr url => (Normal url, s')
    end.

(** [files.map(file => ...)], element by element from the left. *)
Fixpoint with_download_urls (env : FC.Env) (files : list FC.FileDoc)
  : M Server (list Listed) :=
  match files with
  | [] => ret []
  | file :: rest =>
      url <- getSignedUrl_getObject env
        {| FC.g_Bucket := FC.AWS_BUCKET_NAME env; FC.g_Key := FC.s3Key file;
           FC.g_Expires := FC.EXPIRATION_HOURS |} ;;
      others <- with_download_urls env rest ;;
      ret ({| doc := file; downloadUrl := url |} :: others)
  end.

Definition getUploadedFiles (env : FC.Env) (find_error : option JsError)
  : M Server unit :=
  try_catch
    (files <- File_find_sorted find_error ;;
     filesWithDownloadUrls <- with_download_urls env files ;;
     res_json (FilesReply filesWithDownloadUrls))
    (fun err => res_status_json 500 (ErrorReply "Failed to retrieve files")).

End FileListing.

(** ** The FileList component (browser side) *)

Module FileList.

Local Open Scope js_scope.

(** One element of the array the listing request answers with. *)
Record Entry : Type :=
  { _id : string; file_name : string; file_size : Z; s3Key : string;
    uploadDate : Z; downloadUrl : string }.

(** What [fetch(API_ENDPOINT + '/files')] gives: a rejection, or a response
    with its [ok] flag whose [json()] yields the array or throws. *)
Inductive FetchOutcome : Type :=
| FetchReject (e : JsError)
| FetchResponse (ok : bool) (json : JsError + list Entry).

Record State : Type :=
  { files : list Entry; loading : bool; error : option string }.

(** The initial values of the three [useState] hooks. *)
Definition mounted : State := {| files := []; loading := true; error := None |}.

Definition setFiles (v : list Entry) : M State unit :=
  modify (fun s => {| files := v; loading := loading s; error := error s |}).
Definition setLoading (v : bool) : M State unit :=
  modify (fun s => {| files := files s; loading := v; error := error s |}).
Definition setError (v : option string) : M State unit :=
  modify (fun s => {| files := files s; loading := loading s; error := v |}).

Definition fetch_failed : JsError := Error "Failed to fetch files".

Definition fetchFiles (o : FetchOutcome) : M State unit :=
  try_catch
    (response <- match o with
                 | FetchReject e => throw e
                 | FetchResponse ok json => ret (ok, json)
                 end ;;
     let '(ok, json) := response in
     (if negb ok then throw fetch_failed else ret tt) ;;
     data <- match json with
             | inl e => throw e
             | inr data => ret data
             end ;;
     setFiles data ;;
     setLoading false)
    (fun err =>
       setError (Some (error_message err)) ;;
       setLoading false).

(** [handleUploadComplete], the callback handed to the Upload component. *)
Definition handleUploadComplete (o : FetchOutcome) : M State unit := fetchFiles o.

(** [x.toFixed(2)] for a rational [x] below 10^21 in absolute value: the
    integer [n] for which [n / 100] is closest to [|x|] (the larger one on a
    tie), written with at least three digits, a point before the last two,
    and a minus sign when [x] is negative. *)
Definition hundredths (x : Q) : Z := Qfloor (Qabs x * 100 + (1 # 2)).

Definition pad3 (digits : string) : string :=
  match String.length digits with
  | 0%nat => "000" ++ digits
  | 1%nat => "00" ++ digits
  | 2%nat => "0" ++ digits
  | _ => digits
  end%string.

Definition toFixed2 (x : Q) : string :=
  let m := pad3 (Number_toString (hundredths x)) in
  let k := String.length m in
  ((if Qlt_le_dec x 0 then "-" else "")
     ++ substring 0 (k - 2) m ++ "." ++ substring (k - 2) 2 m)%string.

(** [(file.file_size / (1024 * 1024)).toFixed(2)]; dividing an integer below
    2^53 by 2^20 is exact in doubles. *)
Definition size_cell (e : Entry) : string :=
  toFixed2 (inject_Z (file_size e) / inject_Z (1024 * 1024)).

(** A row of the table.  The date cell is [toLocaleString] of [uploadDate],
    which depends on the locale: the row keeps the timestamp. *)
Record Row : Type :=
  { key : string; name_cell : string; size_text : string;
    date_of : Z; href : string }.

Definition row (e : Entry) : Row :=
  {| key := _id e; name_cell := file_name e; size_text := size_cell e;
     date_of := uploadDate e; href := downloadUrl e |}.

(** What the component renders: the loading paragraph, the error paragraph,
    or the Upload component with either the empty notice ([None]) or the
    table. *)
Inductive View : Type :=
| LoadingView
| ErrorView (message : string)
| ListView (table : option (list Row)).

(** [if (error)]: [null] and the empty string are falsy. *)
Definition truthy (e : option string) : bool :=
  match e with
  | Some m => negb (String.eqb m "")
  | None => false
  end.

Definition render (s : State) : View :=
  if loading s then LoadingView
  else if truthy (error s)
       then ErrorView (match error s with Some m => m | None => "" end)
       else match files s with
            | [] => ListView None
            | _ => ListView (Some (map row (files s)))
            end.

End FileList.

(** * Vocabulary of the properties

    States, traces and sample environments that the statements below speak
    about. *)

Import Upload.
Local Open Scope list_scope.

(** The state after some attempts that stored nothing: [io] appended to the
    trace and [n] more PUTs counted. *)
Definition advance (io : list Event) (n : nat) (s : State) : State :=
  {| file := file s; progress := progress s; message := message s;
     fileInput_value := fileInput_value s; parts := parts s;
     totalUploadedBytes := totalUploadedBytes s;
     puts_sent := (puts_sent s + n)%nat;
     trace := trace s ++ io |}.

(** The events an attempt at [chunk] can add to the trace. *)
Definition is_attempt (chunk : Blob) (e : Event) : Prop :=
  match e with
  | EvPut _ c => c = chunk
  | EvDelay _ => True
  | _ => False
  end.

(** What holds between two iterations of the loop of [uploadChunks], when
    [k] chunks have been stored. *)
Record Collected (env : Env) (f : File) (k : nat) (s : State) : Prop :=
  { col_parts : map PartNumber (parts s) = map Z.of_nat (seq 1 k);
    col_total :
      totalUploadedBytes s = Z.min (size f) (Z.of_nat k * CHUNK_SIZE);
    col_values :
      progress_values (trace s) = 0 :: 0 :: map (percent_after f) (seq 1 k);
    col_progress : progress s = Some (last (progress_values (trace s)) 0);
    col_effect :
      progress s = Some 100 -> file s = None /\ fileInput_value s = "";
    col_creates : create_requests (trace s) = [create_request env f];
    col_completes : complete_requests (trace s) = [];
    col_puts :
      Forall (fun c => exists i, 0 <= i < chunkCount f /\ c = chunk_at f i)
        (put_requests (trace s));
    col_message : message s = "" }.

(** The state the callback of chunk [i] leaves when it is given a tag. *)
Definition stored (f : File) (i : Z) (chunk : Blob) (tag : string) (t : State)
  : State :=
  let uploaded := totalUploadedBytes t + Blob_size chunk in
  let percentCompleted :=
    Math_round
      (Number_mul (Number_div (inject_Z uploaded) (inject_Z (size f))) 100) in
  progress_effect
    (with_progress (Some percentCompleted)
       (emit (EvSetProgress percentCompleted)
          (with_totalUploadedBytes uploaded
             (with_parts
                (parts t ++ [{| PartNumber := i + 1; ETag := strip_quotes tag |}])
                t)))).

(** The state when the loop of [uploadChunks] is entered: the file is
    selected, [handleUpload] and [uploadChunks] have each set progress to 0
    and the create request has been answered. *)
Definition started (env : Env) (f : File) : State :=
  {| file := Some f; progress := Some 0; message := "";
     fileInput_value := name f; parts := []; totalUploadedBytes := 0;
     puts_sent := 0%nat;
     trace := [EvSetProgress 0; EvCreateMultipart (create_request env f);
               EvSetProgress 0] |}.

(** The state in which a run ends when the create request fails. *)
Definition create_failed (env : Env) (f : File) : State :=
  {| file := Some f; progress := Some 0; message := failure_message;
     fileInput_value := name f; parts := []; totalUploadedBytes := 0;
     puts_sent := 0%nat;
     trace := [EvSetProgress 0; EvCreateMultipart (create_request env f)] |}.

(** How a run can end.  [t] is the state in which the loop stopped. *)
Inductive Ended (env : Env) (f : File) (s : State) : Prop :=
| AtCreate (e : JsError) :
    create_multipart env (create_request env f) = CreateReject e ->
    s = create_failed env f ->
    Ended env f s
| AtChunk (j : nat) (t : State) :
    Z.of_nat j < chunkCount f ->
    Collected env f j t ->
    s = with_message failure_message t ->
    Ended env f s
| AtComplete (t : State) (uploadId : option string) (e : JsError) :
    Collected env f (Z.to_nat (chunkCount f)) t ->
    complete_multipart env (complete_request env f uploadId (parts t))
      = CompleteReject e ->
    s = with_message failure_message
          (emit (EvCompleteMultipart (complete_request env f uploadId (parts t))) t) ->
    Ended env f s
| Finished (t : State) (uploadId : option string) (ok : bool) :
    Collected env f (Z.to_nat (chunkCount f)) t ->
    complete_multipart env (complete_request env f uploadId (parts t))
      = CompleteResponse ok ->
    s = with_message success_message
          (emit EvUploadComplete
             (emit (EvCompleteMultipart (complete_request env f uploadId (parts t))) t)) ->
    Ended env f s.

(** A 12 MiB file, a well-behaved environment whose ETags come quoted, and
    variations of it. *)
Definition sample_file : File :=
  {| name := "report.pdf"; size := 12 * 1024 * 1024; type := "application/pdf" |}.

(** A file that fits in one chunk, and an empty one. *)
Definition one_byte_file : File :=
  {| name := "x"; size := 1; type := "text/plain" |}.

Definition empty_file : File :=
  {| name := "empty.txt"; size := 0; type := "text/plain" |}.

(** An ETag as S3 sends it, between double quotes. *)
Definition quoted (tag : string) : string :=
  String dquote (tag ++ String dquote EmptyString)%string.

Definition smooth_env : Env :=
  {| Date_now := 1700000000000;
     create_multipart := fun _ => CreateJson (Some "upload-1") (Some ["u1"; "u2"; "u3"]);
     complete_multipart := fun _ => CompleteResponse true;
     put_chunk := fun _ _ _ => PutResponse true "OK" (Some (quoted "abc")) |}.

(** As [smooth_env], but the PUTs numbered [from], ..., [from + count - 1]
    are answered by [bad]. *)
Definition disturbed_env (from count : nat) (bad : PutOutcome) : Env :=
  {| Date_now := Date_now smooth_env;
     create_multipart := create_multipart smooth_env;
     complete_multipart := complete_multipart smooth_env;
     put_chunk := fun n url chunk =>
       if ((from <=? n) && (n <? from + count))%nat then bad
       else put_chunk smooth_env n url chunk |}.

(** As [smooth_env], but the complete request is answered with an error
    status. *)
Definition refused_finalization_env : Env :=
  {| Date_now := Date_now smooth_env;
     create_multipart := create_multipart smooth_env;
     complete_multipart := fun _ => CompleteResponse false;
     put_chunk := put_chunk smooth_env |}.

(** As [smooth_env], but the complete request is rejected. *)
Definition unfinalized_env : Env :=
  {| Date_now := Date_now smooth_env;
     create_multipart := create_multipart smooth_env;
     complete_multipart := fun _ => CompleteReject (TypeError "Failed to fetch");
     put_chunk := put_chunk smooth_env |}.

(** A 200 MiB file (forty chunks), a file one byte longer than a chunk, and
    an environment as [smooth_env] that answers the create request with as
    many URLs as chunks were asked for. *)
Definition large_file : File :=
  {| name := "video.mp4"; size := 200 * 1024 * 1024; type := "video/mp4" |}.

Definition two_chunk_file : File :=
  {| name := "notes.txt"; size := CHUNK_SIZE + 1; type := "text/plain" |}.





(** The reading of C8's first part: once the complete request has been
    answered with success, the message is the success message, the file
    state is cleared and the controls accept a new file. *)
Definition resets_after_success (env : Env) (f : File) : Prop :=
  (exists body,
     In body (complete_requests (trace (final env f))) /\
     complete_multipart env body = CompleteResponse true) ->
  message (final env f) = success_message /\
  file (final env f) = None /\
  controls_disabled (final env f) = false.

(** The trace of a chunk whose five attempts are all refused: five PUTs
    separated by waits of 20, 40, 60 and 80 seconds. *)
Definition backoff_trace (url : option string) (chunk : Blob) : list Event :=
  [EvPut url chunk; EvDelay 20000;
   EvPut url chunk; EvDelay 40000;
   EvPut url chunk; EvDelay 60000;
   EvPut url chunk; EvDelay 80000;
   EvPut url chunk].

Module FC := FileController.

(** The parameters with which part [k] is signed, and the signing result. *)
Definition part_params (env : FC.Env) (Key UploadId : string) (k : Z)
  : FC.UploadPartParams :=
  {| FC.u_Bucket := FC.AWS_BUCKET_NAME env; FC.u_Key := Key;
     FC.u_UploadId := UploadId; FC.u_Expires := FC.EXPIRATION_HOURS;
     FC.u_PartNumber := k |}.

Definition signed (env : FC.Env) (Key UploadId : string) (k : Z)
  : JsError + string :=
  FC.s3_getSignedUrlPromise_uploadPart env (part_params env Key UploadId k).

(** The parameters the two handlers pass to S3. *)
Definition create_params (env : FC.Env) (req : FC.CreateBody) : FC.CreateParams :=
  {| FC.c_Bucket := FC.AWS_BUCKET_NAME env; FC.c_Key := FC.fileName req;
     FC.c_ContentType := FC.fileType req |}.

Definition complete_params (env : FC.Env) (req : FC.CompleteBody)
  : FC.CompleteParams :=
  {| FC.m_Bucket := FC.AWS_BUCKET_NAME env; FC.m_Key := FC.c_fileName req;
     FC.m_UploadId := FC.c_uploadId req; FC.m_Parts := FC.c_parts req |}.

(** The signing requests and the saved documents in a log of calls. *)
Definition sign_calls (l : list FC.Call) : list FC.UploadPartParams :=
  flat_map (fun c => match c with FC.CallSignUploadPart p => [p] | _ => [] end) l.

Definition saves (l : list FC.Call) : list FC.FileDoc :=
  flat_map (fun c => match c with FC.CallSave d => [d] | _ => [] end) l.

(** Part numbers strictly increasing, starting above [prev]. *)
Fixpoint ascending_parts (prev : Z) (l : list FC.Part) : bool :=
  match l with
  | [] => true
  | p :: rest => (prev <? FC.PartNumber p) && ascending_parts (FC.PartNumber p) rest
  end.

(** An S3 that signs everything and, like the real service, refuses a part
    list that is not in ascending order. *)
Definition sample_s3 : FC.Env :=
  {| FC.AWS_BUCKET_NAME := "bucket";
     FC.s3_createMultipartUpload := fun _ => inr "upload-1";
     FC.s3_getSignedUrlPromise_uploadPart := fun p =>
       inr ("https://bucket/" ++ FC.u_Key p ++ "?partNumber="
              ++ Number_toString (FC.u_PartNumber p))%string;
     FC.s3_completeMultipartUpload := fun p =>
       if ascending_parts 0 (FC.m_Parts p) then inr tt
       else inl (Error "InvalidPartOrder");
     FC.s3_getSignedUrl_getObject := fun p =>
       inr ("https://bucket/" ++ FC.g_Key p)%string;
     FC.File_save := fun _ => None;
     FC.Date_now := 1700000000000 |}.

(** The same, with an S3 that cannot open sessions. *)
Definition unreachable_s3 : FC.Env :=
  {| FC.AWS_BUCKET_NAME := "bucket";
     FC.s3_createMultipartUpload := fun _ => inl (Error "NetworkingError");
     FC.s3_getSignedUrlPromise_uploadPart := FC.s3_getSignedUrlPromise_uploadPart sample_s3;
     FC.s3_completeMultipartUpload := FC.s3_completeMultipartUpload sample_s3;
     FC.s3_getSignedUrl_getObject := FC.s3_getSignedUrl_getObject sample_s3;
     FC.File_save := FC.File_save sample_s3;
     FC.Date_now := FC.Date_now sample_s3 |}.

(** Request bodies: a session of three chunks, and two part lists. *)
Definition sample_create : FC.CreateBody :=
  {| FC.fileName := "17_report.pdf"; FC.fileType := "application/pdf";
     FC.chunkCount := 3 |}.

Definition out_of_order : FC.CompleteBody :=
  {| FC.c_fileName := "17_report.pdf"; FC.c_uploadId := Some "upload-1";
     FC.c_parts := [ {| FC.PartNumber := 2; FC.ETag := "b" |};
                     {| FC.PartNumber := 1; FC.ETag := "a" |} ];
     FC.c_fileSize := 6000000 |}.

Definition in_order : FC.CompleteBody :=
  {| FC.c_fileName := "17_report.pdf"; FC.c_uploadId := Some "upload-1";
     FC.c_parts := [ {| FC.PartNumber := 1; FC.ETag := "a" |};
                     {| FC.PartNumber := 2; FC.ETag := "b" |} ];
     FC.c_fileSize := 6000000 |}.

(** As [smooth_env], but the create request fails. *)
Definition failing_create_env : Env :=
  {| Date_now := Date_now smooth_env;
     create_multipart := fun _ => CreateReject (TypeError "Failed to fetch");
     complete_multipart := complete_multipart smooth_env;
     put_chunk := put_chunk smooth_env |}.

(** The PUT requests of a trace with their destinations. *)
Definition put_events (tr : list Event) : list (option string * Blob) :=
  flat_map (fun e => match e with EvPut u c => [(u, c)] | _ => [] end) tr.

(** Whether [onUploadComplete] was called. *)
Definition upload_completes (tr : list Event) : list unit :=
  flat_map (fun e => match e with EvUploadComplete => [tt] | _ => [] end) tr.

(** The trace of [k] attempts at one chunk, the first made with attempt
    count [retry]: [k] PUTs with a wait of [retry * 20] seconds, then
    [(retry + 1) * 20] seconds, ... between them. *)
Fixpoint attempt_trace (url : option string) (chunk : Blob) (retry : Z) (k : nat)
  : list Event :=
  match k with
  | O => []
  | S k' =>
      EvPut url chunk ::
      match k' with
      | O => []
      | S _ => EvDelay (retry * 20 * 1000) :: attempt_trace url chunk (retry + 1) k'
      end
  end.

(** The waits of a chunk that took [m] attempts: 20 s, 40 s, ... *)
Definition backoffs (m : nat) : list Z :=
  map (fun j => Z.of_nat j * 20 * 1000) (seq 1 (m - 1)).

(** The PUTs of a loop in which chunk [i], [i + 1], ... took [ms] attempts. *)
Fixpoint puts_from (f : File) (urls : list string) (i : nat) (ms : list nat)
  : list (option string * Blob) :=
  match ms with
  | [] => []
  | m :: rest =>
      repeat (nth_error urls i, chunk_at f (Z.of_nat i)) m
      ++ puts_from f urls (S i) rest
  end.

Definition Zsum (l : list Z) : Z := fold_right Z.add 0 l.

(** A string without a double quote. *)
Definition quote_free (s : string) : Prop :=
  ~ In dquote (list_ascii_of_string s).

(** The states between two iterations of the loop of [uploadChunks] when the
    create request was answered with [urls]: [ms] lists, for each chunk
    stored so far, the number of attempts it took. *)
Inductive Reached (env : Env) (f : File) (urls : list string)
  : list nat -> State -> Prop :=
| ReachedStart : Reached env f urls [] (started env f)
| ReachedNext (ms : list nat) (t : State) (m : nat) (st tag : string) :
    Reached env f urls ms t ->
    (1 <= m <= 5)%nat ->
    put_chunk env (puts_sent t + m - 1)
      (nth_error urls (List.length ms)) (chunk_at f (Z.of_nat (List.length ms)))
      = PutResponse true st (Some tag) ->
    Reached env f urls (ms ++ [m])
      (stored f (Z.of_nat (List.length ms)) (chunk_at f (Z.of_nat (List.length ms))) tag
         (advance (attempt_trace (nth_error urls (List.length ms))
                     (chunk_at f (Z.of_nat (List.length ms))) 1 m)
            m t)).

(** The URL list the create request of a run is answered with (none when it
    fails or the answer has no [preSignedUrls]). *)
Definition urls_of (env : Env) (f : File) : list string :=
  match create_multipart env (create_request env f) with
  | CreateJson _ (Some urls) => urls
  | _ => []
  end.

(** The PUTs and waits of a chunk that used up its five attempts. *)
Definition exhausted (f : File) (urls : list string) (j : nat) (t : State) : State :=
  advance (attempt_trace (nth_error urls j) (chunk_at f (Z.of_nat j)) 1 5) 5 t.

(** How a run ends, with its log: the create request fails; its answer has
    no URL list and the first chunk cannot be addressed; a chunk uses up its
    attempts; or every chunk is stored and the complete request is rejected
    or answered. *)
Inductive Logged (env : Env) (f : File) (s : State) : Prop :=
| LoggedCreateFailed (e : JsError) :
    create_multipart env (create_request env f) = CreateReject e ->
    s = create_failed env f ->
    Logged env f s
| LoggedNoUrls (uploadId : option string) :
    create_multipart env (create_request env f) = CreateJson uploadId None ->
    0 < chunkCount f ->
    s = with_message failure_message (started env f) ->
    Logged env f s
| LoggedChunkFailed (ms : list nat) (t : State) :
    (List.length ms < Z.to_nat (chunkCount f))%nat ->
    Reached env f (urls_of env f) ms t ->
    s = with_message failure_message
          (exhausted f (urls_of env f) (List.length ms) t) ->
    Logged env f s
| LoggedCompleteFailed (uploadId : option string) (urls : option (list string))
    (ms : list nat) (t : State) (e : JsError) :
    create_multipart env (create_request env f) = CreateJson uploadId urls ->
    List.length ms = Z.to_nat (chunkCount f) ->
    Reached env f (urls_of env f) ms t ->
    complete_multipart env (complete_request env f uploadId (parts t))
      = CompleteReject e ->
    s = with_message failure_message
          (emit (EvCompleteMultipart (complete_request env f uploadId (parts t))) t) ->
    Logged env f s
| LoggedFinished (uploadId : option string) (urls : option (list string))
    (ms : list nat) (t : State) (ok : bool) :
    create_multipart env (create_request env f) = CreateJson uploadId urls ->
    List.length ms = Z.to_nat (chunkCount f) ->
    Reached env f (urls_of env f) ms t ->
    complete_multipart env (complete_request env f uploadId (parts t))
      = CompleteResponse ok ->
    s = with_message success_message
          (emit EvUploadComplete
             (emit (EvCompleteMultipart (complete_request env f uploadId (parts t))) t)) ->
    Logged env f s.

(** The listing: the parameters a document's download URL is signed with,
    the URL S3 gives for them, the element listed for a document, and the
    order of the listing. *)
Definition get_params (env : FC.Env) (d : FC.FileDoc) : FC.GetObjectParams :=
  {| FC.g_Bucket := FC.AWS_BUCKET_NAME env; FC.g_Key := FC.s3Key d;
     FC.g_Expires := FC.EXPIRATION_HOURS |}.

Definition download_url (env : FC.Env) (d : FC.FileDoc) : string :=
  match FC.s3_getSignedUrl_getObject env (get_params env d) with
  | inr url => url
  | inl _ => ""
  end.

Definition listed (env : FC.Env) (d : FC.FileDoc) : FileListing.Listed :=
  {| FileListing.doc := d; FileListing.downloadUrl := download_url env d |}.

Definition not_older (a b : FC.FileDoc) : Prop :=
  FC.uploadDate b <= FC.uploadDate a.

(** What a listing fetch delivers: the array, when the response is ok and
    its body parses; otherwise the message of the error that is caught. *)
Definition fetch_ok (o : FileList.FetchOutcome) : option (list FileList.Entry) :=
  match o with
  | FileList.FetchResponse true (inr data) => Some data
  | _ => None
  end.

Definition fetch_error_message (o : FileList.FetchOutcome) : string :=
  match o with
  | FileList.FetchReject e => error_message e
  | FileList.FetchResponse false _ => "Failed to fetch files"
  | FileList.FetchResponse true (inl e) => error_message e
  | FileList.FetchResponse true (inr _) => ""
  end.

(** Several fetches of the listing, one after the other. *)
Definition fetchFiles_all (os : list FileList.FetchOutcome) (s : FileList.State)
  : FileList.State :=
  fold_left (fun acc o => snd (FileList.fetchFiles o acc)) os s.

(** A sample store and listing. *)
Definition older_doc : FC.FileDoc :=
  {| FC.file_name := "1_a.txt"; FC.file_size := 10; FC.s3Key := "1_a.txt";
     FC.uploadDate := 1600000000000 |}.

Definition newer_doc : FC.FileDoc :=
  {| FC.file_name := "2_b.txt"; FC.file_size := 20; FC.s3Key := "2_b.txt";
     FC.uploadDate := 1650000000000 |}.

(** An S3 that opens sessions and then fails to sign the third part. *)
Definition third_part_unsigned_s3 : FC.Env :=
  {| FC.AWS_BUCKET_NAME := "bucket";
     FC.s3_createMultipartUpload := FC.s3_createMultipartUpload sample_s3;
     FC.s3_getSignedUrlPromise_uploadPart := fun p =>
       if FC.u_PartNumber p =? 3 then inl (Error "CredentialsError")
       else FC.s3_getSignedUrlPromise_uploadPart sample_s3 p;
     FC.s3_completeMultipartUpload := FC.s3_completeMultipartUpload sample_s3;
     FC.s3_getSignedUrl_getObject := FC.s3_getSignedUrl_getObject sample_s3;
     FC.File_save := FC.File_save sample_s3;
     FC.Date_now := FC.Date_now sample_s3 |}.

(** A metadata store that refuses to save. *)
Definition unsaved_s3 : FC.Env :=
  {| FC.AWS_BUCKET_NAME := "bucket";
     FC.s3_createMultipartUpload := FC.s3_createMultipartUpload sample_s3;
     FC.s3_getSignedUrlPromise_uploadPart := FC.s3_getSignedUrlPromise_uploadPart sample_s3;
     FC.s3_completeMultipartUpload := FC.s3_completeMultipartUpload sample_s3;
     FC.s3_getSignedUrl_getObject := FC.s3_getSignedUrl_getObject sample_s3;
     FC.File_save := fun _ => Some (Error "MongoNetworkError");
     FC.Date_now := FC.Date_now sample_s3 |}.

(** As [smooth_env], but the create request is answered with an error body,
    which has neither [uploadId] nor [preSignedUrls]. *)
Definition error_body_env : Env :=
  {| Date_now := Date_now smooth_env;
     create_multipart := fun _ => CreateJson None None;
     complete_multipart := fun _ => CompleteResponse false;
     put_chunk := put_chunk smooth_env |}.

(** The same computation with the Standard Library's specification of IEEE
    arithmetic at precision 53 and maximal exponent 1024, against which
    [binary64] is checked on the sample files. *)
Definition double_of_Z (n : Z) : SpecFloat.spec_float :=
  SpecFloat.binary_normalize 53 1024 n 0 false.

Definition double_value (x : SpecFloat.spec_float) : Q :=
  match x with
  | SpecFloat.S754_finite s m e =>
      ((if s then - (1) else 1) * inject_Z (Zpos m) * two_to e)%Q
  | _ => 0%Q
  end.

Definition reference_percent (f : File) (uploaded : Z) : Z :=
  Math_round
    (double_value
       (SpecFloat.SFmul 53 1024
          (SpecFloat.SFdiv 53 1024 (double_of_Z uploaded) (double_of_Z (size f)))
          (double_of_Z 100))).

Definition agrees_with_reference (f : File) : bool :=
  forallb (fun k => let uploaded := Z.min (size f) (Z.of_nat k * CHUNK_SIZE) in
                    percent_of f uploaded =? reference_percent f uploaded)
    (seq 0 (S (Z.to_nat (chunkCount f)))).

(** The text of a number of hundredths as [toFixed2] lays it out, a point
    before the last two characters; the character of a decimal digit, the
    two digits of a number below 100, and a digit put in front of a decimal
    numeral. *)
Definition point_before_last_two (m : string) : string :=
  (substring 0 (String.length m - 2) m ++ "."
     ++ substring (String.length m - 2) 2 m)%string.

Definition digit_char (k : Z) : ascii := ascii_of_nat (48 + Z.to_nat k).

Definition two_digits (r : Z) : string :=
  String (digit_char (r / 10)) (String (digit_char (r mod 10)) EmptyString).

Definition digit_of (k : Z) : Decimal.uint -> Decimal.uint :=
  match k with
  | 0 => Decimal.D0 | 1 => Decimal.D1 | 2 => Decimal.D2 | 3 => Decimal.D3
  | 4 => Decimal.D4 | 5 => Decimal.D5 | 6 => Decimal.D6 | 7 => Decimal.D7
  | 8 => Decimal.D8 | _ => Decimal.D9
  end.

(** * Properties *)


(** ** Arithmetic of the two roundings *)

Section Rounding.

Lemma Math_ceil_div (a b : Z) :
  0 < b -> Math_ceil (inject_Z a / inject_Z b) = - ((- a) / b).
Proof.
  intros Hb. destruct b as [|p|p]; try lia.
  unfold Math_ceil, Qceiling, Qfloor, Qdiv, Qmult, Qinv, Qopp, inject_Z; simpl.
  rewrite Z.mul_1_r. reflexivity.
Qed.

End Rounding.

(** ** Doubles: rounding to the nearest binary64 value *)

Section Binary64.

Local Open Scope Q_scope.

Lemma two_to_pos e : 0 < two_to e.
Proof. apply Qpower_0_lt. reflexivity. Qed.

Lemma two_to_le a b : (a <= b)%Z -> two_to a <= two_to b.
Proof. intros H. apply Qpower_le_compat_l; [assumption|discriminate]. Qed.

Lemma two_to_lt a b : (a < b)%Z -> two_to a < two_to b.
Proof. intros H. apply Qpower_lt_compat_l; [assumption|reflexivity]. Qed.

Lemma two_to_add a b : two_to (a + b) == two_to a * two_to b.
Proof. apply Qpower_plus. discriminate. Qed.

Lemma two_to_Z n : (0 <= n)%Z -> inject_Z (2 ^ n) == two_to n.
Proof. intros H. now apply Zpower_Qpower. Qed.

Lemma log2_two_to n :
  (0 < n)%Z -> two_to (Z.log2 n) <= inject_Z n /\ inject_Z n < two_to (Z.log2 n + 1).
Proof.
  intros H. destruct (Z.log2_spec n H) as [L U].
  pose proof (Z.log2_nonneg n) as N.
  split.
  - rewrite <- two_to_Z by assumption. now rewrite <- Zle_Qle.
  - replace (Z.log2 n + 1)%Z with (Z.succ (Z.log2 n)) by lia.
    rewrite <- two_to_Z by lia. now rewrite <- Zlt_Qlt.
Qed.

Lemma binade_spec q : 0 < q -> two_to (binade q) <= q /\ q < two_to (binade q + 1).
Proof.
  intros Hq. destruct q as [n d].
  assert (Hn : (0 < n)%Z).
  { unfold Qlt in Hq. cbn in Hq. lia. }
  destruct (log2_two_to n Hn) as [Ln Un].
  destruct (log2_two_to (Zpos d) eq_refl) as [Ld Ud].
  unfold binade. cbn [Qnum Qden].
  set (a := Z.log2 n) in *. set (b := Z.log2 (Zpos d)) in *.
  assert (E : n # d == inject_Z n / inject_Z (Zpos d)) by apply Qmake_Qdiv.
  assert (Dp : 0 < inject_Z (Zpos d)) by reflexivity.
  assert (Up : n # d < two_to (a - b + 1)).
  { rewrite E. apply Qlt_shift_div_r; [assumption|].
    apply Qlt_le_trans with (two_to (a + 1)); [assumption|].
    replace (a + 1)%Z with ((a - b + 1) + b)%Z by lia.
    rewrite two_to_add. apply Qmult_le_l; [apply two_to_pos|assumption]. }
  assert (Lo : two_to (a - b - 1) <= n # d).
  { rewrite E. apply Qle_shift_div_l; [assumption|].
    apply Qle_trans with (two_to a); [|assumption].
    replace a with ((a - b - 1) + (b + 1))%Z at 2 by lia.
    rewrite two_to_add. apply Qmult_le_l; [apply two_to_pos|].
    now apply Qlt_le_weak. }
  destruct (Qle_bool (two_to (a - b)) (n # d)) eqn:B.
  - apply Qle_bool_iff in B. split; assumption.
  - assert (B' : ~ two_to (a - b) <= n # d).
    { intros H. apply Qle_bool_iff in H. congruence. }
    apply Qnot_le_lt in B'.
    split; [assumption|].
    now replace (a - b - 1 + 1)%Z with (a - b)%Z by lia.
Qed.

Lemma binade_unique q p :
  two_to p <= q -> q < two_to (p + 1) -> 0 < q -> binade q = p.
Proof.
  intros L U Hq. destruct (binade_spec q Hq) as [L' U'].
  destruct (Z.lt_trichotomy (binade q) p) as [H|[H|H]]; [|assumption|].
  - exfalso. apply (Qlt_irrefl q).
    apply Qlt_le_trans with (two_to (binade q + 1)); [assumption|].
    apply Qle_trans with (two_to p); [apply two_to_le; lia|assumption].
  - exfalso. apply (Qlt_irrefl q).
    apply Qlt_le_trans with (two_to (p + 1)); [assumption|].
    apply Qle_trans with (two_to (binade q)); [apply two_to_le; lia|assumption].
Qed.

Lemma binade_mono q q' : 0 < q -> q <= q' -> (binade q <= binade q')%Z.
Proof.
  intros Hq H.
  assert (Hq' : 0 < q') by (eapply Qlt_le_trans; eassumption).
  destruct (binade_spec q Hq) as [L U]. destruct (binade_spec q' Hq') as [L' U'].
  destruct (Z.le_gt_cases (binade q) (binade q')) as [|G]; [assumption|].
  exfalso. apply (Qlt_irrefl q').
  apply Qlt_le_trans with (two_to (binade q' + 1)); [assumption|].
  apply Qle_trans with (two_to (binade q)); [apply two_to_le; lia|].
  eapply Qle_trans; eassumption.
Qed.

(** Rounding to the nearest integer. *)

Lemma round_half_even_cases x :
  let f := Qfloor x in
  (round_half_even x = f /\ x - inject_Z f <= 1 # 2 /\
   (x - inject_Z f == 1 # 2 -> Z.even f = true)) \/
  (round_half_even x = (f + 1)%Z /\ 1 # 2 <= x - inject_Z f /\
   (x - inject_Z f == 1 # 2 -> Z.even f = false)).
Proof.
  intros f. unfold round_half_even. fold f.
  destruct (Qcompare_spec (x - inject_Z f) (1 # 2)) as [E|L|G].
  - destruct (Z.even f) eqn:Ev.
    + left. split; [reflexivity|]. split; [rewrite E; apply Qle_refl|auto].
    + right. split; [reflexivity|]. split; [rewrite E; apply Qle_refl|auto].
  - left. split; [reflexivity|]. split; [now apply Qlt_le_weak|].
    intros E. rewrite E in L. now apply Qlt_irrefl in L.
  - right. split; [reflexivity|]. split; [now apply Qlt_le_weak|].
    intros E. rewrite E in G. now apply Qlt_irrefl in G.
Qed.

Lemma round_half_even_mono x y : x <= y -> (round_half_even x <= round_half_even y)%Z.
Proof.
  intros H. pose proof (Qfloor_resp_le x y H) as F.
  destruct (round_half_even_cases x) as [(-> & Bx & Tx)|(-> & Bx & Tx)];
    destruct (round_half_even_cases y) as [(-> & By & Ty)|(-> & By & Ty)]; try lia.
  destruct (Z.eq_dec (Qfloor x) (Qfloor y)) as [E|NE]; [|lia].
  exfalso. rewrite <- E in *.
  assert (Hx : x - inject_Z (Qfloor x) == 1 # 2).
  { apply Qle_antisym; [|assumption].
    apply Qle_trans with (y - inject_Z (Qfloor x)); [|assumption].
    apply Qplus_le_l. assumption. }
  assert (Hy : y - inject_Z (Qfloor x) == 1 # 2).
  { apply Qle_antisym; [assumption|].
    apply Qle_trans with (x - inject_Z (Qfloor x)); [assumption|].
    apply Qplus_le_l. assumption. }
  rewrite (Tx Hx) in Ty. specialize (Ty Hy). discriminate.
Qed.

Lemma round_half_even_Z k : round_half_even (inject_Z k) = k.
Proof.
  unfold round_half_even. rewrite Qfloor_Z.
  destruct (Qcompare_spec (inject_Z k - inject_Z k) (1 # 2)) as [E|L|G]; [| reflexivity |].
  - exfalso. assert (Z0 : inject_Z k - inject_Z k == 0) by ring.
    rewrite Z0 in E. discriminate E.
  - exfalso. assert (Z0 : inject_Z k - inject_Z k == 0) by ring.
    rewrite Z0 in G. discriminate G.
Qed.

Lemma round_half_even_error x :
  x - (1 # 2) <= inject_Z (round_half_even x) /\ inject_Z (round_half_even x) <= x + (1 # 2).
Proof.
  pose proof (Qfloor_le x) as Fl. pose proof (Qlt_floor x) as Fu.
  rewrite inject_Z_plus in Fu.
  destruct (round_half_even_cases x) as [(-> & B & _)|(-> & B & _)];
    [|rewrite inject_Z_plus]; change (inject_Z 1) with 1 in *; split; lra.
Qed.

(** Scaling by the unit in the last place puts a positive number between 2^52 and 2^53. *)
Lemma scaled_range q :
  0 < q ->
  let ulp := two_to (binade q - 52) in
  inject_Z (2 ^ 52) <= q / ulp /\ q / ulp <= inject_Z (2 ^ 53).
Proof.
  intros Hq ulp. destruct (binade_spec q Hq) as [L U].
  assert (P : 0 < ulp) by apply two_to_pos.
  assert (E1 : two_to (binade q) == inject_Z (2 ^ 52) * ulp).
  { unfold ulp. rewrite two_to_Z by lia. rewrite <- two_to_add. now replace (52 + (binade q - 52))%Z with (binade q) by lia. }
  assert (E2 : two_to (binade q + 1) == inject_Z (2 ^ 53) * ulp).
  { unfold ulp. rewrite two_to_Z by lia. rewrite <- two_to_add. now replace (53 + (binade q - 52))%Z with (binade q + 1)%Z by lia. }
  split.
  - apply Qle_shift_div_l; [assumption|]. now rewrite <- E1.
  - apply Qle_shift_div_r; [assumption|]. rewrite <- E2. now apply Qlt_le_weak.
Qed.

Lemma nearest_range q :
  0 < q ->
  two_to (binade q) <= nearest q /\ nearest q <= two_to (binade q + 1).
Proof.
  intros Hq. destruct (scaled_range q Hq) as [L U]. cbv zeta in L, U.
  unfold nearest. set (ulp := two_to (binade q - 52)) in *.
  assert (P : 0 < ulp) by apply two_to_pos.
  apply round_half_even_mono in L, U. rewrite round_half_even_Z in L, U.
  assert (E1 : two_to (binade q) == inject_Z (2 ^ 52) * ulp).
  { unfold ulp. rewrite two_to_Z by lia. rewrite <- two_to_add. now replace (52 + (binade q - 52))%Z with (binade q) by lia. }
  assert (E2 : two_to (binade q + 1) == inject_Z (2 ^ 53) * ulp).
  { unfold ulp. rewrite two_to_Z by lia. rewrite <- two_to_add. now replace (53 + (binade q - 52))%Z with (binade q + 1)%Z by lia. }
  rewrite E1, E2. split; apply Qmult_le_compat_r; try (now apply Qlt_le_weak); now rewrite <- Zle_Qle.
Qed.

Lemma nearest_mono q q' : 0 < q -> q <= q' -> nearest q <= nearest q'.
Proof.
  intros Hq H.
  assert (Hq' : 0 < q') by (eapply Qlt_le_trans; eassumption).
  pose proof (binade_mono q q' Hq H) as B.
  destruct (Z.eq_dec (binade q) (binade q')) as [E|NE].
  - unfold nearest. rewrite E. set (ulp := two_to (binade q' - 52)).
    assert (P : 0 < ulp) by apply two_to_pos.
    apply Qmult_le_compat_r; [|now apply Qlt_le_weak].
    rewrite <- Zle_Qle. apply round_half_even_mono.
    apply Qmult_le_compat_r; [assumption|].
    apply Qlt_le_weak. now apply Qinv_lt_0_compat.
  - apply Qle_trans with (two_to (binade q + 1)); [now apply nearest_range|].
    apply Qle_trans with (two_to (binade q')); [apply two_to_le; lia|now apply nearest_range].
Qed.

Lemma nearest_pos q : 0 < q -> 0 < nearest q.
Proof.
  intros Hq. eapply Qlt_le_trans; [apply (two_to_pos (binade q))|now apply nearest_range].
Qed.

Lemma binary64_pos q : 0 < q -> binary64 q = nearest q.
Proof.
  intros Hq. unfold binary64. destruct (Qcompare_spec q 0) as [E|L|G]; [| |reflexivity].
  - rewrite E in Hq. discriminate Hq.
  - exfalso. apply (Qlt_irrefl 0). eapply Qlt_trans; eassumption.
Qed.

Lemma binary64_zero q : q == 0 -> binary64 q = 0.
Proof.
  intros E. unfold binary64. destruct (Qcompare_spec q 0) as [_|L|G]; [reflexivity| |];
    rewrite E in *; discriminate.
Qed.

Lemma binary64_nonneg q : 0 <= q -> 0 <= binary64 q.
Proof.
  intros H. apply Qle_lt_or_eq in H. destruct H as [H|H].
  - rewrite binary64_pos by assumption. apply Qlt_le_weak. now apply nearest_pos.
  - rewrite binary64_zero by now symmetry. apply Qle_refl.
Qed.

Lemma binary64_mono q q' : 0 <= q -> q <= q' -> binary64 q <= binary64 q'.
Proof.
  intros H0 H. apply Qle_lt_or_eq in H0. destruct H0 as [H0|H0].
  - rewrite !binary64_pos; [now apply nearest_mono| |assumption].
    eapply Qlt_le_trans; eassumption.
  - rewrite (binary64_zero q) by now symmetry.
    apply binary64_nonneg. now rewrite H0.
Qed.

Lemma binary64_comp q q' : 0 <= q -> q == q' -> binary64 q == binary64 q'.
Proof.
  intros H0 E.
  assert (H0' : 0 <= q') by now rewrite <- E.
  apply Qle_antisym; apply binary64_mono; try assumption; rewrite E; apply Qle_refl.
Qed.


Lemma Math_round_comp x y : x == y -> Math_round x = Math_round y.
Proof. intros E. unfold Math_round. now rewrite E. Qed.

(** The relative error of one rounding is at most 2^-53. *)
Lemma binary64_error q :
  0 <= q -> Qabs (binary64 q - q) <= q * two_to (-53).
Proof.
  intros H0. apply Qle_lt_or_eq in H0. destruct H0 as [Hq|H0].
  2:{ rewrite (binary64_zero q) by now symmetry. rewrite <- H0.
      apply Qabs_Qle_condition. split; lra. }
  rewrite binary64_pos by assumption. unfold nearest.
  destruct (binade_spec q Hq) as [L _].
  set (ulp := two_to (binade q - 52)).
  assert (P : 0 < ulp) by apply two_to_pos.
  destruct (round_half_even_error (q / ulp)) as [A B].
  set (m := inject_Z (round_half_even (q / ulp))) in *.
  assert (Eq : q == q / ulp * ulp) by (field; lra).
  assert (Hu : ulp * (1 # 2) <= q * two_to (-53)).
  { assert (T : two_to (binade q) * two_to (-53) == ulp * (1 # 2)).
    { unfold ulp. replace (binade q - 52)%Z with (binade q + (-53) + 1)%Z by lia.
      rewrite <- two_to_add, (two_to_add _ 1).
      change (two_to 1) with 2. field. }
    rewrite <- T. apply Qmult_le_compat_r; [assumption|apply Qlt_le_weak, two_to_pos]. }
  apply Qabs_Qle_condition. split.
  - apply Qle_trans with (- (ulp * (1 # 2))); [lra|].
    setoid_replace (m * ulp - q) with ((m - q / ulp) * ulp) by (field; lra).
    setoid_replace (- (ulp * (1 # 2))) with ((- (1 # 2)) * ulp) by ring.
    apply Qmult_le_compat_r; lra.
  - apply Qle_trans with (ulp * (1 # 2)); [|assumption].
    setoid_replace (m * ulp - q) with ((m - q / ulp) * ulp) by (field; lra).
    setoid_replace (ulp * (1 # 2)) with ((1 # 2) * ulp) by ring.
    apply Qmult_le_compat_r; lra.
Qed.


Lemma ratio_nonneg t s : (0 <= t)%Z -> (0 < s)%Z -> 0 <= inject_Z t / inject_Z s.
Proof.
  intros Ht Hs. apply Qle_shift_div_l.
  - now rewrite <- (Zlt_Qlt 0).
  - rewrite Qmult_0_l. now rewrite <- (Zle_Qle 0).
Qed.




Lemma percent_full s :
  (0 < s)%Z ->
  Math_round (Number_mul (Number_div (inject_Z s) (inject_Z s)) 100) = 100%Z.
Proof.
  intros Hs. unfold Number_mul, Number_div.
  assert (P : 0 < inject_Z s) by now rewrite <- (Zlt_Qlt 0).
  assert (E : inject_Z s / inject_Z s == 1) by (field; lra).
  assert (E1 : binary64 (inject_Z s / inject_Z s) == 1).
  { rewrite (binary64_comp _ 1); [reflexivity|rewrite E; discriminate|assumption]. }
  assert (E2 : binary64 (binary64 (inject_Z s / inject_Z s) * 100) == 100).
  { rewrite (binary64_comp _ 100); [reflexivity|rewrite E1; discriminate|rewrite E1; reflexivity]. }
  rewrite (Math_round_comp _ _ E2). reflexivity.
Qed.




Lemma round_half_even_comp x y : x == y -> round_half_even x = round_half_even y.
Proof.
  intros E. apply Z.le_antisymm; apply round_half_even_mono; rewrite E; apply Qle_refl.
Qed.

(** Integers up to 2^53 are doubles. *)
Lemma binary64_Z k : (0 <= k <= 2 ^ 53)%Z -> binary64 (inject_Z k) == inject_Z k.
Proof.
  intros [H0 H1]. destruct (Z.eq_dec k 0) as [->|NZ]; [reflexivity|].
  assert (Hk : 0 < inject_Z k) by (rewrite <- (Zlt_Qlt 0); lia).
  rewrite binary64_pos by assumption. unfold nearest.
  destruct (binade_spec _ Hk) as [L U].
  set (p := binade (inject_Z k)) in *.
  assert (Hp : (p <= 53)%Z).
  { destruct (Z.le_gt_cases p 53) as [|G]; [assumption|]. exfalso.
    apply (Qlt_irrefl (inject_Z k)).
    apply Qle_lt_trans with (inject_Z (2 ^ 53)); [now rewrite <- Zle_Qle|].
    rewrite two_to_Z by lia.
    apply Qlt_le_trans with (two_to p); [apply two_to_lt; lia|assumption]. }
  destruct (Z.eq_dec p 53) as [E53|N53].
  - assert (Ek : k = (2 ^ 53)%Z).
    { apply Z.le_antisymm; [assumption|].
      rewrite Zle_Qle, two_to_Z by lia. now rewrite <- E53. }
    rewrite E53, Ek. reflexivity.
  - set (ulp := two_to (p - 52)).
    assert (P : 0 < ulp) by apply two_to_pos.
    assert (Eu : / ulp == inject_Z (2 ^ (52 - p))).
    { unfold ulp. rewrite two_to_Z by lia. unfold two_to.
      rewrite <- Qpower_opp. now replace (- (p - 52))%Z with (52 - p)%Z by lia. }
    assert (Es : inject_Z k / ulp == inject_Z (k * 2 ^ (52 - p))).
    { unfold Qdiv. rewrite Eu, <- inject_Z_mult. reflexivity. }
    rewrite (round_half_even_comp _ _ Es), round_half_even_Z.
    rewrite inject_Z_mult, <- Eu. field. lra.
Qed.

Lemma Qceiling_unique (x : Q) (k : Z) :
  inject_Z (k - 1) < x -> x <= inject_Z k -> Qceiling x = k.
Proof.
  intros L U. pose proof (Qle_ceiling x) as C. pose proof (Qceiling_lt x) as D.
  assert (A : inject_Z (k - 1) < inject_Z (Qceiling x)) by (eapply Qlt_le_trans; eassumption).
  assert (B : inject_Z (Qceiling x - 1) < inject_Z k) by (eapply Qlt_le_trans; eassumption).
  rewrite <- Zlt_Qlt in A, B. lia.
Qed.

(** The ceiling of the double quotient by 5 MiB is the ceiling of the exact
    quotient, for every size below 2^53. *)
Lemma ceil_double_quotient (s : Z) :
  (0 <= s < 2 ^ 53)%Z ->
  Qceiling (Number_div (inject_Z s) (inject_Z 5242880)) =
  Qceiling (inject_Z s / inject_Z 5242880).
Proof.
  intros [H0 H1]. unfold Number_div.
  set (q := inject_Z s / inject_Z 5242880).
  set (k := Qceiling q).
  pose proof (Qle_ceiling q) as C. pose proof (Qceiling_lt q) as D. fold k in C, D.
  assert (Q0 : 0 <= q) by (apply ratio_nonneg; lia).
  assert (K0 : (0 <= k)%Z).
  { assert (A : inject_Z (-1) < inject_Z k).
    { apply Qlt_le_trans with q; [|assumption]. eapply Qlt_le_trans; [|exact Q0]. reflexivity. }
    rewrite <- Zlt_Qlt in A. lia. }
  assert (Eq : q * inject_Z 5242880 == inject_Z s) by (unfold q; field; discriminate).
  assert (K1 : (k <= 2 ^ 53)%Z).
  { assert (A : inject_Z (k - 1) < inject_Z (2 ^ 53)).
    { apply Qlt_le_trans with q; [assumption|].
      apply Qle_trans with (inject_Z s).
      - rewrite <- Eq. change (inject_Z 5242880) with 5242880. nra.
      - rewrite <- Zle_Qle. lia. }
    rewrite <- Zlt_Qlt in A. lia. }
  apply Qceiling_unique.
  - (* the double does not fall to k - 1 *)
    assert (G : inject_Z ((k - 1) * 5242880 + 1) <= inject_Z s).
    { rewrite <- Zle_Qle.
      assert (A : inject_Z ((k - 1) * 5242880) < inject_Z s).
      { rewrite inject_Z_mult, <- Eq. apply Qmult_lt_compat_r; [reflexivity|assumption]. }
      rewrite <- Zlt_Qlt in A. lia. }
    rewrite inject_Z_plus, inject_Z_mult in G.
    pose proof (binary64_error q Q0) as E. apply Qabs_Qle_condition in E.
    assert (U : two_to (-53) == 1 # 9007199254740992) by reflexivity.
    rewrite U in E.
    assert (S1 : inject_Z s < 9007199254740992).
    { change 9007199254740992 with (inject_Z (2 ^ 53)). rewrite <- Zlt_Qlt. lia. }
    change (inject_Z 5242880) with 5242880 in *. change (inject_Z 1) with 1 in *.
    rewrite <- Eq in G, S1.
    nra.
  - apply Qle_trans with (binary64 (inject_Z k)).
    + now apply binary64_mono.
    + apply Qle_lteq. right. apply binary64_Z. lia.
Qed.

End Binary64.

(** ** Chunking *)

Section Chunking.

Variable f : File.

Lemma chunkCount_bounds :
  (chunkCount f - 1) * CHUNK_SIZE < size f <= chunkCount f * CHUNK_SIZE.
Proof.
  unfold chunkCount. rewrite Math_ceil_div by (unfold CHUNK_SIZE; lia).
  pose proof (Z.div_mod (- size f) CHUNK_SIZE ltac:(unfold CHUNK_SIZE; lia)) as E.
  pose proof (Z.mod_pos_bound (- size f) CHUNK_SIZE ltac:(unfold CHUNK_SIZE; lia)) as B.
  unfold CHUNK_SIZE in *. lia.
Qed.

Lemma chunkCount_nonneg : 0 <= size f -> 0 <= chunkCount f.
Proof. pose proof chunkCount_bounds as B. unfold CHUNK_SIZE in B. lia. Qed.

Lemma chunkCount_zero : size f = 0 -> chunkCount f = 0.
Proof. pose proof chunkCount_bounds as B. unfold CHUNK_SIZE in B. lia. Qed.

Lemma chunkCount_pos : 0 < size f -> 0 < chunkCount f.
Proof. pose proof chunkCount_bounds as B. unfold CHUNK_SIZE in B. lia. Qed.

Lemma chunk_at_range (i : Z) :
  0 <= i < chunkCount f ->
  lo (chunk_at f i) = i * CHUNK_SIZE /\
  hi (chunk_at f i) = Z.min (size f) ((i + 1) * CHUNK_SIZE).
Proof.
  intros Hi. pose proof chunkCount_bounds as B.
  unfold chunk_at, slice, clamp_offset; cbn [lo hi].
  unfold CHUNK_SIZE in *.
  repeat match goal with |- context [?a <? ?b] => destruct (Z.ltb_spec a b) end;
    lia.
Qed.

Lemma chunk_at_size (i : Z) :
  0 <= i < chunkCount f ->
  Blob_size (chunk_at f i) =
  Z.min (size f) ((i + 1) * CHUNK_SIZE) - i * CHUNK_SIZE.
Proof.
  intros Hi. unfold Blob_size. destruct (chunk_at_range i Hi) as [-> ->].
  reflexivity.
Qed.

End Chunking.

(** The progress values of the sample files are those the reference
    arithmetic gives. *)
Lemma binary64_agrees_with_reference :
  forallb agrees_with_reference
    [one_byte_file; sample_file; two_chunk_file; large_file;
     {| name := "a"; size := 1234567891; type := "" |};
     {| name := "b"; size := 400 * 1024 * 1024; type := "" |};
     {| name := "c"; size := 1000 * 1024 * 1024; type := "" |}] = true.
Proof. vm_compute. reflexivity. Qed.

(** X23.  Math.ceil(file.size / CHUNK_SIZE) loses nothing to the rounding of
    the quotient: for every size below 2^53 the ceiling of the double
    quotient is the chunk count, the ceiling of the exact quotient. *)
Theorem chunk_count_in_doubles (f : File) :
  0 <= size f < 2 ^ 53 ->
  Math_ceil (Number_div (inject_Z (size f)) (inject_Z CHUNK_SIZE)) = chunkCount f /\
  (chunkCount f - 1) * CHUNK_SIZE < size f <= chunkCount f * CHUNK_SIZE.
Proof.
  intros H. split; [|apply chunkCount_bounds].
  unfold chunkCount, Math_ceil. now apply ceil_double_quotient.
Qed.

Lemma chunk_count_in_doubles_witness :
  0 <= size sample_file < 2 ^ 53 /\
  Math_ceil (Number_div (inject_Z (size sample_file)) (inject_Z CHUNK_SIZE)) = 3.
Proof.
  assert (H : 0 <= size sample_file < 2 ^ 53) by (cbn; lia).
  split; [exact H|]. rewrite (proj1 (chunk_count_in_doubles sample_file H)).
  vm_compute. reflexivity.
Defined.

(** ** One chunk: attempts, backoff, and what a failed attempt leaves behind *)

Ltac run_monad :=
  unfold bind, ret, throw, try_catch, gets, modify, delay, fetch_put,
    setMessage, setFile in *.

(** One attempt, spelled out on a state: the PUT is logged and counted; a
    rejected fetch, a response that is not ok, or a callback that throws
    leads to [again], which backs off and retries while [retry < MAX_RETRY]
    and rethrows otherwise. *)
Lemma uploadChunkWithFetch_step env url chunk cb retry s :
  uploadChunkWithFetch env url chunk cb retry s =
  let s1 := with_puts_sent (S (puts_sent s)) (emit (EvPut url chunk) s) in
  let again (error : JsError) (s2 : State) :=
    if retry <? MAX_RETRY
    then uploadChunkWithFetch env url chunk cb (retry + 1)
           (emit (EvDelay (retry * 20 * 1000)) s2)
    else (Throw error, s2) in
  match put_chunk env (puts_sent s) url chunk with
  | PutReject e => again e s1
  | PutResponse ok statusText etag =>
      if ok
      then match cb etag s1 with
           | (Normal a, s2) => (Normal a, s2)
           | (Throw e, s2) => again e s2
           end
      else again (chunk_error statusText) s1
  end.
Proof.
  rewrite uploadChunkWithFetch_equation_1. run_monad. cbv zeta.
  destruct (put_chunk env (puts_sent s) url chunk) as [e|ok statusText etag].
  - destruct (Z_lt_dec retry MAX_RETRY) as [L|L];
      destruct (Z.ltb_spec retry MAX_RETRY); try lia; reflexivity.
  - destruct ok; cbn [negb].
    + destruct (cb etag _) as [[a|e] s2]; [reflexivity|].
      destruct (Z_lt_dec retry MAX_RETRY) as [L|L];
        destruct (Z.ltb_spec retry MAX_RETRY); try lia; reflexivity.
    + destruct (Z_lt_dec retry MAX_RETRY) as [L|L];
        destruct (Z.ltb_spec retry MAX_RETRY); try lia; reflexivity.
Qed.

Lemma advance_advance io n io' n' s :
  advance io' n' (advance io n s) = advance (io ++ io') (n + n') s.
Proof.
  unfold advance; cbn. f_equal; [lia | now rewrite app_assoc].
Qed.

(** Whatever the network does, a call for chunk [i] made by [uploadChunks]
    ends in one of two ways: it throws, having only issued PUTs of that chunk
    and backoff delays; or some attempt got an ok response carrying an ETag,
    and the callback ran once, on a state that differs from the initial one
    only by such PUTs and delays. *)
Lemma uploadChunkWithFetch_cases env url f i chunk retry s r s' :
  uploadChunkWithFetch env url chunk (onProgress f i chunk) retry s = (r, s') ->
  exists io n,
    Forall (is_attempt chunk) io /\
    ((exists e, r = Throw e /\ s' = advance io n s) \/
     (exists tag,
        onProgress f i chunk (Some tag) (advance io n s) = (Normal tt, s') /\
        r = Normal tt)).
Proof.
  remember (attempts_left retry) as k eqn:Hk.
  revert retry s Hk. induction k as [|k IH]; intros retry s Hk H;
    rewrite uploadChunkWithFetch_step in H; cbv zeta in H.
  all: set (s1 := with_puts_sent (S (puts_sent s)) (emit (EvPut url chunk) s)) in *.
  all: assert (Es1 : s1 = advance [EvPut url chunk] 1 s)
         by (unfold s1, advance, with_puts_sent, emit; cbn; f_equal; lia).
  all: assert (A1 : Forall (is_attempt chunk) [EvPut url chunk])
         by (repeat constructor).
  - assert (L : (retry <? MAX_RETRY) = false)
      by (apply Z.ltb_ge; unfold attempts_left, MAX_RETRY in *; lia).
    rewrite L in H.
    destruct (put_chunk env (puts_sent s) url chunk) as [e|[|] st [tag|]].
    + inversion H; subst. exists [EvPut url chunk], 1%nat. eauto.
    + cbn in H. run_monad.
      exists [EvPut url chunk], 1%nat. split; [assumption|]. right.
      exists tag. rewrite <- Es1. cbn. inversion H; subst. split; reflexivity.
    + cbn in H. unfold throw in H. inversion H; subst.
      exists [EvPut url chunk], 1%nat. eauto.
    + inversion H; subst. exists [EvPut url chunk], 1%nat. eauto.
    + inversion H; subst. exists [EvPut url chunk], 1%nat. eauto.
  - assert (L : (retry <? MAX_RETRY) = true)
      by (apply Z.ltb_lt; unfold attempts_left, MAX_RETRY in *; lia).
    assert (Hk' : k = attempts_left (retry + 1))
      by (unfold attempts_left, MAX_RETRY in *; lia).
    rewrite L in H.
    assert (Retry :
      uploadChunkWithFetch env url chunk (onProgress f i chunk) (retry + 1)
        (emit (EvDelay (retry * 20 * 1000)) s1) = (r, s') ->
      exists io n, Forall (is_attempt chunk) io /\
        ((exists e, r = Throw e /\ s' = advance io n s) \/
         (exists tag,
            onProgress f i chunk (Some tag) (advance io n s) = (Normal tt, s') /\
            r = Normal tt))).
    { intros H'. replace (emit (EvDelay (retry * 20 * 1000)) s1)
        with (advance [EvPut url chunk; EvDelay (retry * 20 * 1000)] 1 s) in H'
        by (rewrite Es1; unfold advance, emit; cbn;
            f_equal; now rewrite <- app_assoc).
      destruct (IH _ _ Hk' H') as (io & n & Hio & Hcase).
      exists ([EvPut url chunk; EvDelay (retry * 20 * 1000)] ++ io), (1 + n)%nat.
      split.
      - apply Forall_app; split; [repeat constructor | assumption].
      - rewrite advance_advance in Hcase. exact Hcase. }
    destruct (put_chunk env (puts_sent s) url chunk) as [e|[|] st [tag|]];
      try (apply Retry; exact H).
    cbn in H. run_monad. inversion H; subst.
    exists [EvPut url chunk], 1%nat. split; [assumption|]. right.
    exists tag. rewrite <- Es1. cbn. split; reflexivity.
Qed.

(** ** The upload loop *)

Section Trace.

Variable chunk : Blob.

Lemma progress_values_attempts io :
  Forall (is_attempt chunk) io -> progress_values io = [].
Proof.
  induction 1 as [|e l He _ IH]; [reflexivity|].
  destruct e; cbn in *; try contradiction; exact IH.
Qed.

Lemma complete_requests_attempts io :
  Forall (is_attempt chunk) io -> complete_requests io = [].
Proof.
  induction 1 as [|e l He _ IH]; [reflexivity|].
  destruct e; cbn in *; try contradiction; exact IH.
Qed.

Lemma create_requests_attempts io :
  Forall (is_attempt chunk) io -> create_requests io = [].
Proof.
  induction 1 as [|e l He _ IH]; [reflexivity|].
  destruct e; cbn in *; try contradiction; exact IH.
Qed.

Lemma put_requests_attempts io :
  Forall (is_attempt chunk) io -> Forall (eq chunk) (put_requests io).
Proof.
  induction 1 as [|e l He _ IH]; [constructor|].
  destruct e; cbn in *; try contradiction; try exact IH.
  constructor; [now symmetry | exact IH].
Qed.

End Trace.

Lemma collected_advance env f k s i io n :
  Collected env f k s ->
  0 <= i < chunkCount f ->
  Forall (is_attempt (chunk_at f i)) io ->
  Collected env f k (advance io n s).
Proof.
  intros [] Hi Hio. constructor; cbn; try assumption.
  - unfold progress_values in *. rewrite flat_map_app.
    fold (progress_values io). rewrite (progress_values_attempts _ _ Hio).
    now rewrite app_nil_r.
  - unfold progress_values in *. rewrite flat_map_app.
    fold (progress_values io). rewrite (progress_values_attempts _ _ Hio).
    now rewrite app_nil_r.
  - unfold create_requests in *. rewrite flat_map_app.
    fold (create_requests io). rewrite (create_requests_attempts _ _ Hio).
    now rewrite app_nil_r.
  - unfold complete_requests in *. rewrite flat_map_app.
    fold (complete_requests io). rewrite (complete_requests_attempts _ _ Hio).
    now rewrite app_nil_r.
  - unfold put_requests in *. rewrite flat_map_app.
    apply Forall_app; split; [assumption|].
    fold (put_requests io).
    eapply Forall_impl; [|apply (put_requests_attempts _ _ Hio)].
    intros c <-. eauto.
Qed.

Ltac effect_cases :=
  unfold progress_effect;
  match goal with
  | |- context [match progress ?s with _ => _ end] =>
      let E := fresh "E" in
      destruct (progress s) as [?p|] eqn:E;
      [destruct (_ =? 100)|]; cbn; congruence
  end.

Section ProgressEffect.

Variable s : State.

Lemma progress_effect_trace : trace (progress_effect s) = trace s.
Proof. effect_cases. Qed.

Lemma progress_effect_parts : parts (progress_effect s) = parts s.
Proof. effect_cases. Qed.

Lemma progress_effect_total :
  totalUploadedBytes (progress_effect s) = totalUploadedBytes s.
Proof. effect_cases. Qed.

Lemma progress_effect_progress : progress (progress_effect s) = progress s.
Proof. effect_cases. Qed.

Lemma progress_effect_message : message (progress_effect s) = message s.
Proof. effect_cases. Qed.

Lemma progress_effect_clears :
  progress s = Some 100 ->
  file (progress_effect s) = None /\ fileInput_value (progress_effect s) = "".
Proof. unfold progress_effect. intros ->. cbn. split; reflexivity. Qed.

End ProgressEffect.

Lemma onProgress_some f i chunk tag t :
  onProgress f i chunk (Some tag) t = (Normal tt, stored f i chunk tag t).
Proof. reflexivity. Qed.

Lemma uploaded_after f (k : nat) :
  Z.of_nat k < chunkCount f ->
  Z.min (size f) (Z.of_nat k * CHUNK_SIZE) + Blob_size (chunk_at f (Z.of_nat k)) =
  Z.min (size f) (Z.of_nat (S k) * CHUNK_SIZE).
Proof.
  intros Hk. rewrite chunk_at_size by lia.
  pose proof (chunkCount_bounds f) as B. unfold CHUNK_SIZE in *. lia.
Qed.

Lemma collected_stored env f k tag t :
  Z.of_nat k < chunkCount f ->
  Collected env f k t ->
  Collected env f (S k) (stored f (Z.of_nat k) (chunk_at f (Z.of_nat k)) tag t).
Proof.
  intros Hk []. unfold stored. cbv zeta.
  rewrite col_total0, uploaded_after by assumption.
  change (Math_round
            (Number_mul
               (Number_div (inject_Z (Z.min (size f) (Z.of_nat (S k) * CHUNK_SIZE)))
                  (inject_Z (size f))) 100))
    with (percent_after f (S k)).
  set (p := percent_after f (S k)).
  assert (V : progress_values (trace t ++ [EvSetProgress p]) =
              0 :: 0 :: map (percent_after f) (seq 1 (S k))).
  { unfold progress_values in *. rewrite flat_map_app, col_values0. cbn [flat_map app].
    rewrite seq_S, map_app. reflexivity. }
  constructor.
  - rewrite progress_effect_parts. cbn [parts with_progress emit with_totalUploadedBytes with_parts].
    rewrite map_app, col_parts0, seq_S, map_app.
    cbn. do 2 f_equal. lia.
  - rewrite progress_effect_total. reflexivity.
  - rewrite progress_effect_trace. exact V.
  - rewrite progress_effect_progress, progress_effect_trace. cbn [progress trace with_progress emit with_totalUploadedBytes with_parts].
    rewrite V. f_equal. rewrite seq_S, map_app.
    change (0 :: 0 :: map (percent_after f) (seq 1 k) ++ map (percent_after f) [(1 + k)%nat])
      with ((0 :: 0 :: map (percent_after f) (seq 1 k)) ++ [percent_after f (1 + k)]).
    now rewrite last_last.
  - rewrite progress_effect_progress. intros H. apply progress_effect_clears. exact H.
  - rewrite progress_effect_trace. cbn. unfold create_requests in *.
    rewrite flat_map_app, col_creates0. reflexivity.
  - rewrite progress_effect_trace. cbn. unfold complete_requests in *.
    rewrite flat_map_app, col_completes0. reflexivity.
  - rewrite progress_effect_trace. cbn. unfold put_requests in *.
    rewrite flat_map_app. cbn. now rewrite app_nil_r.
  - rewrite progress_effect_message. assumption.
Qed.

Lemma upload_body_cases env f urls k s r s' :
  Collected env f k s ->
  Z.of_nat k < chunkCount f ->
  upload_body env f urls (Z.of_nat k) s = (r, s') ->
  (r = Normal tt /\ Collected env f (S k) s') \/
  (exists e, r = Throw e /\ Collected env f k s').
Proof.
  intros C Hk H. unfold upload_body, url_at in H. cbv zeta in H.
  destruct urls as [urls|]; run_monad.
  - apply uploadChunkWithFetch_cases in H.
    destruct H as (io & n & Hio & [(e & -> & ->)|(tag & H & ->)]).
    + right. exists e. split; [reflexivity|].
      apply collected_advance with (i := Z.of_nat k); [assumption|lia|assumption].
    + left. split; [reflexivity|].
      rewrite onProgress_some in H. inversion H; subst.
      apply collected_stored; [assumption|].
      apply collected_advance with (i := Z.of_nat k); [assumption|lia|assumption].
  - inversion H; subst. right. eauto.
Qed.

Lemma for_loop_cases env f urls m : forall k s r s',
  Collected env f k s ->
  Z.of_nat (k + m) <= chunkCount f ->
  for_loop m (Z.of_nat k) (upload_body env f urls) s = (r, s') ->
  (r = Normal tt /\ Collected env f (k + m) s') \/
  (exists e j, r = Throw e /\ (k <= j < k + m)%nat /\ Collected env f j s').
Proof.
  induction m as [|m IH]; intros k s r s' C Hm H; cbn in H.
  - unfold ret in H. inversion H; subst. left. rewrite Nat.add_0_r. now split.
  - unfold bind in H.
    destruct (upload_body env f urls (Z.of_nat k) s) as [[[]|e] s1] eqn:E.
    + apply upload_body_cases in E; [|assumption|lia].
      destruct E as [[_ C1]|(e & Habs & _)]; [|discriminate].
      replace (Z.of_nat k + 1) with (Z.of_nat (S k)) in H by lia.
      apply IH in H; [|assumption|lia].
      destruct H as [[-> C2]|(e & j & -> & Hj & C2)].
      * left. split; [reflexivity|]. now replace (k + S m)%nat with (S k + m)%nat by lia.
      * right. exists e, j. split; [reflexivity|]. split; [lia|assumption].
    + apply upload_body_cases in E; [|assumption|lia].
      destruct E as [[Habs _]|(e' & _ & C1)]; [discriminate|].
      inversion H; subst. right. exists e, k. split; [reflexivity|]. split; [lia|assumption].
Qed.

(** ** A whole run *)

Lemma beginUpload_unfold env f :
  beginUpload env f =
  match create_multipart env (create_request env f) with
  | CreateReject _ => (Normal tt, create_failed env f)
  | CreateJson uploadId urls =>
      match for_loop (Z.to_nat (chunkCount f)) 0 (upload_body env f urls)
              (started env f) with
      | (Throw _, t) => (Normal tt, with_message failure_message t)
      | (Normal _, t) =>
          let body := complete_request env f uploadId (parts t) in
          match complete_multipart env body with
          | CompleteReject _ =>
              (Normal tt,
               with_message failure_message (emit (EvCompleteMultipart body) t))
          | CompleteResponse _ =>
              (Normal tt,
               with_message success_message
                 (emit EvUploadComplete (emit (EvCompleteMultipart body) t)))
          end
      end
  end.
Proof.
  unfold beginUpload, handleUpload, handleFileChange, uploadChunks,
    fetch_create, fetch_complete, setProgress.
  run_monad. cbn.
  destruct (create_multipart env (create_request env f)) as [e|uploadId urls];
    [reflexivity|].
  change (for_loop (Z.to_nat (chunkCount f)) 0 (upload_body env f urls) _)
    with (for_loop (Z.to_nat (chunkCount f)) 0 (upload_body env f urls)
            (started env f)).
  destruct (for_loop _ _ _ _) as [[[]|e] t]; [|reflexivity].
  cbv zeta.
  destruct (complete_multipart env _); reflexivity.
Qed.

Lemma collected_started env f :
  0 <= size f -> Collected env f 0 (started env f).
Proof.
  intros Hs. constructor; try reflexivity; cbn.
  - lia.
  - discriminate.
  - constructor.
Qed.

Lemma beginUpload_ended env f :
  0 <= size f ->
  fst (beginUpload env f) = Normal tt /\ Ended env f (final env f).
Proof.
  intros Hs. unfold final. rewrite beginUpload_unfold.
  destruct (create_multipart env (create_request env f)) as [e|uploadId urls] eqn:Ec.
  - split; [reflexivity|]. now apply AtCreate with e.
  - destruct (for_loop _ _ _ _) as [r t] eqn:El.
    change 0 with (Z.of_nat 0) in El.
    apply for_loop_cases in El;
      [|now apply collected_started
       |pose proof (chunkCount_nonneg f Hs); lia].
    destruct El as [[-> C]|(e & j & -> & Hj & C)].
    + cbv zeta.
      destruct (complete_multipart env _) as [e|ok] eqn:Ef; (split; [reflexivity|]).
      * now apply AtComplete with t uploadId e.
      * now apply Finished with t uploadId ok.
    + split; [reflexivity|]. apply AtChunk with j t; [lia|assumption|reflexivity].
Qed.

(** ** The token list sent at finalization *)

Lemma seq_ascending (a n : nat) :
  StronglySorted Z.lt (map Z.of_nat (seq a n)).
Proof.
  revert a. induction n as [|n IH]; intros a; cbn; constructor.
  - apply IH.
  - apply Forall_forall. intros z Hz. apply in_map_iff in Hz.
    destruct Hz as (m & <- & Hm). apply in_seq in Hm. lia.
Qed.

Lemma ascending_NoDup (l : list Z) : StronglySorted Z.lt l -> NoDup l.
Proof.
  induction 1 as [|a l _ IH Ha]; constructor; [|assumption].
  intros Hin. rewrite Forall_forall in Ha. specialize (Ha a Hin). lia.
Qed.

Lemma complete_requests_app (l l' : list Event) :
  complete_requests (l ++ l') = complete_requests l ++ complete_requests l'.
Proof. apply flat_map_app. Qed.

Lemma progress_values_app (l l' : list Event) :
  progress_values (l ++ l') = progress_values l ++ progress_values l'.
Proof. apply flat_map_app. Qed.

(** The complete requests of a run: none, or exactly one, sent from the state
    in which all chunks were stored. *)
Lemma ended_complete_requests env f s :
  Ended env f s ->
  complete_requests (trace s) = [] \/
  exists t uploadId,
    Collected env f (Z.to_nat (chunkCount f)) t /\
    complete_requests (trace s) = [complete_request env f uploadId (parts t)].
Proof.
  intros [e Hc ->|j t Hj C ->|t uploadId e C Hf ->|t uploadId ok C Hf ->].
  - left. reflexivity.
  - left. cbn. apply C.
  - right. exists t, uploadId. split; [assumption|]. cbn.
    rewrite complete_requests_app, (col_completes _ _ _ _ C). reflexivity.
  - right. exists t, uploadId. split; [assumption|]. cbn.
    rewrite !complete_requests_app, (col_completes _ _ _ _ C). reflexivity.
Qed.

(** C1.  In every run, a token list that is submitted at finalization (which
    happens once, after every chunk has been stored) has exactly chunkCount
    entries, and its part numbers are 1, 2, ..., chunkCount in this order:
    ascending, without duplicates or gaps. *)
Theorem finalization_tokens env f body :
  0 <= size f ->
  In body (complete_requests (trace (final env f))) ->
  complete_requests (trace (final env f)) = [body] /\
  Z.of_nat (List.length (cp_parts body)) = chunkCount f /\
  map PartNumber (cp_parts body) =
    map Z.of_nat (seq 1 (Z.to_nat (chunkCount f))) /\
  StronglySorted Z.lt (map PartNumber (cp_parts body)) /\
  NoDup (map PartNumber (cp_parts body)) /\
  (forall p, In p (map PartNumber (cp_parts body)) <-> 1 <= p <= chunkCount f).
Proof.
  intros Hs Hin.
  destruct (beginUpload_ended env f Hs) as [_ E].
  apply ended_complete_requests in E.
  destruct E as [E|(t & uploadId & C & E)]; rewrite E in Hin; [contradiction|].
  destruct Hin as [<-|[]]. cbn [cp_parts complete_request].
  pose proof (col_parts _ _ _ _ C) as P.
  pose proof (chunkCount_nonneg f Hs) as Hn.
  split; [assumption|]. split; [|split; [assumption|]].
  - rewrite <- (length_map PartNumber), P, length_map, length_seq. lia.
  - rewrite P. split; [apply seq_ascending|].
    split; [apply ascending_NoDup, seq_ascending|].
    intros p. rewrite in_map_iff. split.
    + intros (m & <- & Hm). apply in_seq in Hm. lia.
    + intros Hp. exists (Z.to_nat p). split; [lia|]. apply in_seq. lia.
Qed.

Lemma finalization_tokens_witness :
  exists body,
    In body (complete_requests (trace (final smooth_env sample_file))) /\
    map PartNumber (cp_parts body) = [1; 2; 3].
Proof.
  set (body := complete_request smooth_env sample_file (Some "upload-1")
                 [ {| PartNumber := 1; ETag := "abc" |};
                   {| PartNumber := 2; ETag := "abc" |};
                   {| PartNumber := 3; ETag := "abc" |} ]).
  assert (Hs : 0 <= size sample_file) by (cbn; lia).
  assert (Hin : In body (complete_requests (trace (final smooth_env sample_file))))
    by (vm_compute; left; reflexivity).
  exists body. split; [exact Hin|].
  exact (proj1 (proj2 (proj2 (finalization_tokens smooth_env sample_file body Hs Hin)))).
Defined.

(** ** Chunking, as a run performs it *)

Lemma put_requests_app (l l' : list Event) :
  put_requests (l ++ l') = put_requests l ++ put_requests l'.
Proof. apply flat_map_app. Qed.

Lemma create_requests_app (l l' : list Event) :
  create_requests (l ++ l') = create_requests l ++ create_requests l'.
Proof. apply flat_map_app. Qed.

(** Every run announces [chunkCount f] chunks and only PUTs chunks of [f]. *)
Lemma ended_chunks env f s :
  Ended env f s ->
  create_requests (trace s) = [create_request env f] /\
  Forall (fun c => exists i, 0 <= i < chunkCount f /\ c = chunk_at f i)
    (put_requests (trace s)).
Proof.
  intros [e Hc ->|j t Hj C ->|t uploadId e C Hf ->|t uploadId ok C Hf ->];
    cbn [trace with_message emit create_failed].
  - split; [reflexivity|constructor].
  - split; apply C.
  - rewrite create_requests_app, put_requests_app, !app_nil_r. split; apply C.
  - rewrite !create_requests_app, !put_requests_app, !app_nil_r. split; apply C.
Qed.

(** C2.  For a file of size S and CHUNK_SIZE = 5 MiB, the chunk count
    computed by uploadChunks is the ceiling of S / CHUNK_SIZE (the least n
    with S <= n * CHUNK_SIZE); chunk i, for 0 <= i < chunkCount, is the byte
    range from i * CHUNK_SIZE to min(S, (i+1) * CHUNK_SIZE); and the last
    chunk has length S - (chunkCount-1) * CHUNK_SIZE, which is positive and
    at most CHUNK_SIZE.  A run announces this chunk count in its create
    request and PUTs nothing but these chunks. *)
Theorem chunking_is_ceiling (f : File) :
  CHUNK_SIZE = 5 * 2 ^ 20 /\
  (chunkCount f - 1) * CHUNK_SIZE < size f <= chunkCount f * CHUNK_SIZE /\
  (forall i, 0 <= i < chunkCount f ->
     lo (chunk_at f i) = i * CHUNK_SIZE /\
     hi (chunk_at f i) = Z.min (size f) ((i + 1) * CHUNK_SIZE)) /\
  (0 < chunkCount f ->
     Blob_size (chunk_at f (chunkCount f - 1)) =
       size f - (chunkCount f - 1) * CHUNK_SIZE /\
     0 < Blob_size (chunk_at f (chunkCount f - 1)) <= CHUNK_SIZE) /\
  (forall env, 0 <= size f ->
     map cr_chunkCount (create_requests (trace (final env f))) = [chunkCount f] /\
     Forall (fun c => exists i, 0 <= i < chunkCount f /\ c = chunk_at f i)
       (put_requests (trace (final env f)))).
Proof.
  pose proof (chunkCount_bounds f) as B.
  split; [reflexivity|]. split; [exact B|]. split; [|split].
  - intros i Hi. now apply chunk_at_range.
  - intros Hn. rewrite chunk_at_size by lia. unfold CHUNK_SIZE in *. lia.
  - intros env Hs. destruct (beginUpload_ended env f Hs) as [_ E].
    apply ended_chunks in E. destruct E as [-> P]. split; [reflexivity|exact P].
Qed.

Lemma chunking_is_ceiling_witness :
  0 < chunkCount sample_file /\
  chunkCount sample_file = 3 /\
  lo (chunk_at sample_file 2) = 2 * CHUNK_SIZE /\
  hi (chunk_at sample_file 2) = size sample_file /\
  Blob_size (chunk_at sample_file (chunkCount sample_file - 1)) =
    size sample_file - (chunkCount sample_file - 1) * CHUNK_SIZE /\
  map Blob_size (put_requests (trace (final smooth_env sample_file))) =
    [5 * 1024 * 1024; 5 * 1024 * 1024; 2 * 1024 * 1024] /\
  Forall (fun c => exists i, 0 <= i < chunkCount sample_file /\
                             c = chunk_at sample_file i)
    (put_requests (trace (final smooth_env sample_file))).
Proof.
  pose proof (chunking_is_ceiling sample_file) as (_ & _ & Hrange & Hlast & Hrun).
  assert (Hpos : 0 < chunkCount sample_file) by (vm_compute; reflexivity).
  assert (H2 : 0 <= 2 < chunkCount sample_file) by (vm_compute; split; congruence).
  assert (Hs : 0 <= size sample_file) by (cbn; lia).
  destruct (Hrange 2 H2) as [Hlo Hhi].
  split; [exact Hpos|]. split; [vm_compute; reflexivity|].
  split; [exact Hlo|]. split; [rewrite Hhi; vm_compute; reflexivity|].
  split; [exact (proj1 (Hlast Hpos))|].
  split; [vm_compute; reflexivity | exact (proj2 (Hrun smooth_env Hs))].
Defined.

(** ** Progress *)

Section Percent.

Variable f : File.
Hypothesis size_pos : 0 < size f.



Lemma percent_after_all : percent_after f (Z.to_nat (chunkCount f)) = 100.
Proof.
  unfold percent_after, percent_of.
  pose proof (chunkCount_bounds f) as B. pose proof (chunkCount_pos f size_pos).
  rewrite Z2Nat.id by lia. rewrite Z.min_l by lia. now apply percent_full.
Qed.




End Percent.

Lemma last_values f (j : nat) :
  last (0 :: 0 :: map (percent_after f) (seq 1 j)) 0 =
  match j with O => 0 | S _ => percent_after f j end.
Proof.
  destruct j as [|j]; [reflexivity|].
  rewrite seq_S, map_app.
  change (0 :: 0 :: map (percent_after f) (seq 1 j) ++ map (percent_after f) [(1 + j)%nat])
    with ((0 :: 0 :: map (percent_after f) (seq 1 j)) ++ [percent_after f (S j)]).
  apply last_last.
Qed.

(** The progress values of a run, and the state's progress at its end. *)
Lemma ended_progress env f s :
  Ended env f s ->
  progress s = Some (last (progress_values (trace s)) 0) /\
  (progress_values (trace s) = [0] \/
   exists j, (j <= Z.to_nat (chunkCount f))%nat /\
     progress_values (trace s) = 0 :: 0 :: map (percent_after f) (seq 1 j)).
Proof.
  intros [e Hc ->|j t Hj C ->|t uploadId e C Hf ->|t uploadId ok C Hf ->].
  - split; [reflexivity|]. left. reflexivity.
  - cbn. split; [apply C|]. right. exists j. split; [lia|apply C].
  - cbn. rewrite progress_values_app, app_nil_r.
    split; [apply C|]. right. eexists. split; [reflexivity|apply C].
  - cbn. rewrite !progress_values_app, !app_nil_r.
    split; [apply C|]. right. eexists. split; [reflexivity|apply C].
Qed.




(** ** How a run leaves the component *)

(** C8, a defect of the code.  For an empty file finalization succeeds and
    the success message is shown, yet nothing is reset: the file stays
    selected, progress stays 0 and both controls stay disabled, so the
    input does not accept a new file.  The effect meant to reset the
    component once the upload is complete only fires on progress 100, which
    a run without chunks never sets.  And a finalization that the server
    refuses with an error status still ends with the success message, the
    status of that response not being looked at, unlike the status of a
    chunk response. *)
Lemma empty_file_not_reset :
  (message (final smooth_env empty_file) = success_message /\
   complete_requests (trace (final smooth_env empty_file)) =
     [complete_request smooth_env empty_file (Some "upload-1") []] /\
   file (final smooth_env empty_file) = Some empty_file /\
   progress (final smooth_env empty_file) = Some 0 /\
   controls_disabled (final smooth_env empty_file) = true /\
   ~ resets_after_success smooth_env empty_file) /\
  (forall body, complete_multipart refused_finalization_env body = CompleteResponse false) /\
  message (final refused_finalization_env sample_file) = success_message /\
  upload_completes (trace (final refused_finalization_env sample_file)) = [tt].
Proof.
  split; [|split; [intros body; reflexivity|split; vm_compute; reflexivity]].
  repeat (split; [vm_compute; reflexivity|]).
  intros H.
  assert (Hfin : exists body,
             In body (complete_requests (trace (final smooth_env empty_file))) /\
             complete_multipart smooth_env body = CompleteResponse true).
  { exists (complete_request smooth_env empty_file (Some "upload-1") []).
    split; [vm_compute; left; reflexivity | reflexivity]. }
  destruct (H Hfin) as (_ & Hfile & _). discriminate Hfile.
Qed.

(** X22.  How a run of a non-empty file leaves the component.  If the
    complete request was sent and answered, the message is the success
    message, the file state and the file input are cleared, progress is 100
    and both controls are enabled.  In every other run the message is the
    failure message and progress keeps the last value that was set. *)
Theorem run_leaves_component env f :
  0 < size f ->
  ((exists body ok,
      In body (complete_requests (trace (final env f))) /\
      complete_multipart env body = CompleteResponse ok) ->
   message (final env f) = success_message /\
   file (final env f) = None /\
   fileInput_value (final env f) = "" /\
   progress (final env f) = Some 100 /\
   controls_disabled (final env f) = false) /\
  (~ (exists body ok,
        In body (complete_requests (trace (final env f))) /\
        complete_multipart env body = CompleteResponse ok) ->
   message (final env f) = failure_message /\
   progress (final env f) =
     Some (last (progress_values (trace (final env f))) 0)).
Proof.
  intros Hpos.
  destruct (beginUpload_ended env f ltac:(lia)) as [_ E].
  pose proof (ended_progress env f _ E) as [P _].
  destruct E as [e Hc Es|j t Hj C Es|t uploadId e C Hf Es|t uploadId ok C Hf Es];
    rewrite Es in *; clear Es.
  - split; [|intros _; split; [reflexivity|exact P]].
    intros (body & ok & [] & _).
  - split; [|intros _; split; [reflexivity|exact P]].
    intros (body & ok & Hin & _). cbn [trace with_message emit] in Hin.
    rewrite (col_completes _ _ _ _ C) in Hin. contradiction.
  - split; [|intros _; split; [reflexivity|exact P]].
    intros (body & ok & Hin & Hok). cbn [trace with_message emit] in Hin.
    rewrite complete_requests_app, (col_completes _ _ _ _ C) in Hin.
    destruct Hin as [<-|[]]. congruence.
  - split.
    + intros _.
      assert (P100 : progress t = Some 100).
      { rewrite (col_progress _ _ _ _ C), (col_values _ _ _ _ C), last_values.
        pose proof (chunkCount_pos f Hpos) as Hn.
        destruct (Z.to_nat (chunkCount f)) eqn:En; [lia|].
        rewrite <- En. now rewrite percent_after_all. }
      destruct (col_effect _ _ _ _ C P100) as [F I].
      cbn. unfold controls_disabled. cbn. rewrite P100. auto.
    + intros H. contradiction H.
      exists (complete_request env f uploadId (parts t)), ok.
      split; [|assumption]. cbn [trace with_message emit].
      rewrite !complete_requests_app, (col_completes _ _ _ _ C). now left.
Qed.

Lemma run_leaves_component_witness :
  0 < size sample_file /\
  file (final smooth_env sample_file) = None /\
  progress (final smooth_env sample_file) = Some 100 /\
  message (final unfinalized_env sample_file) = failure_message /\
  progress (final unfinalized_env sample_file) = Some 100.
Proof.
  assert (Hpos : 0 < size sample_file) by (cbn; lia).
  destruct (run_leaves_component smooth_env sample_file Hpos) as [Hok _].
  destruct (run_leaves_component unfinalized_env sample_file Hpos) as [_ Hko].
  assert (Hfin : exists body ok,
             In body (complete_requests (trace (final smooth_env sample_file))) /\
             complete_multipart smooth_env body = CompleteResponse ok).
  { exists (complete_request smooth_env sample_file (Some "upload-1")
              [ {| PartNumber := 1; ETag := "abc" |};
                {| PartNumber := 2; ETag := "abc" |};
                {| PartNumber := 3; ETag := "abc" |} ]), true.
    split; [vm_compute; left; reflexivity | reflexivity]. }
  assert (Hnot : ~ (exists body ok,
             In body (complete_requests (trace (final unfinalized_env sample_file))) /\
             complete_multipart unfinalized_env body = CompleteResponse ok)).
  { intros (body & ok & _ & Habs). discriminate Habs. }
  destruct (Hok Hfin) as (_ & F & _ & P & _).
  destruct (Hko Hnot) as (M & P').
  split; [exact Hpos|]. split; [exact F|]. split; [exact P|].
  split; [exact M|]. rewrite P'. vm_compute. reflexivity.
Defined.

(** ** An empty file *)

(** C9.  For a file of size 0 whose create request is answered: chunkCount
    is 0, no chunk is PUT, the complete request is still sent, with an empty
    part list; progress is set to 0 twice and to nothing else, so it ends at
    0, the file stays selected and both controls stay disabled. *)
Theorem empty_file_run env f uploadId urls :
  size f = 0 ->
  create_multipart env (create_request env f) = CreateJson uploadId urls ->
  chunkCount f = 0 /\
  put_requests (trace (final env f)) = [] /\
  complete_requests (trace (final env f)) =
    [complete_request env f uploadId []] /\
  progress_values (trace (final env f)) = [0; 0] /\
  progress (final env f) = Some 0 /\
  file (final env f) = Some f /\
  controls_disabled (final env f) = true.
Proof.
  intros Hz Hc. pose proof (chunkCount_zero f Hz) as Hn.
  split; [assumption|].
  unfold final. rewrite beginUpload_unfold, Hc, Hn. cbn.
  destruct (complete_multipart env _); cbn; repeat split; reflexivity.
Qed.

Lemma empty_file_run_witness :
  size empty_file = 0 /\
  complete_requests (trace (final smooth_env empty_file)) =
    [complete_request smooth_env empty_file (Some "upload-1") []] /\
  controls_disabled (final smooth_env empty_file) = true.
Proof.
  pose proof (empty_file_run smooth_env empty_file (Some "upload-1")
                (Some ["u1"; "u2"; "u3"]) eq_refl eq_refl)
    as (_ & _ & Hc & _ & _ & _ & Hd).
  split; [reflexivity|]. split; [exact Hc|exact Hd].
Defined.

(** ** Refused attempts: backoff, exhaustion, and the aborted run *)

Lemma refused_attempt env url chunk cb retry s :
  refused (put_chunk env (puts_sent s) url chunk) = true ->
  uploadChunkWithFetch env url chunk cb retry s =
  let s1 := with_puts_sent (S (puts_sent s)) (emit (EvPut url chunk) s) in
  if retry <? MAX_RETRY
  then uploadChunkWithFetch env url chunk cb (retry + 1)
         (emit (EvDelay (retry * 20 * 1000)) s1)
  else (Throw (refusal_error (put_chunk env (puts_sent s) url chunk)), s1).
Proof.
  intros R. rewrite uploadChunkWithFetch_step. cbv zeta.
  destruct (put_chunk env (puts_sent s) url chunk) as [e|[|] st etag];
    cbn in R; try discriminate R; reflexivity.
Qed.

Lemma advance_nil s : advance [] 0 s = s.
Proof.
  destruct s. unfold advance. cbn. f_equal; [lia | apply app_nil_r].
Qed.

Lemma refused_attempt_advanced env url chunk cb retry io n t :
  refused (put_chunk env (n + puts_sent t) url chunk) = true ->
  uploadChunkWithFetch env url chunk cb retry (advance io n t) =
  if retry <? MAX_RETRY
  then uploadChunkWithFetch env url chunk cb (retry + 1)
         (advance (io ++ [EvPut url chunk; EvDelay (retry * 20 * 1000)]) (S n) t)
  else (Throw (refusal_error (put_chunk env (n + puts_sent t) url chunk)),
        advance (io ++ [EvPut url chunk]) (S n) t).
Proof.
  intros R.
  assert (E : puts_sent (advance io n t) = (n + puts_sent t)%nat)
    by (cbn; lia).
  rewrite refused_attempt by (rewrite E; exact R). cbv zeta. rewrite E.
  destruct (retry <? MAX_RETRY).
  - f_equal. unfold advance, emit, with_puts_sent; cbn.
    f_equal; try lia. rewrite <- !app_assoc. reflexivity.
  - f_equal. unfold advance, emit, with_puts_sent; cbn.
    f_equal; try lia. rewrite <- !app_assoc. reflexivity.
Qed.

Lemma five_refusals env url chunk cb t :
  (forall a, (a < 5)%nat ->
     refused (put_chunk env (a + puts_sent t) url chunk) = true) ->
  uploadChunkWithFetch env url chunk cb 1 t =
  (Throw (refusal_error (put_chunk env (4 + puts_sent t) url chunk)),
   advance (backoff_trace url chunk) 5 t).
Proof.
  intros R. rewrite <- (advance_nil t) at 1.
  rewrite refused_attempt_advanced by (apply R; lia).
  change (1 <? MAX_RETRY) with true. cbv iota.
  rewrite refused_attempt_advanced by (apply R; lia).
  change (1 + 1 <? MAX_RETRY) with true. cbv iota.
  rewrite refused_attempt_advanced by (apply R; lia).
  change (1 + 1 + 1 <? MAX_RETRY) with true. cbv iota.
  rewrite refused_attempt_advanced by (apply R; lia).
  change (1 + 1 + 1 + 1 <? MAX_RETRY) with true. cbv iota.
  rewrite refused_attempt_advanced by (apply R; lia).
  change (1 + 1 + 1 + 1 + 1 <? MAX_RETRY) with false. cbv iota.
  reflexivity.
Qed.

Lemma for_loop_app {St} (body : Z -> M St unit) (a b : nat) : forall i s,
  for_loop (a + b) i body s =
  bind (for_loop a i body) (fun _ => for_loop b (i + Z.of_nat a) body) s.
Proof.
  induction a as [|a IH]; intros i s.
  - cbn [Nat.add for_loop Z.of_nat]. unfold bind, ret. now rewrite Z.add_0_r.
  - cbn [Nat.add for_loop]. unfold bind at 1 2. unfold bind at 1.
    destruct (body i s) as [[[]|e] s1]; [|reflexivity].
    rewrite IH. unfold bind.
    replace (i + 1 + Z.of_nat a) with (i + Z.of_nat (S a)) by lia.
    reflexivity.
Qed.

(** C4.  MAX_RETRY is 5.  A refused attempt (a rejected fetch or a response
    that is not ok) made with attempt count retry: below MAX_RETRY, the
    coordinator waits retry * 20 seconds and calls itself with retry + 1; at
    MAX_RETRY or above, it rethrows the failure.  Hence, when the loop has
    stored chunks 0..j-1 and the five attempts of chunk j are refused, the
    run ends with the failure message after five PUTs and waits of 20, 40,
    60 and 80 seconds: no token for part j+1 is recorded and no complete
    request is sent. *)
Theorem retry_then_abort :
  MAX_RETRY = 5 /\
  (forall env url chunk cb retry s,
     refused (put_chunk env (puts_sent s) url chunk) = true ->
     let s1 := with_puts_sent (S (puts_sent s)) (emit (EvPut url chunk) s) in
     (retry < MAX_RETRY ->
      uploadChunkWithFetch env url chunk cb retry s =
      uploadChunkWithFetch env url chunk cb (retry + 1)
        (emit (EvDelay (retry * 20 * 1000)) s1)) /\
     (MAX_RETRY <= retry ->
      uploadChunkWithFetch env url chunk cb retry s =
      (Throw (refusal_error (put_chunk env (puts_sent s) url chunk)), s1))) /\
  (forall env f uploadId urls (j : nat) t,
     0 <= size f ->
     create_multipart env (create_request env f) = CreateJson uploadId (Some urls) ->
     (j < Z.to_nat (chunkCount f))%nat ->
     for_loop j 0 (upload_body env f (Some urls)) (started env f) = (Normal tt, t) ->
     (forall a, (a < 5)%nat ->
        refused (put_chunk env (a + puts_sent t) (nth_error urls j)
                   (chunk_at f (Z.of_nat j))) = true) ->
     final env f =
       with_message failure_message
         (advance (backoff_trace (nth_error urls j) (chunk_at f (Z.of_nat j))) 5 t) /\
     parts (final env f) = parts t /\
     ~ In (Z.of_nat j + 1) (map PartNumber (parts (final env f))) /\
     complete_requests (trace (final env f)) = [] /\
     message (final env f) = failure_message).
Proof.
  split; [reflexivity|]. split.
  - intros env url chunk cb retry s R s1. split; intros L.
    + rewrite refused_attempt by assumption. cbv zeta.
      apply Z.ltb_lt in L. now rewrite L.
    + rewrite refused_attempt by assumption. cbv zeta.
      apply Z.ltb_ge in L. now rewrite L.
  - intros env f uploadId urls j t Hs Hc Hj Hloop R.
    assert (C : Collected env f j t).
    { change 0 with (Z.of_nat 0) in Hloop.
      apply for_loop_cases in Hloop; [|now apply collected_started|lia].
      destruct Hloop as [[_ C]|(e & k & Habs & _)]; [exact C|discriminate]. }
    assert (F : final env f =
                with_message failure_message
                  (advance (backoff_trace (nth_error urls j) (chunk_at f (Z.of_nat j))) 5 t)).
    { unfold final. rewrite beginUpload_unfold, Hc.
      replace (Z.to_nat (chunkCount f))
        with (j + S (Z.to_nat (chunkCount f) - S j))%nat by lia.
      rewrite for_loop_app. unfold bind at 1. rewrite Hloop.
      cbn [for_loop]. unfold bind at 1.
      unfold upload_body at 1. cbv zeta. unfold url_at, bind at 1, ret.
      rewrite Z.add_0_l, Nat2Z.id.
      rewrite five_refusals by assumption. reflexivity. }
    split; [exact F|]. rewrite F. cbn [parts trace message with_message advance].
    split; [reflexivity|]. split; [|split; [|reflexivity]].
    + rewrite (col_parts _ _ _ _ C). intros Hin. apply in_map_iff in Hin.
      destruct Hin as (m & Hm & Hin). apply in_seq in Hin. lia.
    + rewrite complete_requests_app, (col_completes _ _ _ _ C). reflexivity.
Qed.

Lemma retry_then_abort_witness :
  let env := disturbed_env 1 5 (PutResponse false "Service Unavailable" None) in
  0 <= size sample_file /\
  map PartNumber (parts (final env sample_file)) = [1] /\
  delays (trace (final env sample_file)) = [20000; 40000; 60000; 80000] /\
  complete_requests (trace (final env sample_file)) = [] /\
  message (final env sample_file) = failure_message /\
  uploadChunkWithFetch (disturbed_env 0 1 (PutReject (TypeError "Failed to fetch")))
    (Some "u1") (chunk_at sample_file 0) (fun _ => ret tt) 5 mounted =
  (Throw (TypeError "Failed to fetch"),
   with_puts_sent 1 (emit (EvPut (Some "u1") (chunk_at sample_file 0)) mounted)).
Proof.
  intros env.
  set (urls := ["u1"; "u2"; "u3"]).
  set (t := snd (for_loop 1 0 (upload_body env sample_file (Some urls))
                   (started env sample_file))).
  assert (Hs : 0 <= size sample_file) by (cbn; lia).
  assert (Hc : create_multipart env (create_request env sample_file) =
               CreateJson (Some "upload-1") (Some urls)) by reflexivity.
  assert (Hj : (1 < Z.to_nat (chunkCount sample_file))%nat)
    by (vm_compute; lia).
  assert (Hloop : for_loop 1 0 (upload_body env sample_file (Some urls))
                    (started env sample_file) = (Normal tt, t))
    by (vm_compute; reflexivity).
  assert (R : forall a, (a < 5)%nat ->
            refused (put_chunk env (a + puts_sent t) (nth_error urls 1)
                       (chunk_at sample_file (Z.of_nat 1))) = true).
  { intros a Ha.
    do 5 (destruct a as [|a]; [vm_compute; reflexivity|]). lia. }
  destruct retry_then_abort as (_ & Hstep & Hrun).
  destruct (Hrun env sample_file (Some "upload-1") urls 1%nat t Hs Hc Hj Hloop R)
    as (F & P & _ & C & M).
  split; [exact Hs|]. split; [rewrite P; vm_compute; reflexivity|].
  split; [rewrite F; vm_compute; reflexivity|].
  split; [exact C|]. split; [exact M|].
  apply (Hstep (disturbed_env 0 1 (PutReject (TypeError "Failed to fetch")))
           (Some "u1") (chunk_at sample_file 0) (fun _ => ret tt) 5 mounted);
    [reflexivity | unfold MAX_RETRY; lia].
Defined.

(** ** A success response without an ETag *)

(** C10.  When a chunk PUT is answered ok but headers.get('ETag') is null,
    the callback throws at etag.replace inside the try block before anything
    is pushed: the attempt leaves parts, totalUploadedBytes and progress as
    they were, and the coordinator continues exactly as after a refused
    attempt: below MAX_RETRY it waits retry * 20 seconds and retries with
    retry + 1, otherwise it rethrows the TypeError. *)
Theorem null_etag_is_retried env url f i chunk retry s statusText :
  put_chunk env (puts_sent s) url chunk = PutResponse true statusText None ->
  let s1 := with_puts_sent (S (puts_sent s)) (emit (EvPut url chunk) s) in
  parts s1 = parts s /\
  totalUploadedBytes s1 = totalUploadedBytes s /\
  progress s1 = progress s /\
  (retry < MAX_RETRY ->
   uploadChunkWithFetch env url chunk (onProgress f i chunk) retry s =
   uploadChunkWithFetch env url chunk (onProgress f i chunk) (retry + 1)
     (emit (EvDelay (retry * 20 * 1000)) s1)) /\
  (MAX_RETRY <= retry ->
   exists m,
     uploadChunkWithFetch env url chunk (onProgress f i chunk) retry s =
     (Throw (TypeError m), s1)).
Proof.
  intros Hput s1. repeat (split; [reflexivity|]).
  split; intros L; rewrite uploadChunkWithFetch_step; rewrite Hput; cbv zeta;
    fold s1; cbn [onProgress]; unfold throw.
  - apply Z.ltb_lt in L. now rewrite L.
  - apply Z.ltb_ge in L. rewrite L. eexists. reflexivity.
Qed.

Lemma null_etag_is_retried_witness :
  let env := disturbed_env 0 1 (PutResponse true "OK" None) in
  put_chunk env 0 (Some "u1") (chunk_at sample_file 0) = PutResponse true "OK" None /\
  put_requests (trace (final env one_byte_file)) =
    [chunk_at one_byte_file 0; chunk_at one_byte_file 0] /\
  delays (trace (final env one_byte_file)) = [20000] /\
  map PartNumber (parts (final env one_byte_file)) = [1] /\
  uploadChunkWithFetch env (Some "u1") (chunk_at sample_file 0)
    (onProgress sample_file 0 (chunk_at sample_file 0)) 1 (started env sample_file) =
  uploadChunkWithFetch env (Some "u1") (chunk_at sample_file 0)
    (onProgress sample_file 0 (chunk_at sample_file 0)) (1 + 1)
    (emit (EvDelay (1 * 20 * 1000))
       (with_puts_sent 1
          (emit (EvPut (Some "u1") (chunk_at sample_file 0))
             (started env sample_file)))).
Proof.
  intros env.
  split; [reflexivity|].
  split; [vm_compute; reflexivity|].
  split; [vm_compute; reflexivity|].
  split; [vm_compute; reflexivity|].
  apply (null_etag_is_retried env (Some "u1") sample_file 0
           (chunk_at sample_file 0) 1 (started env sample_file) "OK");
    [reflexivity | unfold MAX_RETRY; lia].
Defined.

(** ** The file controller *)

Ltac run_server :=
  unfold FC.call, FC.res_json, FC.res_status_json, FC.save, FC.log,
    bind, ret, throw, try_catch, modify in *.

(** The signing loop: it never touches the documents or the response; when
    it completes, it has signed parts [i+1], ..., [i+n] in this order, each
    with [EXPIRATION_HOURS], and appended their URLs. *)
Lemma sign_parts_spec env Key UploadId (n : nat) : forall i urls s r s',
  FC.sign_parts env Key UploadId n i urls s = (r, s') ->
  FC.documents s' = FC.documents s /\
  FC.response s' = FC.response s /\
  saves (FC.calls s') = saves (FC.calls s) /\
  (forall urls', r = Normal urls' ->
     map inr urls' =
       map inr urls ++ map (fun k => signed env Key UploadId (i + Z.of_nat k)) (seq 1 n) /\
     FC.calls s' =
       FC.calls s ++
       map (fun k => FC.CallSignUploadPart (part_params env Key UploadId (i + Z.of_nat k)))
         (seq 1 n)).
Proof.
  induction n as [|n IH]; intros i urls s r s' H; cbn [FC.sign_parts] in H.
  - unfold ret in H. inversion H; subst. repeat (split; [reflexivity|]).
    intros urls' E. inversion E; subst. cbn. now rewrite !app_nil_r.
  - run_server.
    fold (part_params env Key UploadId (i + 1)) in H.
    fold (signed env Key UploadId (i + 1)) in H.
    destruct (signed env Key UploadId (i + 1)) as [e|u] eqn:Eu.
    + inversion H; subst. cbn. unfold saves. rewrite flat_map_app. cbn.
      rewrite app_nil_r. repeat (split; [reflexivity|]). discriminate.
    + apply IH in H. destruct H as (D & R & Sv & N). cbn in D, R, Sv.
      unfold saves in Sv. rewrite flat_map_app in Sv. cbn in Sv.
      rewrite app_nil_r in Sv.
      repeat (split; [assumption|]).
      intros urls' E. destruct (N urls' E) as [U C]. cbn in C.
      cbn [seq map]. rewrite <- (seq_shift n 1), !map_map.
      replace (i + Z.of_nat 1) with (i + 1) by lia. split.
      * rewrite U, map_app. cbn. rewrite Eu, <- app_assoc. cbn. do 2 f_equal.
        apply map_ext. intros k. f_equal. lia.
      * rewrite C, <- app_assoc. cbn. do 2 f_equal.
        apply map_ext. intros k. do 2 f_equal. lia.
Qed.

Lemma sign_parts_total env Key UploadId (n : nat) : forall i urls s,
  (forall k, (1 <= k <= n)%nat ->
     exists u, signed env Key UploadId (i + Z.of_nat k) = inr u) ->
  exists urls' s', FC.sign_parts env Key UploadId n i urls s = (Normal urls', s').
Proof.
  induction n as [|n IH]; intros i urls s H; cbn [FC.sign_parts].
  - eexists _, _. reflexivity.
  - run_server.
    fold (part_params env Key UploadId (i + 1)).
    fold (signed env Key UploadId (i + 1)).
    destruct (H 1%nat ltac:(lia)) as [u Hu].
    replace (i + Z.of_nat 1) with (i + 1) in Hu by lia. rewrite Hu.
    apply IH. intros k Hk. destruct (H (S k) ltac:(lia)) as [u' Hu'].
    exists u'. rewrite <- Hu'. f_equal. lia.
Qed.

Lemma sign_calls_signs (g : nat -> FC.UploadPartParams) (l : list nat) :
  sign_calls (map (fun k => FC.CallSignUploadPart (g k)) l) = map g l.
Proof. induction l as [|k l IH]; cbn; [|rewrite <- IH]; reflexivity. Qed.

(** [createMultipartUpload] on a state: the session is opened outside the
    [try], so its failure leaves the handler as an exception; a signing
    failure is caught and answered with a 500. *)
Lemma createMultipartUpload_unfold env req s :
  FC.createMultipartUpload env req s =
  let s0 := FC.log (FC.CallCreateMultipartUpload (create_params env req)) s in
  match FC.s3_createMultipartUpload env (create_params env req) with
  | inl e => (Throw e, s0)
  | inr U =>
      match FC.sign_parts env (FC.fileName req) U
              (Z.to_nat (FC.chunkCount req)) 0 [] s0 with
      | (Normal urls, s1) =>
          (Normal tt,
           {| FC.documents := FC.documents s1;
              FC.response :=
                Some {| FC.status := 200; FC.body := FC.CreatedBody U urls |};
              FC.calls := FC.calls s1 |})
      | (Throw e, s1) =>
          (Normal tt,
           {| FC.documents := FC.documents s1;
              FC.response :=
                Some {| FC.status := 500;
                        FC.body := FC.ErrorBody (error_message e) |};
              FC.calls := FC.calls s1 |})
      end
  end.
Proof.
  unfold FC.createMultipartUpload. fold (create_params env req).
  unfold bind at 1, FC.call at 1.
  destruct (FC.s3_createMultipartUpload env (create_params env req)) as [e|U];
    [reflexivity|].
  unfold try_catch, bind, FC.res_json, FC.res_status_json, modify. cbv zeta.
  destruct (FC.sign_parts _ _ _ _ _ _ _) as [[urls|e] s1]; reflexivity.
Qed.

(** C7.  When createMultipartUpload, called with a positive chunkCount,
    answers with an uploadId and pre-signed URLs, the answer is a 200 whose
    URL list has exactly chunkCount entries; the URL at position i (from 0)
    is the one S3 signed for PartNumber i + 1 of this upload, so the URLs are
    numbered 1..chunkCount in the order returned; and every signing request
    carries Expires = EXPIRATION_HOURS = 60 * 60 * 24 seconds, a full day.
    Such an answer is given whenever S3 opens the session and signs every
    part. *)
Theorem created_session_urls env req docs :
  0 < FC.chunkCount req ->
  let s' := snd (FC.createMultipartUpload env req (FC.serving docs)) in
  let n := Z.to_nat (FC.chunkCount req) in
  FC.EXPIRATION_HOURS = 24 * (60 * 60) /\
  (forall st uploadId urls,
     FC.response s' =
       Some {| FC.status := st; FC.body := FC.CreatedBody uploadId urls |} ->
     st = 200 /\
     FC.s3_createMultipartUpload env (create_params env req) = inr uploadId /\
     Z.of_nat (List.length urls) = FC.chunkCount req /\
     map inr urls =
       map (fun k => signed env (FC.fileName req) uploadId (Z.of_nat k)) (seq 1 n) /\
     sign_calls (FC.calls s') =
       map (fun k => part_params env (FC.fileName req) uploadId (Z.of_nat k)) (seq 1 n) /\
     (forall p, In p (sign_calls (FC.calls s')) ->
        FC.u_Expires p = 24 * (60 * 60))) /\
  (forall uploadId,
     FC.s3_createMultipartUpload env (create_params env req) = inr uploadId ->
     (forall k, (1 <= k <= n)%nat ->
        exists u, signed env (FC.fileName req) uploadId (Z.of_nat k) = inr u) ->
     exists urls,
       FC.response s' =
         Some {| FC.status := 200; FC.body := FC.CreatedBody uploadId urls |}).
Proof.
  intros Hn s' n. split; [reflexivity|].
  unfold s'. rewrite createMultipartUpload_unfold. cbv zeta. fold n.
  destruct (FC.s3_createMultipartUpload env (create_params env req))
    as [e|U] eqn:Ec.
  - split; [intros st uploadId urls H; discriminate H|].
    intros uploadId H. discriminate H.
  - destruct (FC.sign_parts env (FC.fileName req) U n 0 [] _) as [r s1] eqn:Es.
    pose proof (sign_parts_spec _ _ _ _ _ _ _ _ _ Es) as (D & R & Sv & N).
    split.
    + intros st uploadId urls H.
      destruct r as [urls1|e]; cbn in H; [|discriminate H].
      injection H as <- <- <-.
      destruct (N urls1 eq_refl) as [Hu Hc]. cbn in Hu, Hc.
      assert (Hu' : map inr urls1 =
                    map (fun k => signed env (FC.fileName req) U (Z.of_nat k)) (seq 1 n))
        by (rewrite Hu; apply map_ext; intros k; f_equal).
      assert (Hs : sign_calls (FC.calls s1) =
                   map (fun k => part_params env (FC.fileName req) U (Z.of_nat k)) (seq 1 n)).
      { rewrite Hc. cbn.
        rewrite (sign_calls_signs
                   (fun k => part_params env (FC.fileName req) U (0 + Z.of_nat k))).
        apply map_ext. intros k. reflexivity. }
      split; [reflexivity|]. split; [reflexivity|]. split.
      * apply (f_equal (@List.length _)) in Hu'.
        rewrite !length_map, length_seq in Hu'. unfold n in Hu'. lia.
      * split; [exact Hu'|]. cbn [FC.calls snd]. split; [exact Hs|].
        intros p Hp. rewrite Hs in Hp. apply in_map_iff in Hp.
        destruct Hp as (k & <- & _). reflexivity.
    + intros uploadId HU Hall. injection HU as <-.
      destruct (sign_parts_total env (FC.fileName req) U n 0 []
                  (FC.log (FC.CallCreateMultipartUpload (create_params env req))
                     (FC.serving docs)))
        as (urls' & s2 & E2).
      { intros k Hk. destruct (Hall k Hk) as [u Hu]. exists u. exact Hu. }
      rewrite E2 in Es. inversion Es; subst. exists urls'. reflexivity.
Qed.

(** C5.  When S3 rejects the complete call (whatever the reason: wrong count,
    bad order, stale session), completeMultipartUpload answers 500 with the
    error's message, saves no document and leaves the stored documents as
    they were; S3 was called once. *)
Theorem rejected_finalization_persists_nothing env req s e :
  FC.s3_completeMultipartUpload env (complete_params env req) = inl e ->
  let s' := snd (FC.completeMultipartUpload env req s) in
  fst (FC.completeMultipartUpload env req s) = Normal tt /\
  FC.response s' =
    Some {| FC.status := 500; FC.body := FC.ErrorBody (error_message e) |} /\
  FC.documents s' = FC.documents s /\
  FC.calls s' =
    FC.calls s ++ [FC.CallCompleteMultipartUpload (complete_params env req)] /\
  saves (FC.calls s') = saves (FC.calls s).
Proof.
  intros H s'. unfold s', FC.completeMultipartUpload.
  fold (complete_params env req). cbv zeta. run_server. rewrite H. cbn.
  repeat (split; [reflexivity|]).
  unfold saves. rewrite flat_map_app. cbn. now rewrite app_nil_r.
Qed.

(** C6, a defect of the code.  When S3 refuses to open the session, the
    rejection leaves createMultipartUpload: the call is awaited before the
    try block, so the catch of this very handler, which answers 500 with the
    error's message, is not reached.  After the single S3 call nothing is
    signed and nothing is written on the response, so no backend-error is
    answered to the caller.  The sibling handler awaits its S3 call inside
    its try: refused with the same error, completeMultipartUpload resolves
    and answers 500 with the error's message. *)
Theorem session_creation_failure env req s e :
  FC.s3_createMultipartUpload env (create_params env req) = inl e ->
  FC.createMultipartUpload env req s =
    (Throw e,
     {| FC.documents := FC.documents s; FC.response := FC.response s;
        FC.calls :=
          FC.calls s ++ [FC.CallCreateMultipartUpload (create_params env req)] |}) /\
  FC.response (snd (FC.createMultipartUpload env req s)) = FC.response s /\
  (forall creq,
     FC.s3_completeMultipartUpload env (complete_params env creq) = inl e ->
     fst (FC.completeMultipartUpload env creq s) = Normal tt /\
     FC.response (snd (FC.completeMultipartUpload env creq s)) =
       Some {| FC.status := 500; FC.body := FC.ErrorBody (error_message e) |}).
Proof.
  intros H. rewrite createMultipartUpload_unfold, H.
  split; [reflexivity|]. split; [reflexivity|].
  intros creq Hc. unfold FC.completeMultipartUpload.
  fold (complete_params env creq). cbv zeta. run_server. rewrite Hc. cbn.
  split; reflexivity.
Qed.

Lemma session_creation_failure_witness :
  FC.s3_createMultipartUpload unreachable_s3 (create_params unreachable_s3 sample_create) =
    inl (Error "NetworkingError") /\
  fst (FC.createMultipartUpload unreachable_s3 sample_create (FC.serving [])) =
    Throw (Error "NetworkingError") /\
  FC.response (snd (FC.createMultipartUpload unreachable_s3 sample_create (FC.serving [])))
    = None.
Proof.
  destruct (session_creation_failure unreachable_s3 sample_create (FC.serving [])
              (Error "NetworkingError") eq_refl) as (Hrun & Hresp & _).
  split; [reflexivity|]. split; [rewrite Hrun; reflexivity|exact Hresp].
Defined.

(** X21.  On the client a create request that fails (the fetch rejects or
    the answer is not JSON) ends the run at once: it is sent once and not
    repeated, no chunk is PUT and no complete request is sent; the failure
    message is shown, progress is left at 0 with the file still selected,
    and both controls stay disabled. *)
Theorem create_rejection_ends_run env f e :
  create_multipart env (create_request env f) = CreateReject e ->
  message (final env f) = failure_message /\
  create_requests (trace (final env f)) = [create_request env f] /\
  put_requests (trace (final env f)) = [] /\
  delays (trace (final env f)) = [] /\
  complete_requests (trace (final env f)) = [] /\
  progress (final env f) = Some 0 /\
  file (final env f) = Some f /\
  controls_disabled (final env f) = true.
Proof.
  intros H. unfold final. rewrite beginUpload_unfold, H.
  repeat split; reflexivity.
Qed.

Lemma create_rejection_ends_run_witness :
  create_multipart failing_create_env (create_request failing_create_env sample_file) =
    CreateReject (TypeError "Failed to fetch") /\
  message (final failing_create_env sample_file) = failure_message /\
  put_requests (trace (final failing_create_env sample_file)) = [] /\
  controls_disabled (final failing_create_env sample_file) = true.
Proof.
  destruct (create_rejection_ends_run failing_create_env sample_file
              (TypeError "Failed to fetch") eq_refl)
    as (M & _ & P & _ & _ & _ & _ & C).
  split; [reflexivity|]. split; [exact M|]. split; [exact P|exact C].
Defined.

Lemma created_session_urls_witness :
  0 < FC.chunkCount sample_create /\
  FC.response (snd (FC.createMultipartUpload sample_s3 sample_create (FC.serving []))) =
    Some {| FC.status := 200;
            FC.body := FC.CreatedBody "upload-1"
              [ "https://bucket/17_report.pdf?partNumber=1";
                "https://bucket/17_report.pdf?partNumber=2";
                "https://bucket/17_report.pdf?partNumber=3" ] |} /\
  map FC.u_PartNumber
    (sign_calls (FC.calls (snd (FC.createMultipartUpload sample_s3 sample_create
                                  (FC.serving []))))) = [1; 2; 3] /\
  exists urls,
    FC.response (snd (FC.createMultipartUpload sample_s3 sample_create (FC.serving []))) =
      Some {| FC.status := 200; FC.body := FC.CreatedBody "upload-1" urls |}.
Proof.
  assert (Hn : 0 < FC.chunkCount sample_create) by (cbn; lia).
  assert (Hr : FC.response (snd (FC.createMultipartUpload sample_s3 sample_create
                                   (FC.serving []))) =
    Some {| FC.status := 200;
            FC.body := FC.CreatedBody "upload-1"
              [ "https://bucket/17_report.pdf?partNumber=1";
                "https://bucket/17_report.pdf?partNumber=2";
                "https://bucket/17_report.pdf?partNumber=3" ] |})
    by (vm_compute; reflexivity).
  destruct (created_session_urls sample_s3 sample_create [] Hn) as (_ & H & Htotal).
  destruct (H _ _ _ Hr) as (_ & _ & _ & _ & Hs & _).
  split; [exact Hn|]. split; [exact Hr|]. split; [rewrite Hs; reflexivity|].
  apply (Htotal "upload-1" eq_refl).
  intros k _. eexists. reflexivity.
Defined.

Lemma rejected_finalization_persists_nothing_witness :
  FC.s3_completeMultipartUpload sample_s3 (complete_params sample_s3 out_of_order)
    = inl (Error "InvalidPartOrder") /\
  FC.documents (snd (FC.completeMultipartUpload sample_s3 out_of_order (FC.serving [])))
    = [] /\
  List.length
    (FC.documents (snd (FC.completeMultipartUpload sample_s3 in_order (FC.serving []))))
    = 1%nat.
Proof.
  assert (H : FC.s3_completeMultipartUpload sample_s3
                (complete_params sample_s3 out_of_order)
              = inl (Error "InvalidPartOrder")) by reflexivity.
  destruct (rejected_finalization_persists_nothing sample_s3 out_of_order
              (FC.serving []) (Error "InvalidPartOrder") H) as (_ & _ & D & _).
  split; [exact H|]. split; [exact D|]. vm_compute. reflexivity.
Defined.


(** * Further properties of the code *)

(** ** The chunks tile the file *)

Lemma Zsum_app (l l' : list Z) : Zsum (l ++ l') = Zsum l + Zsum l'.
Proof.
  unfold Zsum. induction l as [|a l IH]; cbn; [reflexivity|]. rewrite IH. lia.
Qed.

Lemma chunk_sizes_sum f (k : nat) :
  0 <= size f ->
  Z.of_nat k <= chunkCount f ->
  Zsum (map (fun i => Blob_size (chunk_at f (Z.of_nat i))) (seq 0 k)) =
  Z.min (size f) (Z.of_nat k * CHUNK_SIZE).
Proof.
  intros Hs. induction k as [|k IH]; intros Hk.
  - cbn. lia.
  - rewrite seq_S, map_app. rewrite Zsum_app. rewrite IH by lia.
    cbn [map Zsum fold_right Nat.add].
    rewrite Z.add_0_r. apply uploaded_after. lia.
Qed.

(** X1.  The chunks cut by the loop of uploadChunks tile the file: chunk 0
    starts at byte 0, each chunk starts where the previous one ends, the
    last one ends at the file's end, every chunk but the last has exactly
    CHUNK_SIZE bytes, none is empty, and the sizes add up to the file size. *)
Theorem chunks_tile_file f :
  0 <= size f ->
  Zsum (map (fun i => Blob_size (chunk_at f (Z.of_nat i)))
          (seq 0 (Z.to_nat (chunkCount f)))) = size f /\
  (forall i, 0 <= i -> i + 1 < chunkCount f ->
     hi (chunk_at f i) = lo (chunk_at f (i + 1)) /\
     Blob_size (chunk_at f i) = CHUNK_SIZE) /\
  (forall i, 0 <= i < chunkCount f -> 0 < Blob_size (chunk_at f i)) /\
  (0 < size f ->
     lo (chunk_at f 0) = 0 /\
     hi (chunk_at f (chunkCount f - 1)) = size f).
Proof.
  intros Hs. pose proof (chunkCount_bounds f) as B.
  pose proof (chunkCount_nonneg f Hs) as Hn.
  split; [|split; [|split]].
  - rewrite chunk_sizes_sum by lia. rewrite Z2Nat.id by lia. lia.
  - intros i Hi Hi'.
    destruct (chunk_at_range f i ltac:(lia)) as [Hlo Hhi].
    destruct (chunk_at_range f (i + 1) ltac:(lia)) as [Hlo' _].
    unfold Blob_size. rewrite Hlo, Hhi, Hlo'. unfold CHUNK_SIZE in *. lia.
  - intros i Hi. rewrite chunk_at_size by assumption. unfold CHUNK_SIZE in *. lia.
  - intros Hpos. pose proof (chunkCount_pos f Hpos) as Hp.
    destruct (chunk_at_range f 0 ltac:(lia)) as [Hlo _].
    destruct (chunk_at_range f (chunkCount f - 1) ltac:(lia)) as [_ Hhi].
    rewrite Hlo, Hhi. unfold CHUNK_SIZE in *. lia.
Qed.

Lemma chunks_tile_file_witness :
  0 <= size sample_file /\
  map (fun i => Blob_size (chunk_at sample_file (Z.of_nat i)))
    (seq 0 (Z.to_nat (chunkCount sample_file))) = [5242880; 5242880; 2097152] /\
  Zsum (map (fun i => Blob_size (chunk_at sample_file (Z.of_nat i)))
          (seq 0 (Z.to_nat (chunkCount sample_file)))) = size sample_file /\
  hi (chunk_at sample_file 0) = lo (chunk_at sample_file (0 + 1)) /\
  hi (chunk_at sample_file (chunkCount sample_file - 1)) = size sample_file.
Proof.
  assert (Hs : 0 <= size sample_file) by (cbn; lia).
  assert (Hpos : 0 < size sample_file) by (cbn; lia).
  destruct (chunks_tile_file sample_file Hs) as (Hsum & Hnext & _ & Hends).
  split; [exact Hs|]. split; [vm_compute; reflexivity|]. split; [exact Hsum|].
  split.
  - apply (Hnext 0); [lia | vm_compute; reflexivity].
  - exact (proj2 (Hends Hpos)).
Defined.

(** ** The attempts at one chunk *)

Lemma put_advanced url chunk io n t :
  with_puts_sent (S (puts_sent (advance io n t)))
    (emit (EvPut url chunk) (advance io n t)) =
  advance (io ++ [EvPut url chunk]) (S n) t.
Proof.
  unfold advance, emit, with_puts_sent; cbn.
  f_equal; try lia. now rewrite <- app_assoc.
Qed.

Lemma delay_advanced d io n t :
  emit (EvDelay d) (advance io n t) = advance (io ++ [EvDelay d]) n t.
Proof.
  unfold advance, emit; cbn. f_equal. now rewrite <- app_assoc.
Qed.

Lemma attempt_trace_next url chunk retry (m : nat) :
  (1 <= m)%nat ->
  attempt_trace url chunk retry (S m) =
  [EvPut url chunk; EvDelay (retry * 20 * 1000)]
  ++ attempt_trace url chunk (retry + 1) m.
Proof. destruct m as [|m]; [lia|reflexivity]. Qed.

(** Every call made by [uploadChunks] for chunk [i], whatever the network
    answers: it makes [m] attempts, at most as many as [retry] leaves; it
    throws only after the last of them; and it returns only after an attempt
    whose response was ok and carried an ETag, having run the callback once,
    with that ETag. *)
Lemma upload_attempts env url f i chunk (k0 : nat) : forall retry io n t r s',
  attempts_left retry = k0 ->
  uploadChunkWithFetch env url chunk (onProgress f i chunk) retry (advance io n t)
    = (r, s') ->
  exists m,
    (1 <= m <= S k0)%nat /\
    ((exists e, r = Throw e /\ m = S k0 /\
        s' = advance (io ++ attempt_trace url chunk retry m) (n + m) t) \/
     (exists st tag,
        r = Normal tt /\
        put_chunk env (puts_sent t + n + m - 1) url chunk
          = PutResponse true st (Some tag) /\
        s' = stored f i chunk tag
               (advance (io ++ attempt_trace url chunk retry m) (n + m) t))).
Proof.
  induction k0 as [|k0 IH]; intros retry io n t r s' Hk H;
    rewrite uploadChunkWithFetch_step in H; cbv zeta in H;
    rewrite put_advanced in H;
    replace (puts_sent (advance io n t)) with (puts_sent t + n)%nat in H
      by reflexivity.
  - assert (L : (retry <? MAX_RETRY) = false)
      by (apply Z.ltb_ge; unfold attempts_left, MAX_RETRY in *; lia).
    rewrite L in H. exists 1%nat. split; [lia|].
    replace (n + 1)%nat with (S n) by lia.
    replace (puts_sent t + n + 1 - 1)%nat with (puts_sent t + n)%nat by lia.
    destruct (put_chunk env (puts_sent t + n) url chunk) as [e|[|] st [tag|]];
      cbn in H; unfold throw in H; inversion H; subst; eauto 8.
  - assert (L : (retry <? MAX_RETRY) = true)
      by (apply Z.ltb_lt; unfold attempts_left, MAX_RETRY in *; lia).
    assert (Hk' : attempts_left (retry + 1) = k0)
      by (unfold attempts_left, MAX_RETRY in *; lia).
    rewrite L in H.
    assert (Retry :
      uploadChunkWithFetch env url chunk (onProgress f i chunk) (retry + 1)
        (emit (EvDelay (retry * 20 * 1000)) (advance (io ++ [EvPut url chunk]) (S n) t))
        = (r, s') ->
      exists m,
        (1 <= m <= S (S k0))%nat /\
        ((exists e, r = Throw e /\ m = S (S k0) /\
            s' = advance (io ++ attempt_trace url chunk retry m) (n + m) t) \/
         (exists st tag,
            r = Normal tt /\
            put_chunk env (puts_sent t + n + m - 1) url chunk
              = PutResponse true st (Some tag) /\
            s' = stored f i chunk tag
                   (advance (io ++ attempt_trace url chunk retry m) (n + m) t)))).
    { intros H'. rewrite delay_advanced in H'.
      destruct (IH _ _ _ _ _ _ Hk' H') as (m & Hm & Hcase).
      exists (S m). split; [lia|].
      rewrite attempt_trace_next by lia.
      replace (n + S m)%nat with (S n + m)%nat by lia.
      replace (puts_sent t + n + S m - 1)%nat
        with (puts_sent t + S n + m - 1)%nat by lia.
      rewrite <- !app_assoc in Hcase. cbn [app] in Hcase.
      cbn [app].
      destruct Hcase as [(e & -> & -> & ->)|(st & tag & -> & Hput & ->)];
        [left|right]; eauto 8. }
    destruct (put_chunk env (puts_sent t + n) url chunk) as [e|[|] st [tag|]] eqn:Hput;
      try (apply Retry; exact H).
    cbn in H. inversion H; subst.
    exists 1%nat. split; [lia|]. right. exists st, tag.
    replace (n + 1)%nat with (S n) by lia.
    replace (puts_sent t + n + 1 - 1)%nat with (puts_sent t + n)%nat by lia.
    auto.
Qed.

Lemma ok_attempt env url f i chunk retry io n t st tag :
  put_chunk env (puts_sent t + n) url chunk = PutResponse true st (Some tag) ->
  uploadChunkWithFetch env url chunk (onProgress f i chunk) retry (advance io n t) =
  (Normal tt, stored f i chunk tag (advance (io ++ [EvPut url chunk]) (S n) t)).
Proof.
  intros H. rewrite uploadChunkWithFetch_step. cbv zeta.
  rewrite put_advanced.
  replace (puts_sent (advance io n t)) with (puts_sent t + n)%nat by reflexivity.
  rewrite H. reflexivity.
Qed.

Lemma refusals_then_ok env url f i chunk t st tag (k : nat) : forall retry io n,
  retry + Z.of_nat k <= MAX_RETRY ->
  (forall a, (a < k)%nat ->
     refused (put_chunk env (n + a + puts_sent t) url chunk) = true) ->
  put_chunk env (puts_sent t + (n + k)) url chunk = PutResponse true st (Some tag) ->
  uploadChunkWithFetch env url chunk (onProgress f i chunk) retry (advance io n t) =
  (Normal tt,
   stored f i chunk tag
     (advance (io ++ attempt_trace url chunk retry (S k)) (n + S k) t)).
Proof.
  induction k as [|k IH]; intros retry io n Hr R Hok.
  - rewrite (ok_attempt _ _ _ _ _ _ _ _ _ st tag)
      by (rewrite <- Hok; f_equal; lia).
    cbn [attempt_trace]. now replace (n + 1)%nat with (S n) by lia.
  - rewrite refused_attempt_advanced
      by (rewrite <- (R 0%nat ltac:(lia)); do 2 f_equal; lia).
    assert (L : (retry <? MAX_RETRY) = true) by (apply Z.ltb_lt; lia).
    rewrite L.
    rewrite (IH (retry + 1)); [| lia | | ].
    + rewrite (attempt_trace_next url chunk retry (S k)) by lia.
      rewrite <- app_assoc. do 3 f_equal. lia.
    + intros a Ha. rewrite <- (R (S a) ltac:(lia)). do 2 f_equal. lia.
    + rewrite <- Hok. f_equal. lia.
Qed.

Section AttemptTrace.

Variables (url : option string) (chunk : Blob).

Lemma attempt_trace_attempts (m : nat) : forall retry,
  Forall (is_attempt chunk) (attempt_trace url chunk retry m).
Proof.
  induction m as [|m IH]; intros retry; cbn [attempt_trace]; [constructor|].
  constructor; [reflexivity|].
  destruct m as [|m]; [constructor|].
  constructor; [exact I | apply IH].
Qed.

Lemma attempt_trace_puts (m : nat) : forall retry,
  put_events (attempt_trace url chunk retry m) = repeat (url, chunk) m.
Proof.
  induction m as [|m IH]; intros retry; [reflexivity|].
  cbn [attempt_trace]. destruct m as [|m]; [reflexivity|].
  change (put_events (EvPut url chunk :: EvDelay (retry * 20 * 1000)
                        :: attempt_trace url chunk (retry + 1) (S m)))
    with ((url, chunk) :: put_events (attempt_trace url chunk (retry + 1) (S m))).
  now rewrite IH.
Qed.

Lemma attempt_trace_delays (m : nat) : forall retry,
  delays (attempt_trace url chunk retry m) =
  map (fun j => (retry + Z.of_nat j) * 20 * 1000) (seq 0 (m - 1)).
Proof.
  induction m as [|m IH]; intros retry; [reflexivity|].
  cbn [attempt_trace]. destruct m as [|m]; [reflexivity|].
  change (delays (EvPut url chunk :: EvDelay (retry * 20 * 1000)
                    :: attempt_trace url chunk (retry + 1) (S m)))
    with (retry * 20 * 1000 :: delays (attempt_trace url chunk (retry + 1) (S m))).
  rewrite IH. replace (S (S m) - 1)%nat with (S (S m - 1)) by lia.
  cbn [seq map]. f_equal; [f_equal; lia|].
  rewrite <- seq_shift, map_map. apply map_ext. intros j. f_equal. f_equal. lia.
Qed.

Lemma attempt_trace_backoffs (m : nat) :
  delays (attempt_trace url chunk 1 m) = backoffs m.
Proof.
  rewrite attempt_trace_delays. unfold backoffs.
  rewrite <- seq_shift, map_map. apply map_ext. intros j. f_equal. f_equal. lia.
Qed.

End AttemptTrace.

Lemma put_events_app (l l' : list Event) :
  put_events (l ++ l') = put_events l ++ put_events l'.
Proof. apply flat_map_app. Qed.

Lemma delays_app (l l' : list Event) : delays (l ++ l') = delays l ++ delays l'.
Proof. apply flat_map_app. Qed.

Lemma upload_completes_app (l l' : list Event) :
  upload_completes (l ++ l') = upload_completes l ++ upload_completes l'.
Proof. apply flat_map_app. Qed.

Lemma stored_trace f i chunk tag t :
  exists p, trace (stored f i chunk tag t) = trace t ++ [EvSetProgress p].
Proof. eexists. unfold stored. cbv zeta. rewrite progress_effect_trace. reflexivity. Qed.

Lemma stored_parts f i chunk tag t :
  parts (stored f i chunk tag t) =
  parts t ++ [{| PartNumber := i + 1; ETag := strip_quotes tag |}].
Proof. unfold stored. cbv zeta. now rewrite progress_effect_parts. Qed.

Lemma stored_total f i chunk tag t :
  totalUploadedBytes (stored f i chunk tag t) = totalUploadedBytes t + Blob_size chunk.
Proof. unfold stored. cbv zeta. now rewrite progress_effect_total. Qed.

Lemma stored_puts_sent f i chunk tag t :
  puts_sent (stored f i chunk tag t) = puts_sent t.
Proof.
  unfold stored. cbv zeta. unfold progress_effect.
  cbn [progress with_progress]. destruct (_ =? 100); reflexivity.
Qed.

(** X2.  A chunk whose first k attempts are refused, with k below
    MAX_RETRY, and whose next attempt is answered ok with an ETag is stored:
    uploadChunkWithFetch returns normally after k + 1 PUTs of that chunk to
    that URL and waits of 20, 40, ... seconds between them, and the callback
    has appended exactly one token, numbered i + 1 and carrying the ETag
    without its quotes, and added the chunk's size to the byte count. *)
Theorem refused_then_stored env url f i chunk t st tag (k : nat) :
  (k < 5)%nat ->
  (forall a, (a < k)%nat ->
     refused (put_chunk env (a + puts_sent t) url chunk) = true) ->
  put_chunk env (k + puts_sent t) url chunk = PutResponse true st (Some tag) ->
  let result := uploadChunkWithFetch env url chunk (onProgress f i chunk) 1 t in
  fst result = Normal tt /\
  parts (snd result) =
    parts t ++ [{| PartNumber := i + 1; ETag := strip_quotes tag |}] /\
  totalUploadedBytes (snd result) = totalUploadedBytes t + Blob_size chunk /\
  put_events (trace (snd result)) =
    put_events (trace t) ++ repeat (url, chunk) (S k) /\
  delays (trace (snd result)) = delays (trace t) ++ backoffs (S k) /\
  puts_sent (snd result) = (puts_sent t + S k)%nat.
Proof.
  intros Hk R Hok result.
  assert (E : result =
              (Normal tt,
               stored f i chunk tag
                 (advance (attempt_trace url chunk 1 (S k)) (S k) t))).
  { unfold result. rewrite <- (advance_nil t) at 1.
    apply (refusals_then_ok env url f i chunk t st tag k 1 [] 0%nat);
      [ unfold MAX_RETRY; lia | intros a Ha; apply (R a Ha)
      | rewrite <- Hok; f_equal; lia ]. }
  rewrite E. cbn [fst snd].
  destruct (stored_trace f i chunk tag
              (advance (attempt_trace url chunk 1 (S k)) (S k) t)) as [p Hp].
  rewrite stored_parts, stored_total, stored_puts_sent, Hp.
  cbn [parts totalUploadedBytes trace puts_sent advance].
  rewrite !put_events_app, !delays_app, attempt_trace_puts, attempt_trace_backoffs.
  cbn [put_events delays flat_map app]. rewrite !app_nil_r.
  repeat split; reflexivity.
Qed.

Lemma refused_then_stored_witness :
  let env := disturbed_env 0 2 (PutResponse false "Forbidden" None) in
  let result :=
    uploadChunkWithFetch env (Some "u1") (chunk_at one_byte_file 0)
      (onProgress one_byte_file 0 (chunk_at one_byte_file 0)) 1
      (started env one_byte_file) in
  parts (snd result) = [{| PartNumber := 0 + 1; ETag := "abc" |}] /\
  delays (trace (snd result)) = [20000; 40000] /\
  puts_sent (snd result) = 3%nat.
Proof.
  intros env result.
  destruct (refused_then_stored env (Some "u1") one_byte_file 0
              (chunk_at one_byte_file 0) (started env one_byte_file)
              "OK" (quoted "abc") 2)
    as (_ & P & _ & _ & D & N).
  - lia.
  - intros a Ha. do 2 (destruct a as [|a]; [vm_compute; reflexivity|]). lia.
  - vm_compute. reflexivity.
  - split; [exact P|]. split; [exact D | exact N].
Defined.

(** ** The loop, attempt by attempt *)

Lemma attempts_left_one : attempts_left 1 = 4%nat.
Proof. reflexivity. Qed.

Lemma upload_body_reached env f urls ms t r s' :
  Reached env f urls ms t ->
  upload_body env f (Some urls) (Z.of_nat (List.length ms)) t = (r, s') ->
  (r = Normal tt /\ exists m, Reached env f urls (ms ++ [m]) s') \/
  (exists e, r = Throw e /\
     s' = advance (attempt_trace (nth_error urls (List.length ms))
                     (chunk_at f (Z.of_nat (List.length ms))) 1 5) 5 t).
Proof.
  intros Hreach H. unfold upload_body, url_at in H. cbv zeta in H.
  unfold bind at 1, ret in H. rewrite Nat2Z.id in H.
  rewrite <- (advance_nil t) in H at 1.
  apply (upload_attempts _ _ _ _ _ 4 1 [] 0%nat t r s' attempts_left_one) in H.
  destruct H as (m & Hm & [(e & -> & -> & ->)|(st & tag & -> & Hput & ->)]).
  - right. exists e. split; reflexivity.
  - left. split; [reflexivity|]. exists m. cbn [app Nat.add].
    apply ReachedNext with st; [assumption|lia|].
    rewrite <- Hput. f_equal. lia.
Qed.

Lemma for_loop_reached env f urls (n : nat) : forall ms t r s',
  Reached env f urls ms t ->
  for_loop n (Z.of_nat (List.length ms)) (upload_body env f (Some urls)) t = (r, s') ->
  (r = Normal tt /\
   exists ms', List.length ms' = (List.length ms + n)%nat /\ Reached env f urls ms' s') \/
  (exists e ms' t',
     r = Throw e /\
     (List.length ms <= List.length ms' < List.length ms + n)%nat /\
     Reached env f urls ms' t' /\
     s' = advance (attempt_trace (nth_error urls (List.length ms'))
                     (chunk_at f (Z.of_nat (List.length ms'))) 1 5) 5 t').
Proof.
  induction n as [|n IH]; intros ms t r s' Hreach H; cbn [for_loop] in H.
  - unfold ret in H. inversion H; subst. left. split; [reflexivity|].
    exists ms. split; [lia|assumption].
  - unfold bind in H.
    destruct (upload_body env f (Some urls) (Z.of_nat (List.length ms)) t)
      as [[[]|e] s1] eqn:E;
      apply upload_body_reached in E; try assumption.
    + destruct E as [[_ (m & Hm)]|(e & Habs & _)]; [|discriminate].
      replace (Z.of_nat (List.length ms) + 1)
        with (Z.of_nat (List.length (ms ++ [m]))) in H
        by (rewrite length_app; cbn; lia).
      apply IH in H; [|assumption]. rewrite length_app in H. cbn [List.length] in H.
      destruct H as [[-> (ms' & Hl & Hr)]|(e & ms' & t' & -> & Hl & Hr & ->)].
      * left. split; [reflexivity|]. exists ms'. split; [lia|assumption].
      * right. exists e, ms', t'. repeat split; try assumption; lia.
    + destruct E as [[Habs _]|(e' & _ & ->)]; [discriminate|].
      inversion H; subst. right. exists e, ms, t.
      repeat split; try assumption; lia.
Qed.

(** Every run whose create request was answered with a URL list ends in one
    of three ways, each after a loop described by its attempt counts. *)
Lemma final_reached env f uploadId urls :
  create_multipart env (create_request env f) = CreateJson uploadId (Some urls) ->
  (exists ms t,
     (List.length ms < Z.to_nat (chunkCount f))%nat /\
     Reached env f urls ms t /\
     final env f =
       with_message failure_message
         (advance (attempt_trace (nth_error urls (List.length ms))
                     (chunk_at f (Z.of_nat (List.length ms))) 1 5) 5 t)) \/
  (exists ms t,
     List.length ms = Z.to_nat (chunkCount f) /\
     Reached env f urls ms t /\
     ((exists e,
         complete_multipart env (complete_request env f uploadId (parts t))
           = CompleteReject e /\
         final env f =
           with_message failure_message
             (emit (EvCompleteMultipart (complete_request env f uploadId (parts t))) t)) \/
      (exists ok,
         complete_multipart env (complete_request env f uploadId (parts t))
           = CompleteResponse ok /\
         final env f =
           with_message success_message
             (emit EvUploadComplete
                (emit (EvCompleteMultipart (complete_request env f uploadId (parts t))) t))))).
Proof.
  intros Hc. unfold final. rewrite beginUpload_unfold, Hc.
  destruct (for_loop _ _ _ _) as [r t] eqn:El.
  change 0 with (Z.of_nat (List.length (@nil nat))) in El.
  apply for_loop_reached in El; [|constructor].
  destruct El as [[-> (ms & Hl & Hr)]|(e & ms & t' & -> & Hl & Hr & ->)].
  - right. exists ms, t. split; [exact Hl|]. split; [exact Hr|]. cbv zeta.
    destruct (complete_multipart env _) as [e|ok] eqn:Ef; [left|right]; eauto.
  - left. exists ms, t'. cbn [List.length] in Hl. split; [lia|]. split; [exact Hr|].
    reflexivity.
Qed.

Lemma puts_from_snoc f urls (ms : list nat) (m : nat) : forall i,
  puts_from f urls i (ms ++ [m]) =
  puts_from f urls i ms ++
  repeat (nth_error urls (i + List.length ms),
          chunk_at f (Z.of_nat (i + List.length ms))) m.
Proof.
  induction ms as [|a ms IH]; intros i; cbn [puts_from app List.length].
  - rewrite Nat.add_0_r, app_nil_r. reflexivity.
  - rewrite IH, <- app_assoc.
    replace (i + S (List.length ms))%nat with (S i + List.length ms)%nat by lia.
    reflexivity.
Qed.

Lemma puts_from_length f urls (ms : list nat) : forall i,
  List.length (puts_from f urls i ms) = list_sum ms.
Proof.
  induction ms as [|a ms IH]; intros i; [reflexivity|].
  change (list_sum (a :: ms)) with (a + list_sum ms)%nat.
  cbn [puts_from]. rewrite length_app, repeat_length, IH. reflexivity.
Qed.

Lemma puts_from_In f urls (ms : list nat) : forall i u c,
  In (u, c) (puts_from f urls i ms) ->
  exists j, (i <= j < i + List.length ms)%nat /\
            u = nth_error urls j /\ c = chunk_at f (Z.of_nat j).
Proof.
  induction ms as [|a ms IH]; intros i u c Hin; cbn [puts_from] in Hin;
    [contradiction|].
  apply in_app_or in Hin. destruct Hin as [Hin|Hin].
  - apply repeat_spec in Hin. inversion Hin; subst.
    exists i. cbn [List.length]. repeat split; lia.
  - destruct (IH _ _ _ Hin) as (j & Hj & Hu & Hc).
    exists j. cbn [List.length]. repeat split; try assumption; lia.
Qed.

Lemma list_sum_bound (ms : list nat) (b : nat) :
  Forall (fun m => (1 <= m <= b)%nat) ms ->
  (List.length ms <= list_sum ms <= b * List.length ms)%nat.
Proof.
  induction 1 as [|m ms Hm _ IH]; [cbn; lia|].
  change (list_sum (m :: ms)) with (m + list_sum ms)%nat.
  cbn [List.length]. rewrite Nat.mul_succ_r. lia.
Qed.

Lemma backoffs_bound (m : nat) :
  (1 <= m <= 5)%nat ->
  Forall (fun d => In d [20000; 40000; 60000; 80000]) (backoffs m) /\
  Zsum (backoffs m) <= 200000.
Proof.
  intros Hm.
  assert (Cases : m = 1%nat \/ m = 2%nat \/ m = 3%nat \/ m = 4%nat \/ m = 5%nat)
    by lia.
  destruct Cases as [->|[->|[->|[->| ->]]]]; cbn;
    (split; [repeat constructor; cbn; tauto | lia]).
Qed.

Lemma strip_quotes_quote_free (s : string) : quote_free (strip_quotes s).
Proof.
  unfold quote_free. induction s as [|c s IH]; cbn [strip_quotes].
  - intros H. exact H.
  - destruct (Ascii.eqb_spec c dquote) as [->|Hc]; [exact IH|].
    cbn [list_ascii_of_string]. intros H. destruct H as [H|H];
      [congruence | exact (IH H)].
Qed.

Lemma strip_quotes_id (s : string) : quote_free s -> strip_quotes s = s.
Proof.
  unfold quote_free. induction s as [|c s IH]; [reflexivity|].
  cbn [strip_quotes list_ascii_of_string]. intros H.
  destruct (Ascii.eqb_spec c dquote) as [->|Hc].
  - contradiction H. left. reflexivity.
  - f_equal. apply IH. intros Hin. apply H. right. exact Hin.
Qed.

Lemma strip_quotes_app (s s' : string) :
  strip_quotes (s ++ s') = (strip_quotes s ++ strip_quotes s')%string.
Proof.
  induction s as [|c s IH]; [reflexivity|].
  cbn [append strip_quotes]. rewrite IH.
  destruct (Ascii.eqb c dquote); reflexivity.
Qed.

(** What the log of a loop looks like: PUTs, waits, counters and tokens are
    those of its attempt counts. *)
Lemma reached_log env f urls ms t :
  Reached env f urls ms t ->
  Forall (fun m => (1 <= m <= 5)%nat) ms /\
  put_events (trace t) = puts_from f urls 0 ms /\
  delays (trace t) = flat_map backoffs ms /\
  puts_sent t = list_sum ms /\
  Forall (fun p => quote_free (ETag p)) (parts t) /\
  complete_requests (trace t) = [] /\
  upload_completes (trace t) = [] /\
  message t = "".
Proof.
  induction 1 as [|ms t m st tag Hreach IH Hm Hput].
  - repeat split; try reflexivity; constructor.
  - destruct IH as (Hms & Hputs & Hdel & Hsent & Htags & Hcomp & Hup & Hmsg).
    destruct (stored_trace f (Z.of_nat (List.length ms))
                (chunk_at f (Z.of_nat (List.length ms))) tag
                (advance (attempt_trace (nth_error urls (List.length ms))
                            (chunk_at f (Z.of_nat (List.length ms))) 1 m) m t))
      as [p Hp].
    pose proof (attempt_trace_attempts (nth_error urls (List.length ms))
                  (chunk_at f (Z.of_nat (List.length ms))) m 1) as Hatt.
    rewrite Hp, stored_parts, stored_puts_sent.
    cbn [trace parts puts_sent advance].
    rewrite !put_events_app, !delays_app, !complete_requests_app,
      !upload_completes_app, attempt_trace_puts, attempt_trace_backoffs,
      (complete_requests_attempts _ _ Hatt).
    cbn [put_events delays complete_requests upload_completes flat_map app].
    rewrite !app_nil_r.
    split; [apply Forall_app; split; [assumption|constructor; [lia|constructor]]|].
    split; [rewrite puts_from_snoc, Hputs; reflexivity|].
    split; [rewrite flat_map_app, Hdel; cbn; now rewrite app_nil_r|].
    split; [rewrite list_sum_app, Hsent; cbn; lia|].
    split; [apply Forall_app; split; [assumption|];
            constructor; [apply strip_quotes_quote_free|constructor]|].
    split; [assumption|]. split.
    + rewrite Hup. clear - Hatt. induction Hatt as [|e l He _ IHl]; [reflexivity|].
      destruct e; cbn in *; try contradiction; exact IHl.
    + unfold stored. cbv zeta. rewrite progress_effect_message. exact Hmsg.
Qed.

Lemma for_loop_no_urls env f (n : nat) i s :
  exists e,
    for_loop n i (upload_body env f None) s =
    match n with
    | O => (Normal tt, s)
    | S _ => (Throw e, s)
    end.
Proof.
  destruct n as [|n].
  - exists (Error EmptyString). reflexivity.
  - cbn [for_loop]. unfold upload_body, url_at, bind, throw. cbv zeta.
    eexists. reflexivity.
Qed.

Lemma final_logged env f : Logged env f (final env f).
Proof.
  destruct (create_multipart env (create_request env f))
    as [e|uploadId [urls|]] eqn:Hc.
  - unfold final. rewrite beginUpload_unfold, Hc. now apply LoggedCreateFailed with e.
  - assert (U : urls_of env f = urls) by (unfold urls_of; now rewrite Hc).
    destruct (final_reached env f uploadId urls Hc)
      as [(ms & t & Hl & Hr & ->)|(ms & t & Hl & Hr & [(e & He & ->)|(ok & Hok & ->)])];
      rewrite <- U in Hr.
    + apply LoggedChunkFailed with ms t; [assumption|assumption|].
      rewrite U. reflexivity.
    + now apply LoggedCompleteFailed with uploadId (Some urls) ms t e.
    + now apply LoggedFinished with uploadId (Some urls) ms t ok.
  - assert (U : urls_of env f = []) by (unfold urls_of; now rewrite Hc).
    unfold final. rewrite beginUpload_unfold, Hc.
    destruct (for_loop_no_urls env f (Z.to_nat (chunkCount f)) 0 (started env f))
      as [e0 ->].
    destruct (Z.to_nat (chunkCount f)) as [|n] eqn:En; cbn [snd].
    + cbv zeta.
      assert (Hr : Reached env f (urls_of env f) [] (started env f)) by constructor.
      destruct (complete_multipart env _) as [e|ok] eqn:Ef; cbn [snd].
      * apply LoggedCompleteFailed with uploadId None [] (started env f) e;
          try assumption; [now rewrite En | reflexivity].
      * apply LoggedFinished with uploadId None [] (started env f) ok;
          try assumption; [now rewrite En | reflexivity].
    + apply LoggedNoUrls with uploadId; [assumption|lia|reflexivity].
Qed.

Lemma exhausted_log f urls j t :
  put_events (trace (exhausted f urls j t)) =
    put_events (trace t) ++ repeat (nth_error urls j, chunk_at f (Z.of_nat j)) 5 /\
  delays (trace (exhausted f urls j t)) = delays (trace t) ++ backoffs 5 /\
  complete_requests (trace (exhausted f urls j t)) = complete_requests (trace t) /\
  upload_completes (trace (exhausted f urls j t)) = upload_completes (trace t) /\
  parts (exhausted f urls j t) = parts t /\
  puts_sent (exhausted f urls j t) = (puts_sent t + 5)%nat.
Proof.
  unfold exhausted. cbn [trace parts puts_sent advance].
  rewrite put_events_app, delays_app, complete_requests_app, upload_completes_app,
    attempt_trace_puts, attempt_trace_backoffs.
  repeat split; try reflexivity; cbn; now rewrite app_nil_r.
Qed.

(** The PUTs and waits of any run, from its attempt counts. *)
Lemma final_log env f :
  exists ms,
    (List.length ms <= Z.to_nat (chunkCount f))%nat /\
    Forall (fun m => (1 <= m <= 5)%nat) ms /\
    put_events (trace (final env f)) = puts_from f (urls_of env f) 0 ms /\
    delays (trace (final env f)) = flat_map backoffs ms /\
    puts_sent (final env f) = list_sum ms.
Proof.
  destruct (final_logged env f)
    as [e Hc ->|uploadId Hc Hn ->|ms t Hl Hr ->
        |uploadId urls ms t e Hc Hl Hr He ->|uploadId urls ms t ok Hc Hl Hr Hok ->].
  - exists []. repeat split; try reflexivity; [cbn; lia|constructor].
  - exists []. repeat split; try reflexivity; [cbn; lia|constructor].
  - destruct (reached_log _ _ _ _ _ Hr) as (Hms & Hp & Hd & Hs & _).
    destruct (exhausted_log f (urls_of env f) (List.length ms) t)
      as (Ep & Ed & _ & _ & _ & Es).
    exists (ms ++ [5%nat]). cbn [trace puts_sent with_message].
    rewrite Ep, Ed, Es, Hp, Hd, Hs, length_app, puts_from_snoc, flat_map_app,
      list_sum_app.
    cbn [List.length flat_map list_sum fold_right Nat.add]. rewrite app_nil_r.
    repeat split; try reflexivity; try lia.
    apply Forall_app. split; [assumption|constructor; [lia|constructor]].
  - destruct (reached_log _ _ _ _ _ Hr) as (Hms & Hp & Hd & Hs & _).
    exists ms. cbn [trace puts_sent with_message emit].
    rewrite put_events_app, delays_app, Hp, Hd, Hs. cbn. rewrite !app_nil_r.
    repeat split; try reflexivity; try assumption; lia.
  - destruct (reached_log _ _ _ _ _ Hr) as (Hms & Hp & Hd & Hs & _).
    exists ms. cbn [trace puts_sent with_message emit].
    rewrite !put_events_app, !delays_app, Hp, Hd, Hs. cbn. rewrite !app_nil_r.
    repeat split; try reflexivity; try assumption; lia.
Qed.

(** ** What a run sends, and where *)

(** X3.  In every run the chunk PUTs are, in this order, some PUTs of chunk 0
    to preSignedUrls[0], then some of chunk 1 to preSignedUrls[1], and so on:
    each chunk that is reached is PUT between one and five times, always to
    the URL at its own index, and every PUT of a chunk comes before any PUT
    of the next one. *)
Theorem puts_follow_urls env f :
  exists ms,
    (List.length ms <= Z.to_nat (chunkCount f))%nat /\
    Forall (fun m => (1 <= m <= 5)%nat) ms /\
    put_events (trace (final env f)) = puts_from f (urls_of env f) 0 ms /\
    (forall u c, In (u, c) (put_events (trace (final env f))) ->
       exists j, (j < Z.to_nat (chunkCount f))%nat /\
                 u = nth_error (urls_of env f) j /\
                 c = chunk_at f (Z.of_nat j)).
Proof.
  destruct (final_log env f) as (ms & Hl & Hms & Hp & _).
  exists ms. repeat split; try assumption.
  intros u c Hin. rewrite Hp in Hin.
  destruct (puts_from_In _ _ _ _ _ _ Hin) as (j & Hj & Hu & Hc).
  exists j. repeat split; try assumption. lia.
Qed.

Lemma backoffs_all_bounded (ms : list nat) :
  Forall (fun m => (1 <= m <= 5)%nat) ms ->
  Forall (fun d => In d [20000; 40000; 60000; 80000]) (flat_map backoffs ms) /\
  Zsum (flat_map backoffs ms) <= 200000 * Z.of_nat (List.length ms).
Proof.
  induction 1 as [|m ms Hm _ [IHf IHs]]; [split; [constructor|cbn; lia]|].
  destruct (backoffs_bound m Hm) as [Hf Hs].
  cbn [flat_map List.length]. rewrite Zsum_app. split.
  - apply Forall_app. split; assumption.
  - lia.
Qed.

(** X4.  A run makes at most five PUTs per chunk, 5 * chunkCount in all; it
    only ever waits 20, 40, 60 or 80 seconds, at most 200 seconds per chunk;
    and the number of PUTs the network received is the number the trace
    shows. *)
Theorem attempts_and_waits_bounded env f :
  0 <= size f ->
  Z.of_nat (List.length (put_events (trace (final env f)))) <= 5 * chunkCount f /\
  puts_sent (final env f) = List.length (put_events (trace (final env f))) /\
  Forall (fun d => In d [20000; 40000; 60000; 80000]) (delays (trace (final env f))) /\
  Zsum (delays (trace (final env f))) <= 200000 * chunkCount f.
Proof.
  intros Hs. pose proof (chunkCount_nonneg f Hs) as Hn.
  destruct (final_log env f) as (ms & Hl & Hms & Hp & Hd & Hsent).
  destruct (backoffs_all_bounded ms Hms) as [Hf Hsum].
  pose proof (list_sum_bound ms 5 Hms) as Hb.
  rewrite Hp, Hd, Hsent, puts_from_length.
  repeat split; try assumption; lia.
Qed.

Lemma attempts_and_waits_bounded_witness :
  let env := disturbed_env 1 5 (PutResponse false "Service Unavailable" None) in
  0 <= size sample_file /\
  List.length (put_events (trace (final env sample_file))) = 6%nat /\
  Zsum (delays (trace (final env sample_file))) = 200000 /\
  Z.of_nat (List.length (put_events (trace (final env sample_file))))
    <= 5 * chunkCount sample_file.
Proof.
  intros env.
  assert (Hs : 0 <= size sample_file) by (cbn; lia).
  destruct (attempts_and_waits_bounded env sample_file Hs) as (Hb & _).
  split; [exact Hs|]. split; [vm_compute; reflexivity|].
  split; [vm_compute; reflexivity | exact Hb].
Defined.

(** ** The tokens *)

Lemma logged_complete_requests env f s :
  Logged env f s ->
  complete_requests (trace s) = [] \/
  exists uploadId ms t,
    Reached env f (urls_of env f) ms t /\
    complete_requests (trace s) = [complete_request env f uploadId (parts t)].
Proof.
  intros [e Hc ->|uploadId Hc Hn ->|ms t Hl Hr ->
         |uploadId urls ms t e Hc Hl Hr He ->|uploadId urls ms t ok Hc Hl Hr Hok ->].
  - left. reflexivity.
  - left. reflexivity.
  - left. cbn [trace with_message].
    destruct (exhausted_log f (urls_of env f) (List.length ms) t) as (_ & _ & -> & _).
    apply (reached_log _ _ _ _ _ Hr).
  - right. exists uploadId, ms, t. split; [assumption|]. cbn [trace with_message emit].
    rewrite complete_requests_app.
    destruct (reached_log _ _ _ _ _ Hr) as (_ & _ & _ & _ & _ & -> & _). reflexivity.
  - right. exists uploadId, ms, t. split; [assumption|]. cbn [trace with_message emit].
    rewrite !complete_requests_app.
    destruct (reached_log _ _ _ _ _ Hr) as (_ & _ & _ & _ & _ & -> & _). reflexivity.
Qed.

(** X5.  Every ETag a run submits at finalization is free of double quotes,
    whatever the storage answered; stripping removes exactly the quotes: an
    ETag sent between quotes is recorded as the text between them, and
    stripping twice changes nothing. *)
Theorem tokens_are_unquoted :
  (forall env f body,
     In body (complete_requests (trace (final env f))) ->
     Forall (fun p => quote_free (ETag p)) (cp_parts body)) /\
  (forall tag, quote_free tag -> strip_quotes (quoted tag) = tag) /\
  (forall tag, strip_quotes (strip_quotes tag) = strip_quotes tag).
Proof.
  split; [|split].
  - intros env f body Hin.
    destruct (logged_complete_requests env f _ (final_logged env f))
      as [E|(uploadId & ms & t & Hr & E)]; rewrite E in Hin; [contradiction|].
    destruct Hin as [<-|[]]. cbn [cp_parts complete_request].
    apply (reached_log _ _ _ _ _ Hr).
  - intros tag Hq. unfold quoted. cbn [strip_quotes].
    rewrite Ascii.eqb_refl, strip_quotes_app. cbn [strip_quotes].
    rewrite Ascii.eqb_refl, strip_quotes_id by assumption.
    clear. induction tag as [|c tag IH]; cbn; [reflexivity|now rewrite IH].
  - intros tag. apply strip_quotes_id, strip_quotes_quote_free.
Qed.

Lemma tokens_are_unquoted_witness :
  map ETag (parts (final smooth_env sample_file)) = ["abc"; "abc"; "abc"] /\
  strip_quotes (quoted "abc") = "abc" /\
  Forall (fun p => quote_free (ETag p))
    (cp_parts (complete_request smooth_env sample_file (Some "upload-1")
                 (parts (final smooth_env sample_file)))).
Proof.
  destruct tokens_are_unquoted as (Hrun & Hround & _).
  split; [vm_compute; reflexivity|]. split.
  - apply Hround. unfold quote_free. cbn. intros H.
    repeat (destruct H as [H|H]; [discriminate H|]). exact H.
  - apply (Hrun smooth_env sample_file). vm_compute. left. reflexivity.
Defined.

(** ** The complete request and the end of a run *)

Lemma reached_nil env f urls t : Reached env f urls [] t -> t = started env f.
Proof.
  intros H. inversion H as [|ms t' m st tag _ _ _ Hms]; [reflexivity|].
  destruct ms; discriminate Hms.
Qed.

Lemma reached_parts_length env f urls ms t :
  Reached env f urls ms t -> List.length (parts t) = List.length ms.
Proof.
  induction 1 as [|ms t m st tag _ IH _ _]; [reflexivity|].
  rewrite stored_parts, !length_app. cbn [parts advance List.length]. lia.
Qed.

(** X6.  The answer to the complete request is never inspected: as soon as
    it arrives, with an ok status or not, onUploadComplete is called, once
    and right after the request, and the success message is set.  In every
    other run, that is whenever no complete request was sent and answered,
    onUploadComplete is not called and the failure message is set. *)
Theorem answered_means_success env f :
  (forall body ok,
     In body (complete_requests (trace (final env f))) ->
     complete_multipart env body = CompleteResponse ok ->
     message (final env f) = success_message /\
     upload_completes (trace (final env f)) = [tt] /\
     exists pre,
       trace (final env f) = pre ++ [EvCompleteMultipart body; EvUploadComplete]) /\
  (~ (exists body ok,
        In body (complete_requests (trace (final env f))) /\
        complete_multipart env body = CompleteResponse ok) ->
   message (final env f) = failure_message /\
   upload_completes (trace (final env f)) = []).
Proof.
  destruct (final_logged env f)
    as [e Hc E|uploadId Hc Hn E|ms t Hl Hr E
        |uploadId urls ms t e Hc Hl Hr He E|uploadId urls ms t ok Hc Hl Hr Hok E];
    rewrite E; clear E.
  - split; [intros body ok []|]. intros _. split; reflexivity.
  - split; [intros body ok []|]. intros _. split; reflexivity.
  - destruct (exhausted_log f (urls_of env f) (List.length ms) t)
      as (_ & _ & Ec & Eu & _).
    destruct (reached_log _ _ _ _ _ Hr) as (_ & _ & _ & _ & _ & Hcomp & Hup & _).
    cbn [trace message with_message]. rewrite Ec, Eu, Hcomp, Hup.
    split; [intros body ok []|]. intros _. split; reflexivity.
  - destruct (reached_log _ _ _ _ _ Hr) as (_ & _ & _ & _ & _ & Hcomp & Hup & _).
    cbn [trace message with_message emit].
    rewrite complete_requests_app, upload_completes_app, Hcomp, Hup.
    split; [|intros _; split; reflexivity].
    intros body ok [<-|[]] Habs. congruence.
  - destruct (reached_log _ _ _ _ _ Hr) as (_ & _ & _ & _ & _ & Hcomp & Hup & _).
    cbn [trace message with_message emit].
    rewrite !complete_requests_app, !upload_completes_app, Hcomp, Hup.
    split.
    + intros body ok' [<-|[]] _. split; [reflexivity|]. split; [reflexivity|].
      exists (trace t). now rewrite <- app_assoc.
    + intros H. contradiction H.
      exists (complete_request env f uploadId (parts t)), ok.
      split; [left; reflexivity|exact Hok].
Qed.

Lemma answered_means_success_witness :
  let env := error_body_env in
  message (final env empty_file) = success_message /\
  upload_completes (trace (final env empty_file)) = [tt] /\
  ~ (exists body ok,
       In body (complete_requests (trace (final unfinalized_env sample_file))) /\
       complete_multipart unfinalized_env body = CompleteResponse ok) /\
  message (final unfinalized_env sample_file) = failure_message /\
  upload_completes (trace (final unfinalized_env sample_file)) = [].
Proof.
  intros env.
  destruct (answered_means_success env empty_file) as [Hok _].
  destruct (answered_means_success unfinalized_env sample_file) as [_ Hko].
  assert (Hnot : ~ (exists body ok,
             In body (complete_requests (trace (final unfinalized_env sample_file))) /\
             complete_multipart unfinalized_env body = CompleteResponse ok)).
  { intros (body & ok & _ & Habs). discriminate Habs. }
  destruct (Hok (complete_request env empty_file None []) false) as (M & U & _).
  - vm_compute. left. reflexivity.
  - reflexivity.
  - destruct (Hko Hnot) as (M' & U').
    split; [exact M|]. split; [exact U|]. split; [exact Hnot|].
    split; [exact M'|exact U'].
Defined.

(** X7.  When the create request is answered without a URL list (as by the
    server's 500 body) and the file is not empty, reading preSignedUrls[0]
    throws: the run ends with the failure message, having sent no chunk and
    no complete request, with progress left at 0, the file still selected
    and both controls disabled. *)
Theorem missing_url_list_aborts env f uploadId :
  0 < size f ->
  create_multipart env (create_request env f) = CreateJson uploadId None ->
  message (final env f) = failure_message /\
  put_events (trace (final env f)) = [] /\
  complete_requests (trace (final env f)) = [] /\
  progress (final env f) = Some 0 /\
  file (final env f) = Some f /\
  controls_disabled (final env f) = true.
Proof.
  intros Hpos Hc. pose proof (chunkCount_pos f Hpos) as Hn.
  unfold final. rewrite beginUpload_unfold, Hc.
  destruct (for_loop_no_urls env f (Z.to_nat (chunkCount f)) 0 (started env f))
    as [e0 ->].
  destruct (Z.to_nat (chunkCount f)) eqn:En; [lia|].
  repeat split; reflexivity.
Qed.

Lemma missing_url_list_aborts_witness :
  0 < size sample_file /\
  message (final error_body_env sample_file) = failure_message /\
  controls_disabled (final error_body_env sample_file) = true.
Proof.
  assert (Hpos : 0 < size sample_file) by (cbn; lia).
  destruct (missing_url_list_aborts error_body_env sample_file None Hpos eq_refl)
    as (M & _ & _ & _ & _ & D).
  split; [exact Hpos|]. split; [exact M | exact D].
Defined.

(** X8.  A run never leaves progress unset.  So after a run both controls
    are enabled exactly when progress is 100; and a run of a non-empty file
    that fails before its first chunk is stored (the create request fails,
    or chunk 0 uses up its attempts) ends with progress 0, the file still
    selected and both controls disabled. *)
Theorem controls_after_run env f :
  0 <= size f ->
  progress (final env f) <> None /\
  (controls_disabled (final env f) = false <-> progress (final env f) = Some 100) /\
  (0 < size f ->
   parts (final env f) = [] ->
   message (final env f) = failure_message /\
   progress (final env f) = Some 0 /\
   file (final env f) = Some f /\
   controls_disabled (final env f) = true).
Proof.
  intros Hs.
  destruct (beginUpload_ended env f Hs) as [_ E].
  destruct (ended_progress env f _ E) as [P _].
  split; [rewrite P; discriminate|]. split.
  - unfold controls_disabled. rewrite P.
    destruct (Z.eqb_spec (last (progress_values (trace (final env f))) 0) 100) as [->|Hne];
      cbn; split; intros H; try reflexivity; try discriminate H.
    injection H as H. contradiction.
  - intros Hpos Hparts. pose proof (chunkCount_pos f Hpos) as Hn.
    destruct (final_logged env f)
      as [e Hc El|uploadId Hc _ El|ms t Hl Hr El
          |uploadId urls ms t e Hc Hl Hr He El|uploadId urls ms t ok Hc Hl Hr Hok El];
      rewrite El in *; clear El.
    + repeat split; reflexivity.
    + repeat split; reflexivity.
    + pose proof (reached_parts_length _ _ _ _ _ Hr) as Hlen.
      cbn [parts with_message exhausted advance] in Hparts.
      rewrite Hparts in Hlen. destruct ms; [|discriminate Hlen].
      apply reached_nil in Hr. subst t. repeat split; reflexivity.
    + pose proof (reached_parts_length _ _ _ _ _ Hr) as Hlen.
      cbn [parts with_message emit] in Hparts. rewrite Hparts in Hlen.
      cbn [List.length] in Hlen. lia.
    + pose proof (reached_parts_length _ _ _ _ _ Hr) as Hlen.
      cbn [parts with_message emit] in Hparts. rewrite Hparts in Hlen.
      cbn [List.length] in Hlen. lia.
Qed.

Lemma controls_after_run_witness :
  let env := disturbed_env 0 5 (PutReject (TypeError "Failed to fetch")) in
  0 <= size sample_file /\
  parts (final env sample_file) = [] /\
  progress (final env sample_file) = Some 0 /\
  controls_disabled (final env sample_file) = true /\
  (controls_disabled (final smooth_env sample_file) = false <->
   progress (final smooth_env sample_file) = Some 100).
Proof.
  intros env.
  assert (Hs : 0 <= size sample_file) by (cbn; lia).
  assert (Hpos : 0 < size sample_file) by (cbn; lia).
  assert (Hparts : parts (final env sample_file) = []) by (vm_compute; reflexivity).
  destruct (controls_after_run env sample_file Hs) as (_ & _ & Hfail).
  destruct (Hfail Hpos Hparts) as (_ & P & _ & D).
  destruct (controls_after_run smooth_env sample_file Hs) as (_ & Hiff & _).
  split; [exact Hs|]. split; [exact Hparts|]. split; [exact P|].
  split; [exact D | exact Hiff].
Defined.

(** X9.  Once a run has brought progress to 100 the file state is cleared,
    so pressing Upload again does nothing at all (no request, no state
    change) until a file is chosen anew, also when finalization failed. *)
Theorem upload_again_does_nothing env f env' :
  0 <= size f ->
  progress (final env f) = Some 100 ->
  file (final env f) = None /\
  handleUpload env' (final env f) = (Normal tt, final env f).
Proof.
  intros Hs P.
  assert (F : file (final env f) = None).
  { destruct (beginUpload_ended env f Hs) as [_ E].
    destruct E as [e Hc Es|j t Hj C Es|t uploadId e C Hf Es|t uploadId ok C Hf Es];
      rewrite Es in *; clear Es.
    - discriminate P.
    - apply (col_effect _ _ _ _ C P).
    - apply (col_effect _ _ _ _ C P).
    - apply (col_effect _ _ _ _ C P). }
  split; [exact F|].
  unfold handleUpload, bind, gets, ret. rewrite F. reflexivity.
Qed.

Lemma upload_again_does_nothing_witness :
  0 <= size sample_file /\
  message (final unfinalized_env sample_file) = failure_message /\
  handleUpload smooth_env (final unfinalized_env sample_file) =
    (Normal tt, final unfinalized_env sample_file).
Proof.
  assert (Hs : 0 <= size sample_file) by (cbn; lia).
  assert (P : progress (final unfinalized_env sample_file) = Some 100)
    by (vm_compute; reflexivity).
  destruct (upload_again_does_nothing unfinalized_env sample_file smooth_env Hs P)
    as [_ H].
  split; [exact Hs|]. split; [vm_compute; reflexivity | exact H].
Defined.

(** ** The file controller: finalization *)

(** The document [completeMultipartUpload] saves for a request. *)
Lemma completeMultipartUpload_unfold env req s :
  FC.completeMultipartUpload env req s =
  let params := complete_params env req in
  let get := {| FC.g_Bucket := FC.AWS_BUCKET_NAME env; FC.g_Key := FC.c_fileName req;
                FC.g_Expires := FC.EXPIRATION_HOURS |} in
  let newFile := {| FC.file_name := FC.c_fileName req; FC.file_size := FC.c_fileSize req;
                    FC.s3Key := FC.c_fileName req; FC.uploadDate := FC.Date_now env |} in
  let answer (docs : list FC.FileDoc) (c : Z) (b : FC.Body) (l : list FC.Call) :=
    (Normal tt,
     {| FC.documents := docs;
        FC.response := Some {| FC.status := c; FC.body := b |};
        FC.calls := FC.calls s ++ l |}) in
  match FC.s3_completeMultipartUpload env params with
  | inl e =>
      answer (FC.documents s) 500 (FC.ErrorBody (error_message e))
        [FC.CallCompleteMultipartUpload params]
  | inr _ =>
      match FC.s3_getSignedUrl_getObject env get with
      | inl e =>
          answer (FC.documents s) 500 (FC.ErrorBody (error_message e))
            [FC.CallCompleteMultipartUpload params; FC.CallSignGetObject get]
      | inr downloadUrl =>
          match FC.File_save env newFile with
          | Some e =>
              answer (FC.documents s) 500 (FC.ErrorBody (error_message e))
                [FC.CallCompleteMultipartUpload params; FC.CallSignGetObject get;
                 FC.CallSave newFile]
          | None =>
              answer (FC.documents s ++ [newFile]) 200
                (FC.CompletedBody "File uploaded successfully!" downloadUrl)
                [FC.CallCompleteMultipartUpload params; FC.CallSignGetObject get;
                 FC.CallSave newFile]
          end
      end
  end.
Proof.
  unfold FC.completeMultipartUpload. fold (complete_params env req).
  cbv zeta. run_server.
  destruct (FC.s3_completeMultipartUpload env (complete_params env req)) as [e|[]];
    cbn [FC.calls FC.documents FC.response]; [reflexivity|].
  destruct (FC.s3_getSignedUrl_getObject env _) as [e|url];
    cbn [FC.calls FC.documents FC.response];
    [now rewrite <- app_assoc|].
  destruct (FC.File_save env _) as [e|];
    cbn [FC.calls FC.documents FC.response]; now rewrite <- !app_assoc.
Qed.

(** X10.  completeMultipartUpload never rejects and always answers, with 200
    or 500.  It answers 200 exactly when S3 assembles the object, the
    download URL is signed (for the bucket, the key fileName and the fixed
    expiry) and the save succeeds; the body then carries that very URL and
    the stored documents grow by the single document (fileName, fileSize,
    key fileName, the current time).  Otherwise it answers 500, the
    documents are unchanged and the body carries the message of the first
    step that failed: the assembly, else the signing, else the save. *)
Theorem finalization_stores_iff_ok env req s :
  let s' := snd (FC.completeMultipartUpload env req s) in
  let get := {| FC.g_Bucket := FC.AWS_BUCKET_NAME env; FC.g_Key := FC.c_fileName req;
                FC.g_Expires := FC.EXPIRATION_HOURS |} in
  let newFile := {| FC.file_name := FC.c_fileName req; FC.file_size := FC.c_fileSize req;
                    FC.s3Key := FC.c_fileName req; FC.uploadDate := FC.Date_now env |} in
  fst (FC.completeMultipartUpload env req s) = Normal tt /\
  ((exists downloadUrl,
      FC.s3_completeMultipartUpload env (complete_params env req) = inr tt /\
      FC.s3_getSignedUrl_getObject env get = inr downloadUrl /\
      FC.File_save env newFile = None /\
      FC.response s' =
        Some {| FC.status := 200;
                FC.body := FC.CompletedBody "File uploaded successfully!" downloadUrl |} /\
      FC.documents s' = FC.documents s ++ [newFile] /\
      saves (FC.calls s') = saves (FC.calls s) ++ [newFile]) \/
   (exists e,
      (FC.s3_completeMultipartUpload env (complete_params env req) = inl e \/
       (FC.s3_completeMultipartUpload env (complete_params env req) = inr tt /\
        FC.s3_getSignedUrl_getObject env get = inl e) \/
       (FC.s3_completeMultipartUpload env (complete_params env req) = inr tt /\
        (exists downloadUrl, FC.s3_getSignedUrl_getObject env get = inr downloadUrl) /\
        FC.File_save env newFile = Some e)) /\
      FC.response s' =
        Some {| FC.status := 500; FC.body := FC.ErrorBody (error_message e) |} /\
      FC.documents s' = FC.documents s)) /\
  (option_map FC.status (FC.response s') = Some 200 <->
   FC.s3_completeMultipartUpload env (complete_params env req) = inr tt /\
   (exists downloadUrl, FC.s3_getSignedUrl_getObject env get = inr downloadUrl) /\
   FC.File_save env newFile = None).
Proof.
  intros s' get newFile. unfold s'. rewrite completeMultipartUpload_unfold. cbv zeta.
  fold get. fold newFile.
  destruct (FC.s3_completeMultipartUpload env (complete_params env req)) as [e|[]] eqn:Ec.
  - split; [reflexivity|]. split.
    + right. exists e. cbn. auto.
    + cbn. split; [intros H; discriminate H|intros (H & _); discriminate H].
  - destruct (FC.s3_getSignedUrl_getObject env get) as [e|url] eqn:Eg.
    + split; [reflexivity|]. split.
      * right. exists e. cbn. auto.
      * cbn. split; [intros H; discriminate H|intros (_ & (u & H) & _); discriminate H].
    + destruct (FC.File_save env newFile) as [e|] eqn:Es.
      * split; [reflexivity|]. split.
        -- right. exists e. cbn. split; [|split; reflexivity].
           right. right. split; [reflexivity|]. split; [exists url; reflexivity|reflexivity].
        -- cbn. split; [intros H; discriminate H|intros (_ & _ & H); discriminate H].
      * split; [reflexivity|]. split.
        -- left. exists url. cbn [snd FC.response FC.documents FC.calls].
           repeat (split; [reflexivity|]).
           unfold saves. rewrite flat_map_app. reflexivity.
        -- cbn. split; [intros _|reflexivity].
           split; [reflexivity|]. split; [exists url; reflexivity|reflexivity].
Qed.

(** X11.  When S3 has assembled the object and signed the download URL but
    the save fails, the answer is a 500 with the save error's message and
    nothing is stored, although the complete call was made: the object
    exists in the bucket without a document. *)
Theorem save_failure_leaves_object_unlisted env req s downloadUrl e :
  FC.s3_completeMultipartUpload env (complete_params env req) = inr tt ->
  FC.s3_getSignedUrl_getObject env
    {| FC.g_Bucket := FC.AWS_BUCKET_NAME env; FC.g_Key := FC.c_fileName req;
       FC.g_Expires := FC.EXPIRATION_HOURS |} = inr downloadUrl ->
  FC.File_save env
    {| FC.file_name := FC.c_fileName req; FC.file_size := FC.c_fileSize req;
       FC.s3Key := FC.c_fileName req; FC.uploadDate := FC.Date_now env |} = Some e ->
  let s' := snd (FC.completeMultipartUpload env req s) in
  FC.response s' =
    Some {| FC.status := 500; FC.body := FC.ErrorBody (error_message e) |} /\
  FC.documents s' = FC.documents s /\
  In (FC.CallCompleteMultipartUpload (complete_params env req)) (FC.calls s').
Proof.
  intros Hc Hg Hs s'. unfold s'. rewrite completeMultipartUpload_unfold. cbv zeta.
  rewrite Hc, Hg, Hs. cbn. repeat split.
  apply in_or_app. right. left. reflexivity.
Qed.

Lemma finalization_stores_iff_ok_witness :
  FC.documents (snd (FC.completeMultipartUpload sample_s3 in_order (FC.serving [older_doc])))
  = [older_doc;
     {| FC.file_name := "17_report.pdf"; FC.file_size := 6000000;
        FC.s3Key := "17_report.pdf"; FC.uploadDate := 1700000000000 |}] /\
  option_map FC.status
    (FC.response (snd (FC.completeMultipartUpload sample_s3 in_order (FC.serving [older_doc]))))
  = Some 200 /\
  fst (FC.completeMultipartUpload sample_s3 out_of_order (FC.serving [older_doc]))
  = Normal tt.
Proof.
  split; [vm_compute; reflexivity|]. split.
  - apply (proj2 (proj2 (finalization_stores_iff_ok sample_s3 in_order
                           (FC.serving [older_doc])))).
    split; [reflexivity|]. split; [eexists; reflexivity|reflexivity].
  - exact (proj1 (finalization_stores_iff_ok sample_s3 out_of_order (FC.serving [older_doc]))).
Defined.

Lemma save_failure_leaves_object_unlisted_witness :
  FC.documents (snd (FC.completeMultipartUpload unsaved_s3 in_order (FC.serving [older_doc])))
  = [older_doc] /\
  FC.response (snd (FC.completeMultipartUpload unsaved_s3 in_order (FC.serving [older_doc])))
  = Some {| FC.status := 500; FC.body := FC.ErrorBody "MongoNetworkError" |}.
Proof.
  destruct (save_failure_leaves_object_unlisted unsaved_s3 in_order
              (FC.serving [older_doc]) "https://bucket/17_report.pdf"
              (Error "MongoNetworkError") eq_refl eq_refl eq_refl)
    as (R & D & _).
  split; [exact D | exact R].
Defined.

(** ** The file controller: opening a session *)

Lemma sign_parts_fails env Key UploadId (n : nat) : forall i urls s (k : nat) e,
  (1 <= k <= n)%nat ->
  (forall j, (1 <= j < k)%nat ->
     exists u, signed env Key UploadId (i + Z.of_nat j) = inr u) ->
  signed env Key UploadId (i + Z.of_nat k) = inl e ->
  exists s',
    FC.sign_parts env Key UploadId n i urls s = (Throw e, s') /\
    FC.documents s' = FC.documents s /\
    FC.response s' = FC.response s /\
    FC.calls s' =
      FC.calls s ++
      map (fun j => FC.CallSignUploadPart (part_params env Key UploadId (i + Z.of_nat j)))
        (seq 1 k).
Proof.
  induction n as [|n IH]; intros i urls s k e Hk Hok Hfail; [lia|].
  cbn [FC.sign_parts]. run_server.
  fold (part_params env Key UploadId (i + 1)).
  fold (signed env Key UploadId (i + 1)).
  destruct (Nat.eq_dec k 1) as [->|Hk1].
  - replace (i + Z.of_nat 1) with (i + 1) in * by lia. rewrite Hfail.
    eexists. repeat split.
  - destruct (Hok 1%nat ltac:(lia)) as [u Hu].
    replace (i + Z.of_nat 1) with (i + 1) in Hu by lia. rewrite Hu.
    destruct (IH (i + 1) (urls ++ [u])
                {| FC.documents := FC.documents s; FC.response := FC.response s;
                   FC.calls := FC.calls s ++
                     [FC.CallSignUploadPart (part_params env Key UploadId (i + 1))] |}
                (k - 1)%nat e ltac:(lia))
      as (s' & E & D & R & C).
    + intros j Hj. destruct (Hok (S j) ltac:(lia)) as [u' Hu'].
      exists u'. rewrite <- Hu'. f_equal. lia.
    + rewrite <- Hfail. f_equal. lia.
    + exists s'. split; [exact E|]. split; [exact D|]. split; [exact R|].
      rewrite C. cbn [FC.calls]. rewrite <- app_assoc. f_equal.
      replace k with (S (k - 1)) at 2 by lia.
      cbn [seq map app]. replace (i + Z.of_nat 1) with (i + 1) by lia. f_equal.
      rewrite <- (seq_shift (k - 1) 1), map_map.
      apply map_ext. intros j. do 2 f_equal. lia.
Qed.

(** X12.  When S3 opens the session but fails to sign part k, having signed
    the parts before it, createMultipartUpload answers 500 with that error's
    message instead of any URL; it stops signing at part k; and the session it
    opened is left behind (no abort call exists). *)
Theorem signing_failure_answers_500 env req docs uploadId (k : nat) e :
  FC.s3_createMultipartUpload env (create_params env req) = inr uploadId ->
  (1 <= k <= Z.to_nat (FC.chunkCount req))%nat ->
  (forall j, (1 <= j < k)%nat ->
     exists u, signed env (FC.fileName req) uploadId (Z.of_nat j) = inr u) ->
  signed env (FC.fileName req) uploadId (Z.of_nat k) = inl e ->
  let result := FC.createMultipartUpload env req (FC.serving docs) in
  fst result = Normal tt /\
  FC.response (snd result) =
    Some {| FC.status := 500; FC.body := FC.ErrorBody (error_message e) |} /\
  FC.calls (snd result) =
    FC.CallCreateMultipartUpload (create_params env req)
    :: map (fun j => FC.CallSignUploadPart
                       (part_params env (FC.fileName req) uploadId (Z.of_nat j)))
         (seq 1 k) /\
  FC.documents (snd result) = docs.
Proof.
  intros Hc Hk Hok Hfail result. unfold result.
  rewrite createMultipartUpload_unfold, Hc. cbv zeta.
  destruct (sign_parts_fails env (FC.fileName req) uploadId
              (Z.to_nat (FC.chunkCount req)) 0 []
              (FC.log (FC.CallCreateMultipartUpload (create_params env req))
                 (FC.serving docs)) k e Hk)
    as (s' & E & D & R & C).
  - intros j Hj. destruct (Hok j Hj) as [u Hu]. exists u. exact Hu.
  - exact Hfail.
  - rewrite E. cbn [fst snd FC.response FC.calls FC.documents].
    rewrite C, D. cbn. repeat split.
Qed.

Lemma signing_failure_answers_500_witness :
  let result := FC.createMultipartUpload third_part_unsigned_s3 sample_create (FC.serving []) in
  FC.response (snd result) =
    Some {| FC.status := 500; FC.body := FC.ErrorBody "CredentialsError" |} /\
  map FC.u_PartNumber (sign_calls (FC.calls (snd result))) = [1; 2; 3].
Proof.
  intros result.
  destruct (signing_failure_answers_500 third_part_unsigned_s3 sample_create []
              "upload-1" 3 (Error "CredentialsError") eq_refl)
    as (_ & R & C & _).
  - vm_compute. lia.
  - intros j Hj. assert (Cases : j = 1%nat \/ j = 2%nat) by lia.
    destruct Cases as [-> | ->]; eexists; reflexivity.
  - reflexivity.
  - split; [exact R|]. unfold result. rewrite C. reflexivity.
Defined.

Lemma sign_parts_calls env Key UploadId (n : nat) : forall i urls s,
  exists k,
    (k <= n)%nat /\
    FC.calls (snd (FC.sign_parts env Key UploadId n i urls s)) =
      FC.calls s ++
      map (fun j => FC.CallSignUploadPart (part_params env Key UploadId (i + Z.of_nat j)))
        (seq 1 k).
Proof.
  induction n as [|n IH]; intros i urls s; cbn [FC.sign_parts].
  - exists 0%nat. split; [lia|]. cbn. now rewrite app_nil_r.
  - run_server.
    fold (part_params env Key UploadId (i + 1)).
    destruct (FC.s3_getSignedUrlPromise_uploadPart env _) as [e|u].
    + exists 1%nat. split; [lia|]. cbn [snd FC.calls seq map].
      replace (i + Z.of_nat 1) with (i + 1) by lia. reflexivity.
    + destruct (IH (i + 1) (urls ++ [u])
                  {| FC.documents := FC.documents s; FC.response := FC.response s;
                     FC.calls := FC.calls s ++
                       [FC.CallSignUploadPart (part_params env Key UploadId (i + 1))] |})
        as (k & Hk & C).
      exists (S k). split; [lia|]. rewrite C. cbn [FC.calls].
      rewrite <- app_assoc. f_equal. cbn [seq map app].
      replace (i + Z.of_nat 1) with (i + 1) by lia. f_equal.
      rewrite <- (seq_shift k 1), map_map.
      apply map_ext. intros j. do 2 f_equal. lia.
Qed.

(** X13.  createMultipartUpload never stores, changes or saves a document,
    whatever S3 does.  Per call it opens one session and then signs parts
    1, 2, ... in order, at most chunkCount of them, each for the key fileName
    with Expires = EXPIRATION_HOURS, and makes no other call; with a
    chunkCount of zero or less it signs nothing and, once the session is
    open, answers 200 with an empty URL list. *)
Theorem session_creation_frame env req s :
  let s' := snd (FC.createMultipartUpload env req s) in
  FC.documents s' = FC.documents s /\
  (exists signs,
     FC.calls s' =
       FC.calls s ++ FC.CallCreateMultipartUpload (create_params env req)
                     :: map FC.CallSignUploadPart signs /\
     (List.length signs <= Z.to_nat (FC.chunkCount req))%nat /\
     map FC.u_PartNumber signs = map Z.of_nat (seq 1 (List.length signs)) /\
     Forall (fun p => FC.u_Key p = FC.fileName req /\
                      FC.u_Expires p = FC.EXPIRATION_HOURS) signs) /\
  (FC.chunkCount req <= 0 ->
   forall uploadId,
     FC.s3_createMultipartUpload env (create_params env req) = inr uploadId ->
     FC.response s' =
       Some {| FC.status := 200; FC.body := FC.CreatedBody uploadId [] |}).
Proof.
  intros s'. unfold s'. rewrite createMultipartUpload_unfold. cbv zeta.
  destruct (FC.s3_createMultipartUpload env (create_params env req)) as [e|U] eqn:Ec.
  - cbn [snd FC.documents FC.calls FC.log]. split; [reflexivity|]. split.
    + exists []. repeat split; try reflexivity; [cbn; lia|constructor].
    + intros _ uploadId H. discriminate H.
  - set (s0 := FC.log (FC.CallCreateMultipartUpload (create_params env req)) s).
    destruct (sign_parts_calls env (FC.fileName req) U
                (Z.to_nat (FC.chunkCount req)) 0 [] s0) as (k & Hk & C).
    destruct (FC.sign_parts env (FC.fileName req) U (Z.to_nat (FC.chunkCount req)) 0 [] s0)
      as [r s1] eqn:Es.
    pose proof (sign_parts_spec _ _ _ _ _ _ _ _ _ Es) as (D & _ & _ & _).
    cbn [snd] in C.
    assert (Frame :
      exists signs,
        FC.calls s1 =
          FC.calls s ++ FC.CallCreateMultipartUpload (create_params env req)
                        :: map FC.CallSignUploadPart signs /\
        (List.length signs <= Z.to_nat (FC.chunkCount req))%nat /\
        map FC.u_PartNumber signs = map Z.of_nat (seq 1 (List.length signs)) /\
        Forall (fun p => FC.u_Key p = FC.fileName req /\
                         FC.u_Expires p = FC.EXPIRATION_HOURS) signs).
    { exists (map (fun j => part_params env (FC.fileName req) U (0 + Z.of_nat j)) (seq 1 k)).
      rewrite C, !length_map, length_seq, !map_map. unfold s0. cbn [FC.calls FC.log].
      rewrite <- app_assoc. cbn [app].
      repeat split; try reflexivity; try assumption.
      apply Forall_forall. intros p Hp. apply in_map_iff in Hp.
      destruct Hp as (j & <- & _). split; reflexivity. }
    destruct r as [urls|e]; cbn [snd FC.documents FC.calls FC.response].
    + split; [exact D|]. split; [exact Frame|].
      intros Hn uploadId H. injection H as <-.
      replace (Z.to_nat (FC.chunkCount req)) with 0%nat in Es by lia.
      cbn in Es. unfold ret in Es. injection Es as <- _. reflexivity.
    + split; [exact D|]. split; [exact Frame|].
      intros Hn uploadId H.
      replace (Z.to_nat (FC.chunkCount req)) with 0%nat in Es by lia.
      cbn in Es. unfold ret in Es. discriminate Es.
Qed.

Lemma session_creation_frame_witness :
  let req := {| FC.fileName := "17_empty.txt"; FC.fileType := "text/plain";
                FC.chunkCount := 0 |} in
  FC.chunkCount req <= 0 /\
  FC.response (snd (FC.createMultipartUpload sample_s3 req (FC.serving [older_doc]))) =
    Some {| FC.status := 200; FC.body := FC.CreatedBody "upload-1" [] |} /\
  FC.documents (snd (FC.createMultipartUpload sample_s3 req (FC.serving [older_doc]))) =
    [older_doc].
Proof.
  intros req.
  assert (Hn : FC.chunkCount req <= 0) by (cbn; lia).
  destruct (session_creation_frame sample_s3 req (FC.serving [older_doc]))
    as (D & _ & Hzero).
  split; [exact Hn|]. split; [exact (Hzero Hn "upload-1" eq_refl) | exact D].
Defined.

(** ** The listing *)

Module FL := FileListing.

Lemma insert_by_date_perm d l : Permutation (FL.insert_by_date d l) (d :: l).
Proof.
  induction l as [|x l IH]; cbn [FL.insert_by_date]; [reflexivity|].
  destruct (FC.uploadDate x <? FC.uploadDate d); [reflexivity|].
  rewrite IH. apply perm_swap.
Qed.

Lemma insert_by_date_sorted d l :
  StronglySorted not_older l -> StronglySorted not_older (FL.insert_by_date d l).
Proof.
  induction 1 as [|x l Hs IH Hx]; cbn [FL.insert_by_date].
  - repeat constructor.
  - destruct (Z.ltb_spec (FC.uploadDate x) (FC.uploadDate d)) as [Hlt|Hge].
    + constructor; [now constructor|].
      constructor; [unfold not_older; lia|].
      eapply Forall_impl; [|exact Hx]. unfold not_older. intros y Hy. lia.
    + constructor; [exact IH|].
      apply (Permutation_Forall (Permutation_sym (insert_by_date_perm d l))).
      constructor; [exact Hge|exact Hx].
Qed.

Lemma sort_fold l : forall acc,
  StronglySorted not_older acc ->
  StronglySorted not_older (fold_left (fun a d => FL.insert_by_date d a) l acc) /\
  Permutation (fold_left (fun a d => FL.insert_by_date d a) l acc) (acc ++ l).
Proof.
  induction l as [|d l IH]; intros acc Hacc; cbn [fold_left].
  - rewrite app_nil_r. split; [assumption|reflexivity].
  - destruct (IH _ (insert_by_date_sorted d acc Hacc)) as [Hs Hp].
    split; [exact Hs|].
    eapply Permutation_trans; [exact Hp|].
    eapply Permutation_trans;
      [apply Permutation_app_tail, insert_by_date_perm|].
    cbn [app]. apply Permutation_middle.
Qed.

Lemma sort_by_date_desc_sorted l : StronglySorted not_older (FL.sort_by_date_desc l).
Proof. apply sort_fold. constructor. Qed.

Lemma sort_by_date_desc_perm l : Permutation (FL.sort_by_date_desc l) l.
Proof. apply (sort_fold l []). constructor. Qed.

Lemma with_download_urls_ok env files : forall s,
  (forall d, In d files ->
     exists u, FC.s3_getSignedUrl_getObject env (get_params env d) = inr u) ->
  FL.with_download_urls env files s =
  (Normal (map (listed env) files),
   {| FL.documents := FL.documents s; FL.response := FL.response s;
      FL.calls := FL.calls s ++
                  map (fun d => FC.CallSignGetObject (get_params env d)) files |}).
Proof.
  induction files as [|d files IH]; intros s Hall; cbn [FL.with_download_urls map].
  - unfold ret. rewrite app_nil_r. now destruct s.
  - unfold bind at 1, FL.getSignedUrl_getObject. fold (get_params env d).
    destruct (Hall d (or_introl eq_refl)) as [u Hu].
    unfold listed at 1, download_url. rewrite Hu.
    unfold bind at 1. rewrite IH by (intros d' Hd'; apply Hall; now right).
    unfold ret. cbn [FL.documents FL.response FL.calls].
    now rewrite <- app_assoc.
Qed.

Lemma with_download_urls_fails env files : forall s,
  (exists d e, In d files /\
     FC.s3_getSignedUrl_getObject env (get_params env d) = inl e) ->
  exists e s',
    FL.with_download_urls env files s = (Throw e, s') /\
    FL.documents s' = FL.documents s /\
    FL.response s' = FL.response s.
Proof.
  induction files as [|d files IH]; intros s (d0 & e0 & Hin & Hfail);
    [contradiction|].
  cbn [FL.with_download_urls]. unfold bind at 1, FL.getSignedUrl_getObject.
  fold (get_params env d).
  destruct (FC.s3_getSignedUrl_getObject env (get_params env d)) as [e|u] eqn:Hd.
  - eexists _, _. repeat split.
  - destruct Hin as [->|Hin]; [congruence|].
    unfold bind at 1.
    edestruct IH as (e & s' & -> & D & R); [now exists d0, e0|].
    exists e, s'. repeat split; assumption.
Qed.

Lemma getUploadedFiles_unfold env find_error s :
  FL.getUploadedFiles env find_error s =
  let failed (s1 : FL.Server) :=
    (Normal tt,
     {| FL.documents := FL.documents s1;
        FL.response :=
          Some {| FL.status := 500;
                  FL.body := FL.ErrorReply "Failed to retrieve files" |};
        FL.calls := FL.calls s1 |}) in
  match find_error with
  | Some _ => failed s
  | None =>
      match FL.with_download_urls env (FL.sort_by_date_desc (FL.documents s)) s with
      | (Normal files, s1) =>
          (Normal tt,
           {| FL.documents := FL.documents s1;
              FL.response :=
                Some {| FL.status := 200; FL.body := FL.FilesReply files |};
              FL.calls := FL.calls s1 |})
      | (Throw _, s1) => failed s1
      end
  end.
Proof.
  unfold FL.getUploadedFiles, try_catch, bind, FL.File_find_sorted, FL.res_json,
    FL.res_status_json, modify. cbv zeta.
  destruct find_error as [e|]; [reflexivity|].
  destruct (FL.with_download_urls env _ s) as [[files|e] s1]; reflexivity.
Qed.

(** X14.  When the query succeeds and every download URL can be signed,
    getUploadedFiles answers 200 with exactly the stored documents, each
    once, most recent first, each with the URL S3 has just signed for its
    key with Expires = EXPIRATION_HOURS; the documents are left as they
    were, and one URL is signed per document, in listing order. *)
Theorem listing_lists_every_document env docs :
  (forall d, In d docs ->
     exists u, FC.s3_getSignedUrl_getObject env (get_params env d) = inr u) ->
  let result := FL.getUploadedFiles env None (FL.serving docs) in
  fst result = Normal tt /\
  FL.documents (snd result) = docs /\
  exists files,
    FL.response (snd result) =
      Some {| FL.status := 200; FL.body := FL.FilesReply files |} /\
    Permutation (map FL.doc files) docs /\
    StronglySorted not_older (map FL.doc files) /\
    (forall x, In x files ->
       FC.s3_getSignedUrl_getObject env (get_params env (FL.doc x))
         = inr (FL.downloadUrl x) /\
       FC.g_Expires (get_params env (FL.doc x)) = 60 * 60 * 24) /\
    FL.calls (snd result) =
      map (fun x => FC.CallSignGetObject (get_params env (FL.doc x))) files.
Proof.
  intros Hall result. unfold result. rewrite getUploadedFiles_unfold. cbv zeta.
  cbn [FL.documents FL.serving].
  rewrite with_download_urls_ok.
  2:{ intros d Hd. apply Hall.
      apply (Permutation_in d (sort_by_date_desc_perm docs) Hd). }
  cbn [fst snd FL.documents FL.response FL.calls FL.serving app].
  split; [reflexivity|]. split; [reflexivity|].
  exists (map (listed env) (FL.sort_by_date_desc docs)).
  assert (Hdocs : map FL.doc (map (listed env) (FL.sort_by_date_desc docs))
                  = FL.sort_by_date_desc docs).
  { rewrite map_map. cbn [FL.doc listed]. apply map_id. }
  rewrite Hdocs, map_map. cbn [FL.doc listed].
  split; [reflexivity|]. split; [apply sort_by_date_desc_perm|].
  split; [apply sort_by_date_desc_sorted|]. split; [|reflexivity].
  intros x Hx. apply in_map_iff in Hx. destruct Hx as (d & <- & Hd).
  cbn [FL.doc FL.downloadUrl listed]. split; [|reflexivity].
  destruct (Hall d (Permutation_in d (sort_by_date_desc_perm docs) Hd)) as [u Hu].
  unfold download_url. now rewrite Hu.
Qed.

Lemma listing_lists_every_document_witness :
  let result := FL.getUploadedFiles sample_s3 None (FL.serving [older_doc; newer_doc]) in
  FL.response (snd result) =
    Some {| FL.status := 200;
            FL.body := FL.FilesReply
              [ {| FL.doc := newer_doc; FL.downloadUrl := "https://bucket/2_b.txt" |};
                {| FL.doc := older_doc; FL.downloadUrl := "https://bucket/1_a.txt" |} ] |} /\
  FL.documents (snd result) = [older_doc; newer_doc].
Proof.
  intros result.
  destruct (listing_lists_every_document sample_s3 [older_doc; newer_doc])
    as (_ & D & _).
  - intros d _. eexists. reflexivity.
  - split; [vm_compute; reflexivity | exact D].
Defined.

(** X15.  When the query fails, or the download URL of any stored document
    cannot be signed, getUploadedFiles answers 500 with the fixed text
    'Failed to retrieve files' (the error's own message is dropped) and no
    partial list; it does not reject and leaves the documents as they
    were. *)
Theorem listing_failure_is_generic env find_error docs :
  (find_error <> None \/
   exists d e, In d docs /\
     FC.s3_getSignedUrl_getObject env (get_params env d) = inl e) ->
  let result := FL.getUploadedFiles env find_error (FL.serving docs) in
  fst result = Normal tt /\
  FL.response (snd result) =
    Some {| FL.status := 500; FL.body := FL.ErrorReply "Failed to retrieve files" |} /\
  FL.documents (snd result) = docs.
Proof.
  intros H result. unfold result. rewrite getUploadedFiles_unfold. cbv zeta.
  destruct find_error as [e|].
  - repeat split.
  - destruct H as [H|(d & e & Hin & Hfail)]; [contradiction H; reflexivity|].
    cbn [FL.documents FL.serving].
    destruct (with_download_urls_fails env (FL.sort_by_date_desc docs) (FL.serving docs))
      as (e' & s' & -> & D & R).
    { exists d, e. split; [|exact Hfail].
      apply (Permutation_in d (Permutation_sym (sort_by_date_desc_perm docs)) Hin). }
    cbn [fst snd FL.documents FL.response].
    rewrite D. repeat split.
Qed.

Lemma listing_failure_is_generic_witness :
  FL.response (snd (FL.getUploadedFiles sample_s3 (Some (Error "MongoNetworkError"))
                      (FL.serving [older_doc]))) =
    Some {| FL.status := 500; FL.body := FL.ErrorReply "Failed to retrieve files" |}.
Proof.
  refine (proj1 (proj2 (listing_failure_is_generic sample_s3
                          (Some (Error "MongoNetworkError")) [older_doc] _))).
  left. discriminate.
Defined.

(** X16.  Round trip: after completeMultipartUpload has answered 200 for a
    request, a listing (whose query and signings succeed) contains one more
    file than before, among them the document of that request, with its
    name, its size and the download URL S3 signs for its key; and when the
    server's clock is ahead of every stored upload date, that file comes
    first. *)
Theorem uploaded_file_is_listed env req docs downloadUrl :
  let newFile := {| FC.file_name := FC.c_fileName req; FC.file_size := FC.c_fileSize req;
                    FC.s3Key := FC.c_fileName req; FC.uploadDate := FC.Date_now env |} in
  FC.s3_completeMultipartUpload env (complete_params env req) = inr tt ->
  FC.s3_getSignedUrl_getObject env (get_params env newFile) = inr downloadUrl ->
  FC.File_save env newFile = None ->
  (forall d, In d docs ->
     exists u, FC.s3_getSignedUrl_getObject env (get_params env d) = inr u) ->
  let stored :=
    FC.documents (snd (FC.completeMultipartUpload env req (FC.serving docs))) in
  exists files,
    FL.response (snd (FL.getUploadedFiles env None (FL.serving stored))) =
      Some {| FL.status := 200; FL.body := FL.FilesReply files |} /\
    In {| FL.doc := newFile; FL.downloadUrl := downloadUrl |} files /\
    List.length files = S (List.length docs) /\
    ((forall d, In d docs -> FC.uploadDate d < FC.Date_now env) ->
     hd_error files = Some {| FL.doc := newFile; FL.downloadUrl := downloadUrl |}).
Proof.
  intros newFile Hc Hg Hs Hall stored.
  assert (Hstored : stored = docs ++ [newFile]).
  { unfold stored. rewrite completeMultipartUpload_unfold. cbv zeta.
    fold newFile. fold (get_params env newFile). rewrite Hc.
    change {| FC.g_Bucket := FC.AWS_BUCKET_NAME env; FC.g_Key := FC.c_fileName req;
              FC.g_Expires := FC.EXPIRATION_HOURS |}
      with (get_params env newFile).
    rewrite Hg, Hs. reflexivity. }
  assert (Hall' : forall d, In d stored ->
            exists u, FC.s3_getSignedUrl_getObject env (get_params env d) = inr u).
  { intros d Hd. rewrite Hstored in Hd. apply in_app_or in Hd.
    destruct Hd as [Hd|[<-|[]]]; [now apply Hall | now exists downloadUrl]. }
  assert (Hnew : listed env newFile =
                 {| FL.doc := newFile; FL.downloadUrl := downloadUrl |}).
  { unfold listed, download_url. now rewrite Hg. }
  pose proof (sort_by_date_desc_perm stored) as Hperm.
  pose proof (sort_by_date_desc_sorted stored) as Hsorted.
  rewrite getUploadedFiles_unfold. cbv zeta. cbn [FL.documents FL.serving].
  rewrite with_download_urls_ok.
  2:{ intros d Hd. apply Hall'. apply (Permutation_in d Hperm Hd). }
  cbn [snd FL.response].
  exists (map (listed env) (FL.sort_by_date_desc stored)).
  split; [reflexivity|]. split; [|split].
  - rewrite <- Hnew. apply in_map.
    apply (Permutation_in newFile (Permutation_sym Hperm)).
    rewrite Hstored. apply in_or_app. right. now left.
  - rewrite length_map, (Permutation_length Hperm), Hstored, length_app. cbn. lia.
  - intros Hdates.
    destruct (FL.sort_by_date_desc stored) as [|h rest] eqn:E.
    + apply Permutation_nil in Hperm. rewrite Hstored in Hperm.
      destruct docs; discriminate Hperm.
    + cbn [map hd_error]. rewrite <- Hnew. do 2 f_equal.
      assert (Hh : In h stored) by (apply (Permutation_in h Hperm); now left).
      assert (Hn : In newFile (h :: rest)).
      { apply (Permutation_in newFile (Permutation_sym Hperm)).
        rewrite Hstored. apply in_or_app. right. now left. }
      destruct Hn as [Hn|Hn]; [exact Hn|].
      inversion Hsorted as [|h' rest' _ Hfor]; subst.
      rewrite Forall_forall in Hfor. specialize (Hfor newFile Hn).
      unfold not_older in Hfor. cbn [FC.uploadDate newFile] in Hfor.
      rewrite Hstored in Hh. apply in_app_or in Hh.
      destruct Hh as [Hh|[Hh|[]]]; [|now symmetry].
      specialize (Hdates h Hh). unfold newFile in Hfor. cbn in Hfor. lia.
Qed.

Lemma uploaded_file_is_listed_witness :
  let stored :=
    FC.documents (snd (FC.completeMultipartUpload sample_s3 in_order
                         (FC.serving [older_doc; newer_doc]))) in
  exists files,
    FL.response (snd (FL.getUploadedFiles sample_s3 None (FL.serving stored))) =
      Some {| FL.status := 200; FL.body := FL.FilesReply files |} /\
    map (fun x => FC.file_name (FL.doc x)) files =
      ["17_report.pdf"; "2_b.txt"; "1_a.txt"].
Proof.
  intros stored.
  destruct (uploaded_file_is_listed sample_s3 in_order [older_doc; newer_doc]
              "https://bucket/17_report.pdf" eq_refl eq_refl eq_refl)
    as (files & R & _).
  - intros d _. eexists. reflexivity.
  - exists files. split; [exact R|].
    assert (E : FL.response (snd (FL.getUploadedFiles sample_s3 None (FL.serving stored)))
                = Some {| FL.status := 200;
                          FL.body := FL.FilesReply
                            (map (listed sample_s3)
                               (FL.sort_by_date_desc stored)) |})
      by (vm_compute; reflexivity).
    fold stored in R. rewrite R in E. injection E as ->.
    vm_compute. reflexivity.
Defined.

(** ** The FileList component *)

Lemma fetchFiles_result o s :
  FileList.fetchFiles o s =
  (Normal tt,
   match fetch_ok o with
   | Some data =>
       {| FileList.files := data; FileList.loading := false;
          FileList.error := FileList.error s |}
   | None =>
       {| FileList.files := FileList.files s; FileList.loading := false;
          FileList.error := Some (fetch_error_message o) |}
   end).
Proof.
  destruct o as [e|[|] [e|data]]; reflexivity.
Qed.

Lemma fetchFiles_all_cons o os s :
  fetchFiles_all (o :: os) s = fetchFiles_all os (snd (FileList.fetchFiles o s)).
Proof. reflexivity. Qed.

(** X17.  fetchFiles never rejects and always ends the loading state, but it
    never clears an error: once a fetch has failed, [error] stays set
    through any later fetches, and if those all succeed the component still
    renders the error paragraph with the old message, while [files] holds
    the array of the last fetch. *)
Theorem fetch_error_is_sticky (os : list FileList.FetchOutcome) (s : FileList.State) :
  (forall o, fst (FileList.fetchFiles o s) = Normal tt /\
             FileList.loading (snd (FileList.fetchFiles o s)) = false) /\
  (FileList.error s <> None -> FileList.error (fetchFiles_all os s) <> None) /\
  (forall m data,
     FileList.error s = Some m -> m <> "" ->
     Forall (fun o => fetch_ok o <> None) os ->
     fetch_ok (last os (FileList.FetchReject (Error ""))) = Some data ->
     FileList.render (fetchFiles_all os s) = FileList.ErrorView m /\
     FileList.files (fetchFiles_all os s) = data).
Proof.
  split; [|split].
  - intros o. rewrite fetchFiles_result. cbn [fst snd].
    split; [reflexivity|]. destruct (fetch_ok o); reflexivity.
  - revert s. induction os as [|o os IH]; intros s H; [exact H|].
    rewrite fetchFiles_all_cons. apply IH.
    rewrite fetchFiles_result. cbn [snd].
    destruct (fetch_ok o); cbn [FileList.error]; [exact H|discriminate].
  - intros m data Hm Hne Hok Hlast. revert s Hm Hlast.
    induction Hok as [|o os Ho Hos IH]; intros s Hm Hlast; [discriminate Hlast|].
    rewrite fetchFiles_all_cons, fetchFiles_result. cbn [snd].
    destruct (fetch_ok o) as [d|] eqn:Eo; [|contradiction Ho; reflexivity].
    destruct os as [|o' os'].
    + cbn [last] in Hlast. rewrite Eo in Hlast. injection Hlast as ->.
      cbn [fetchFiles_all fold_left]. unfold FileList.render, FileList.truthy.
      cbn [FileList.loading FileList.error FileList.files]. rewrite Hm.
      destruct (String.eqb_spec m "") as [->|_]; [contradiction Hne; reflexivity|].
      split; reflexivity.
    + apply IH; [exact Hm|exact Hlast].
Qed.

Lemma fetch_error_is_sticky_witness :
  let rows := [ {| FileList._id := "1"; FileList.file_name := "1_a.txt";
                   FileList.file_size := 10; FileList.s3Key := "1_a.txt";
                   FileList.uploadDate := 1600000000000;
                   FileList.downloadUrl := "https://bucket/1_a.txt" |} ] in
  let failed := snd (FileList.fetchFiles (FileList.FetchResponse false (inr []))
                       FileList.mounted) in
  let later := fetchFiles_all [FileList.FetchResponse true (inr rows)] failed in
  FileList.error failed = Some "Failed to fetch files" /\
  FileList.render later = FileList.ErrorView "Failed to fetch files" /\
  FileList.files later = rows.
Proof.
  intros rows failed later.
  assert (Hm : FileList.error failed = Some "Failed to fetch files") by reflexivity.
  destruct (fetch_error_is_sticky [FileList.FetchResponse true (inr rows)] failed)
    as (_ & _ & H).
  destruct (H "Failed to fetch files" rows Hm) as [R F].
  - discriminate.
  - constructor; [discriminate|constructor].
  - reflexivity.
  - split; [exact Hm|]. split; [exact R | exact F].
Defined.

Lemma fetchFiles_all_settled os : forall s,
  os <> [] -> FileList.loading (fetchFiles_all os s) = false.
Proof.
  induction os as [|o os IH]; intros s H; [contradiction H; reflexivity|].
  rewrite fetchFiles_all_cons. destruct os as [|o' os'].
  - cbn [fetchFiles_all fold_left]. rewrite fetchFiles_result. cbn [snd].
    destruct (fetch_ok o); reflexivity.
  - apply IH. discriminate.
Qed.

Lemma fetchFiles_all_ok os : forall s data,
  Forall (fun o => fetch_ok o <> None) os ->
  fetch_ok (last os (FileList.FetchReject (Error ""))) = Some data ->
  FileList.files (fetchFiles_all os s) = data /\
  FileList.error (fetchFiles_all os s) = FileList.error s.
Proof.
  induction os as [|o os IH]; intros s data Hok Hlast; [discriminate Hlast|].
  inversion Hok as [|o0 os0 Ho Hos]; subst.
  rewrite fetchFiles_all_cons, fetchFiles_result. cbn [snd].
  destruct (fetch_ok o) as [d|] eqn:Eo; [|contradiction Ho; reflexivity].
  destruct os as [|o' os'].
  - cbn [last] in Hlast. rewrite Eo in Hlast. injection Hlast as ->.
    split; reflexivity.
  - destruct (IH {| FileList.files := d; FileList.loading := false;
                    FileList.error := FileList.error s |} data Hos Hlast) as [F E].
    split; [exact F | exact E].
Qed.

(** X18.  What the component shows.  Before the first fetch ends it shows
    the loading paragraph, and never again once a fetch has ended.  While
    every fetch since mounting has succeeded it shows the array of the last
    one: the notice for no files when it is empty, otherwise one row per
    entry, in the array's order, with its name, size text and link.  A first
    fetch answered with a status that is not ok shows the error paragraph
    with 'Failed to fetch files', whatever body came with it. *)
Theorem list_view_follows_fetches (os : list FileList.FetchOutcome) :
  FileList.render FileList.mounted = FileList.LoadingView /\
  (forall s, os <> [] -> FileList.render (fetchFiles_all os s) <> FileList.LoadingView) /\
  (forall data,
     Forall (fun o => fetch_ok o <> None) os ->
     fetch_ok (last os (FileList.FetchReject (Error ""))) = Some data ->
     FileList.render (fetchFiles_all os FileList.mounted) =
     match data with
     | [] => FileList.ListView None
     | _ => FileList.ListView (Some (map FileList.row data))
     end) /\
  (forall json,
     FileList.render
       (snd (FileList.fetchFiles (FileList.FetchResponse false json) FileList.mounted))
     = FileList.ErrorView "Failed to fetch files").
Proof.
  split; [reflexivity|]. split; [|split].
  - intros s H. unfold FileList.render.
    rewrite (fetchFiles_all_settled os s H).
    destruct (FileList.truthy _); [discriminate|].
    destruct (FileList.files _); discriminate.
  - intros data Hok Hlast.
    assert (Hne : os <> []) by (intros ->; discriminate Hlast).
    destruct (fetchFiles_all_ok os FileList.mounted data Hok Hlast) as [F E].
    unfold FileList.render.
    rewrite (fetchFiles_all_settled os _ Hne), E, F. reflexivity.
  - intros json. destruct json; reflexivity.
Qed.

Lemma list_view_follows_fetches_witness :
  let entry := {| FileList._id := "1"; FileList.file_name := "1_a.txt";
                  FileList.file_size := 12582912; FileList.s3Key := "1_a.txt";
                  FileList.uploadDate := 1600000000000;
                  FileList.downloadUrl := "https://bucket/1_a.txt" |} in
  let os := [FileList.FetchResponse true (inr []);
             FileList.FetchResponse true (inr [entry])] in
  FileList.render (fetchFiles_all os FileList.mounted) =
  FileList.ListView
    (Some [ {| FileList.key := "1"; FileList.name_cell := "1_a.txt";
               FileList.size_text := "12.00"; FileList.date_of := 1600000000000;
               FileList.href := "https://bucket/1_a.txt" |} ]).
Proof.
  intros entry os.
  destruct (list_view_follows_fetches os) as (_ & _ & H & _).
  rewrite (H [entry]).
  - vm_compute. reflexivity.
  - repeat constructor; discriminate.
  - reflexivity.
Defined.

(** ** The size column *)

Lemma hundredths_of_size (size : Z) :
  0 <= size ->
  FileList.hundredths (inject_Z size / inject_Z (1024 * 1024)) =
  (100 * size + 524288) / 1048576.
Proof.
  intros Hs. change (inject_Z (1024 * 1024)) with (1048576 # 1).
  unfold FileList.hundredths, Qfloor, Qabs, Qdiv, Qmult, Qinv, Qplus, inject_Z.
  cbn [Qnum Qden].
  rewrite Z.abs_eq by lia.
  change (Z.pos (1 * 1048576 * 1 * 2)) with (2 * 1048576).
  replace ((size * 1 * 100 * 2 + 1 * Z.pos (1 * 1048576 * 1)))
    with ((100 * size + 524288) * 2) by lia.
  rewrite (Z.mul_comm 2 1048576). apply Z.div_mul_cancel_r; lia.
Qed.

Lemma digit_cases (k : Z) : 0 <= k <= 9 ->
  k = 0 \/ k = 1 \/ k = 2 \/ k = 3 \/ k = 4 \/ k = 5 \/ k = 6 \/ k = 7 \/ k = 8 \/ k = 9.
Proof. lia. Qed.

Ltac each_digit H :=
  destruct (digit_cases _ H) as [->|[->|[->|[->|[->|[->|[->|[->|[->| ->]]]]]]]]].

Lemma of_lu_digit (k : Z) (d : Decimal.uint) :
  0 <= k <= 9 ->
  DecimalPos.Unsigned.of_lu (digit_of k d) = (Z.to_N k + 10 * DecimalPos.Unsigned.of_lu d)%N.
Proof. intros H. each_digit H; reflexivity. Qed.

Lemma string_of_digit (k : Z) (d : Decimal.uint) :
  0 <= k <= 9 ->
  NilEmpty.string_of_uint (digit_of k d) = String (digit_char k) (NilEmpty.string_of_uint d).
Proof. intros H. each_digit H; reflexivity. Qed.

Lemma rev_snoc2 (d : Decimal.uint) (a b : Z) :
  0 <= a <= 9 -> 0 <= b <= 9 ->
  Decimal.rev (Decimal.app d (digit_of a (digit_of b Decimal.Nil))) =
  digit_of b (digit_of a (Decimal.rev d)).
Proof.
  intros Ha Hb. apply DecimalFacts.to_list_inj.
  rewrite DecimalFacts.rev_spec, DecimalFacts.app_spec.
  each_digit Ha; each_digit Hb; cbn [digit_of DecimalFacts.to_list]; rewrite List.rev_app_distr;
    cbn [List.rev List.app]; rewrite <- DecimalFacts.rev_spec; reflexivity.
Qed.

Lemma string_of_app (d d' : Decimal.uint) :
  NilEmpty.string_of_uint (Decimal.app d d') =
  (NilEmpty.string_of_uint d ++ NilEmpty.string_of_uint d')%string.
Proof.
  assert (G : forall l l',
             NilEmpty.string_of_uint (DecimalFacts.of_list (l ++ l')) =
             (NilEmpty.string_of_uint (DecimalFacts.of_list l) ++ NilEmpty.string_of_uint (DecimalFacts.of_list l'))%string).
  { induction l as [|h t IH]; intros l'; [reflexivity|].
    destruct h; cbn [DecimalFacts.of_list List.app NilEmpty.string_of_uint String.append];
      now rewrite IH. }
  rewrite <- (DecimalFacts.of_list_to_list (Decimal.app d d')), DecimalFacts.app_spec, G, !DecimalFacts.of_list_to_list.
  reflexivity.
Qed.

Lemma unorm_to_uint p : Decimal.unorm (Pos.to_uint p) = Pos.to_uint p.
Proof.
  rewrite <- (DecimalPos.Unsigned.to_of (Pos.to_uint p)), DecimalPos.Unsigned.of_to. reflexivity.
Qed.

Lemma unorm_app_to_uint p d' :
  Decimal.unorm (Decimal.app (Pos.to_uint p) d') = Decimal.app (Pos.to_uint p) d'.
Proof.
  apply DecimalFacts.to_list_inj. rewrite DecimalFacts.unorm_spec, DecimalFacts.app_spec.
  pose proof (unorm_to_uint p) as U. apply (f_equal DecimalFacts.to_list) in U.
  rewrite DecimalFacts.unorm_spec in U.
  pose proof (DecimalPos.Unsigned.to_uint_nonzero p) as NZ.
  assert (NZ' : DecimalFacts.to_list (Pos.to_uint p) <> [DecimalFacts.d0]).
  { intros H. apply NZ. apply DecimalFacts.to_list_inj. exact H. }
  destruct (DecimalFacts.to_list (Pos.to_uint p)) as [|h t] eqn:E.
  - discriminate U.
  - destruct h; try reflexivity.
    exfalso. unfold DecimalFacts.lunorm in U. cbn [DecimalFacts.lnzhead] in U.
    destruct (DecimalFacts.lnzhead t) as [|h' t'] eqn:Et.
    + injection U as <-. now apply NZ'.
    + rewrite <- Et in U. revert U. apply DecimalFacts.lnzhead_neq_d0_head.
Qed.

Lemma to_int_split (q : positive) (a b : Z) :
  0 <= a <= 9 -> 0 <= b <= 9 ->
  Z.to_int (100 * Z.pos q + 10 * a + b) =
  Decimal.Pos (Decimal.app (Pos.to_uint q) (digit_of a (digit_of b Decimal.Nil))).
Proof.
  intros Ha Hb.
  set (d := Decimal.app (Pos.to_uint q) (digit_of a (digit_of b Decimal.Nil))).
  assert (V : Z.of_int (Decimal.Pos d) = 100 * Z.pos q + 10 * a + b).
  { cbn [Z.of_int]. unfold Z.of_uint. rewrite DecimalPos.Unsigned.of_uint_alt. unfold d.
    rewrite rev_snoc2 by assumption.
    rewrite !of_lu_digit by assumption.
    rewrite <- DecimalPos.Unsigned.of_uint_alt, DecimalPos.Unsigned.of_to. lia. }
  rewrite <- V, DecimalZ.to_of. cbn [Decimal.norm].
  unfold d. now rewrite unorm_app_to_uint.
Qed.

Lemma string_of_uint_nonnil d :
  d <> Decimal.Nil -> NilZero.string_of_uint d = NilEmpty.string_of_uint d.
Proof. destruct d; [intros H; now contradiction H|reflexivity..]. Qed.

Lemma Number_toString_pos (q : positive) :
  Number_toString (Z.pos q) = NilEmpty.string_of_uint (Pos.to_uint q) /\
  (1 <= String.length (Number_toString (Z.pos q)))%nat.
Proof.
  unfold Number_toString. cbn [Z.to_int NilZero.string_of_int].
  rewrite string_of_uint_nonnil by apply DecimalPos.Unsigned.to_uint_nonnil.
  split; [reflexivity|].
  pose proof (DecimalPos.Unsigned.to_uint_nonnil q) as H.
  destruct (Pos.to_uint q); [now contradiction H|cbn; lia..].
Qed.

Lemma Number_toString_split (n : Z) :
  100 <= n ->
  Number_toString n = (Number_toString (n / 100) ++ two_digits (n mod 100))%string.
Proof.
  intros Hn.
  pose proof (Z.div_mod n 100 ltac:(lia)) as E.
  pose proof (Z.mod_pos_bound n 100 ltac:(lia)) as B.
  set (r := n mod 100) in *.
  pose proof (Z.div_mod r 10 ltac:(lia)) as Er.
  pose proof (Z.mod_pos_bound r 10 ltac:(lia)) as Br.
  assert (Ha : 0 <= r / 10 <= 9).
  { split; [apply Z.div_pos; lia|]. apply Z.lt_succ_r. apply Z.div_lt_upper_bound; lia. }
  assert (Hq : 0 < n / 100) by (apply Z.div_str_pos; lia).
  destruct (n / 100) as [|q|q] eqn:Eq; try lia.
  replace n with (100 * Z.pos q + 10 * (r / 10) + r mod 10) at 1 by lia.
  destruct (Number_toString_pos q) as [-> _].
  unfold Number_toString. rewrite to_int_split by lia.
  cbn [NilZero.string_of_int].
  rewrite string_of_uint_nonnil.
  - rewrite string_of_app, !string_of_digit by lia. reflexivity.
  - rewrite <- unorm_app_to_uint. apply DecimalFacts.unorm_nonnil.
Qed.

Lemma substring_append_l (s t : string) :
  substring 0 (String.length s) (s ++ t) = s.
Proof.
  induction s as [|c s IH]; cbn.
  - destruct t; reflexivity.
  - now rewrite IH.
Qed.

Lemma substring_whole (t : string) : substring 0 (String.length t) t = t.
Proof. induction t as [|c t IH]; cbn; [reflexivity|now rewrite IH]. Qed.

Lemma substring_append_r (s t : string) :
  substring (String.length s) (String.length t) (s ++ t) = t.
Proof.
  induction s as [|c s IH]; cbn; [apply substring_whole|exact IH].
Qed.

Lemma length_append (s t : string) :
  String.length (s ++ t) = (String.length s + String.length t)%nat.
Proof. induction s as [|c s IH]; cbn; [reflexivity|now rewrite IH]. Qed.

Lemma fixed_small :
  forallb (fun k =>
             String.eqb (point_before_last_two (FileList.pad3 (Number_toString (Z.of_nat k))))
               ("0." ++ two_digits (Z.of_nat k)))
    (seq 0 100) = true.
Proof. vm_compute. reflexivity. Qed.

Lemma fixed_text (n : Z) :
  0 <= n ->
  point_before_last_two (FileList.pad3 (Number_toString n)) =
  (Number_toString (n / 100) ++ "." ++ two_digits (n mod 100))%string.
Proof.
  intros Hn. destruct (Z_lt_le_dec n 100) as [Hs|Hl].
  - pose proof fixed_small as F. rewrite forallb_forall in F.
    specialize (F (Z.to_nat n)). rewrite Z2Nat.id in F by lia.
    rewrite Z.div_small, Z.mod_small by lia.
    apply String.eqb_eq. apply F. apply in_seq. lia.
  - rewrite (Number_toString_split n Hl).
    assert (Hq : 0 < n / 100) by (apply Z.div_str_pos; lia).
    destruct (n / 100) as [|q|q] eqn:Eq; try lia.
    destruct (Number_toString_pos q) as [_ L].
    set (s := Number_toString (Z.pos q)) in *.
    set (t := two_digits (n mod 100)).
    assert (Lt : String.length t = 2%nat) by reflexivity.
    assert (Lm : String.length (s ++ t) = (String.length s + 2)%nat)
      by (rewrite length_append, Lt; reflexivity).
    assert (P : FileList.pad3 (s ++ t) = (s ++ t)%string).
    { unfold FileList.pad3. rewrite Lm.
      destruct (String.length s) as [|[|[|k]]]; try lia; reflexivity. }
    rewrite P. unfold point_before_last_two. rewrite Lm.
    replace (String.length s + 2 - 2)%nat with (String.length s) by lia.
    rewrite substring_append_l. rewrite <- Lt at 1. rewrite substring_append_r.
    reflexivity.
Qed.

(** X19.  The size column shows the size in MiB rounded to the nearest
    hundredth, a tie going up, as a decimal number with two decimals.  With
    n the integer nearest to 100 * file_size / 2^20, the text of the cell
    is the decimal numeral of n / 100, a point, and the two digits of
    n mod 100; n / 100 is within half a hundredth of the size in MiB and
    does not decrease when the size grows; so every file smaller than 5243
    bytes is shown as 0.00. *)
Theorem size_column_rounds (e : FileList.Entry) :
  0 <= FileList.file_size e ->
  let n := (100 * FileList.file_size e + 524288) / 1048576 in
  FileList.size_cell e =
    (Number_toString (n / 100) ++ "." ++ two_digits (n mod 100))%string /\
  n = FileList.hundredths (inject_Z (FileList.file_size e) / inject_Z (1024 * 1024)) /\
  - 524288 <= 100 * FileList.file_size e - n * 1048576 < 524288 /\
  (forall e', FileList.file_size e <= FileList.file_size e' ->
     n <= (100 * FileList.file_size e' + 524288) / 1048576) /\
  (FileList.file_size e < 5243 -> FileList.size_cell e = "0.00").
Proof.
  intros Hs n.
  assert (Hn : FileList.hundredths
                 (inject_Z (FileList.file_size e) / inject_Z (1024 * 1024)) = n)
    by (apply hundredths_of_size; assumption).
  pose proof (Z.div_mod (100 * FileList.file_size e + 524288) 1048576 ltac:(lia)) as Hd.
  pose proof (Z.mod_pos_bound (100 * FileList.file_size e + 524288) 1048576 ltac:(lia)) as Hb.
  fold n in Hd.
  assert (Hn0 : 0 <= n) by (apply Z.div_pos; lia).
  assert (Htext : FileList.size_cell e =
                  (Number_toString (n / 100) ++ "." ++ two_digits (n mod 100))%string).
  { unfold FileList.size_cell, FileList.toFixed2. rewrite Hn.
    destruct (Qlt_le_dec _ 0) as [Hneg|_].
    - exfalso. unfold Qlt, Qdiv, Qmult, Qinv, inject_Z in Hneg.
      cbn [Qnum Qden] in Hneg. cbn in Hneg. lia.
    - change (point_before_last_two (FileList.pad3 (Number_toString n)) =
              (Number_toString (n / 100) ++ "." ++ two_digits (n mod 100))%string).
      now apply fixed_text. }
  split; [exact Htext|]. split; [now symmetry|]. split; [lia|]. split.
  - intros e' Hle. apply Z.div_le_mono; lia.
  - intros Hsmall. rewrite Htext.
    assert (H0 : n = 0) by (apply Z.div_small; lia).
    rewrite H0. reflexivity.
Qed.

Lemma size_column_rounds_witness :
  let e := {| FileList._id := "1"; FileList.file_name := "notes.txt";
              FileList.file_size := 5767168; FileList.s3Key := "notes.txt";
              FileList.uploadDate := 0; FileList.downloadUrl := "" |} in
  0 <= FileList.file_size e /\ FileList.size_cell e = "5.50".
Proof.
  intros e.
  assert (Hs : 0 <= FileList.file_size e) by (cbn; lia).
  destruct (size_column_rounds e Hs) as (H & _).
  split; [exact Hs|]. rewrite H. vm_compute. reflexivity.
Defined.

(** ** The complete request and the session *)

(** X20.  A complete request finalizes the very session the run opened: it
    carries the file name of the create request (the same timestamped name,
    not a new one), the uploadId the create request was answered with, the
    file's size, and it is sent when the bytes counted as uploaded are
    exactly the file's size. *)
Theorem finalization_matches_session env f body :
  0 <= size f ->
  In body (complete_requests (trace (final env f))) ->
  cp_fileName body = cr_fileName (create_request env f) /\
  cp_fileSize body = size f /\
  totalUploadedBytes (final env f) = size f /\
  create_requests (trace (final env f)) = [create_request env f] /\
  exists urls,
    create_multipart env (create_request env f) = CreateJson (cp_uploadId body) urls.
Proof.
  intros Hs Hin.
  assert (Htotal : totalUploadedBytes (final env f) = size f /\
                   create_requests (trace (final env f)) = [create_request env f]).
  { destruct (beginUpload_ended env f Hs) as [_ E].
    pose proof (chunkCount_bounds f) as B. pose proof (chunkCount_nonneg f Hs) as Hn.
    assert (Hfull : forall t, Collected env f (Z.to_nat (chunkCount f)) t ->
                      totalUploadedBytes t = size f).
    { intros t C. rewrite (col_total _ _ _ _ C), Z2Nat.id by lia. lia. }
    destruct E as [e Hc Es|j t Hj C Es|t uploadId e C Hf Es|t uploadId ok C Hf Es];
      rewrite Es in *; clear Es.
    - contradiction Hin.
    - cbn [trace with_message] in Hin. rewrite (col_completes _ _ _ _ C) in Hin.
      contradiction Hin.
    - cbn [totalUploadedBytes trace with_message emit].
      rewrite create_requests_app, (col_creates _ _ _ _ C). split; [now apply Hfull|reflexivity].
    - cbn [totalUploadedBytes trace with_message emit].
      rewrite !create_requests_app, (col_creates _ _ _ _ C). split; [now apply Hfull|reflexivity]. }
  destruct Htotal as [Ht Hcr].
  destruct (final_logged env f)
    as [e Hc El|uploadId Hc _ El|ms t Hl Hr El
        |uploadId urls ms t e Hc Hl Hr He El|uploadId urls ms t ok Hc Hl Hr Hok El].
  - rewrite El in Hin. contradiction Hin.
  - rewrite El in Hin. contradiction Hin.
  - rewrite El in Hin. cbn [trace with_message] in Hin.
    destruct (exhausted_log f (urls_of env f) (List.length ms) t) as (_ & _ & Ec & _).
    rewrite Ec in Hin.
    destruct (reached_log _ _ _ _ _ Hr) as (_ & _ & _ & _ & _ & Hcomp & _).
    rewrite Hcomp in Hin. contradiction Hin.
  - rewrite El in Hin. cbn [trace with_message emit] in Hin.
    rewrite complete_requests_app in Hin.
    destruct (reached_log _ _ _ _ _ Hr) as (_ & _ & _ & _ & _ & Hcomp & _).
    rewrite Hcomp in Hin. destruct Hin as [<-|[]].
    repeat split; try assumption. exists urls. exact Hc.
  - rewrite El in Hin. cbn [trace with_message emit] in Hin.
    rewrite !complete_requests_app in Hin.
    destruct (reached_log _ _ _ _ _ Hr) as (_ & _ & _ & _ & _ & Hcomp & _).
    rewrite Hcomp in Hin. destruct Hin as [<-|[]].
    repeat split; try assumption. exists urls. exact Hc.
Qed.

Lemma finalization_matches_session_witness :
  exists body,
    In body (complete_requests (trace (final smooth_env sample_file))) /\
    cp_fileName body = "1700000000000_report.pdf" /\
    cp_uploadId body = Some "upload-1" /\
    cp_fileSize body = 12582912.
Proof.
  set (body := complete_request smooth_env sample_file (Some "upload-1")
                 [ {| PartNumber := 1; ETag := "abc" |};
                   {| PartNumber := 2; ETag := "abc" |};
                   {| PartNumber := 3; ETag := "abc" |} ]).
  assert (Hs : 0 <= size sample_file) by (cbn; lia).
  assert (Hin : In body (complete_requests (trace (final smooth_env sample_file))))
    by (vm_compute; left; reflexivity).
  destruct (finalization_matches_session smooth_env sample_file body Hs Hin)
    as (Hname & Hsize & _).
  exists body. split; [exact Hin|]. split; [rewrite Hname; vm_compute; reflexivity|].
  split; [reflexivity | rewrite Hsize; reflexivity].
Defined.
